(** * The IR interpreter of src/interpreter.c, embedded in Rocq

    The file follows the C source top to bottom.  Pointers to host objects
    are values of [jl_value] (with [NULL] for the null pointer), the
    process-wide cells and the mutable objects the interpreter reads and
    writes form the record [world], and every function of the runtime that
    the source calls but does not define is a field of [collaborators].
    A computation is a function from a world to an outcome, a new world and
    the list of collaborator calls it made, in order. *)

From Stdlib Require Import ZArith String List Bool Lia.
From stdpp Require Import base list strings.

Local Open Scope Z_scope.
Local Set Warnings "-register-all".

(** ** Machine integers *)

(** C [int] (32 bits, two's complement). *)
Definition to_int (z : Z) : Z := (z + 2 ^ 31) mod 2 ^ 32 - 2 ^ 31.
(** [ssize_t] and [long] (64 bits, two's complement). *)
Definition to_ssize (z : Z) : Z := (z + 2 ^ 63) mod 2 ^ 64 - 2 ^ 63.
(** [size_t] (64 bits, unsigned). *)
Definition to_size (z : Z) : Z := z mod 2 ^ 64.

(** ** Values *)

Definition jl_module := nat.
Definition sym := string.

(** [jl_value_t*].  IR nodes carry their payload; datatypes, lambda infos
    and every other host object are references. *)
Inductive jl_value : Type :=
| NULL
| Nothing                                   (* jl_nothing *)
| Bool (b : bool)                           (* jl_true, jl_false *)
| Long (z : Z)                              (* boxed Int *)
| JString (str : string)
| Symbol (name : sym)
| SSAValue (id : Z)
| Slot (n : Z)
| GlobalRef (m : jl_module) (name : sym)
| QuoteNode (v : jl_value)
| GotoNode (label : Z)
| LineNode (line : Z)
| NewvarNode (slot : jl_value)
| Expr (head : sym) (args : list jl_value)
| SimpleVector (elts : list jl_value)
| ArrayAny (elts : list jl_value)
| Tuple (elts : list jl_value)
| DataType (addr : nat)
| TypeVar (id : nat) (bound : bool)
| OtherType (id : nat)                      (* Union, TypeConstructor *)
| LambdaInfo (id : nat)
| ErrorException (msg : string)
| UndefVarError (var : jl_value)
| TypeError (fname context : string) (expected got : jl_value)
| Opaque (id : nat).

Definition jl_true : jl_value := Bool true.
Definition jl_false : jl_value := Bool false.
Definition jl_nothing : jl_value := Nothing.
Definition jl_emptysvec : jl_value := SimpleVector [].

Definition is_null (v : jl_value) : bool :=
  match v with NULL => true | _ => false end.

Definition jl_is_symbol (v : jl_value) : bool :=
  match v with Symbol _ => true | _ => false end.
Definition jl_is_long (v : jl_value) : bool :=
  match v with Long _ => true | _ => false end.
Definition jl_is_svec (v : jl_value) : bool :=
  match v with SimpleVector _ => true | _ => false end.
Definition jl_is_string (v : jl_value) : bool :=
  match v with JString _ => true | _ => false end.
Definition jl_is_datatype (v : jl_value) : bool :=
  match v with DataType _ => true | _ => false end.
Definition jl_is_typevar (v : jl_value) : bool :=
  match v with TypeVar _ _ => true | _ => false end.
Definition jl_is_type (v : jl_value) : bool :=
  match v with DataType _ | OtherType _ => true | _ => false end.
Definition jl_is_lambda_info (v : jl_value) : bool :=
  match v with LambdaInfo _ => true | _ => false end.
Definition jl_is_slot (v : jl_value) : bool :=
  match v with Slot _ => true | _ => false end.

(** [jl_unbox_long]: the 64-bit payload of a boxed Int. *)
Definition jl_unbox_long (v : jl_value) : option Z :=
  match v with Long z => Some (to_ssize z) | _ => None end.

(** Is [v] the pointer [jl_true]? *)
Definition is_jl_true (v : jl_value) : bool :=
  match v with Bool true => true | _ => false end.
Definition is_jl_false (v : jl_value) : bool :=
  match v with Bool false => true | _ => false end.
(** Is [v] the pointer [jl_emptysvec]?  The empty svec is unique. *)
Definition is_emptysvec (v : jl_value) : bool :=
  match v with SimpleVector [] => true | _ => false end.

(** ** Host structures the interpreter reads *)

Record jl_method_t := { meth_module : jl_module }.

Record jl_lambda_info_t := {
  code : jl_value;
  slotflags : list jl_value;
  slotnames : list jl_value;
  ssavaluetypes : jl_value;
  nargs : Z;
  isva : bool;
  sparam_vals : list jl_value;
  def : option jl_method_t
}.

Record interpreter_state := {
  lam : option jl_lambda_info_t;
  locals : option (list jl_value);
  s_sparam_vals : option (list jl_value)
}.

Record jl_binding_t := {
  b_name : sym;
  b_value : jl_value;
  b_constp : bool
}.

Record jl_typename_t := {
  tn_name : sym;
  tn_names : jl_value
}.

Record jl_datatype_t := {
  dt_name : nat;                 (* address of the jl_typename_t *)
  dt_super : jl_value;
  dt_parameters : jl_value;
  dt_types : jl_value;
  dt_instance : jl_value;
  dt_size : Z;
  dt_abstract : bool;
  dt_mutabl : bool;
  dt_ninitialized : Z
}.

(** ** Outcomes *)

(** Why a run left the defined behaviour of C.  [Indeterminate] is the use of
    an automatic variable that was changed between a [setjmp] and the
    [longjmp] that returns to it, and [DeadHandler] is a throw whose
    innermost handler belongs to a frame that has returned. *)
Inductive fault :=
  NullDeref | OutOfBounds | BadCast | AssertionFailed | Indeterminate | DeadHandler.

Inductive outcome (A : Type) : Type :=
| Ok (a : A)
| Throw (e : jl_value)           (* jl_throw, jl_error: non-local exit *)
| Crash (f : fault).             (* abort or undefined behaviour *)
Arguments Ok {A} a.
Arguments Throw {A} e.
Arguments Crash {A} f.

(** ** Collaborator calls *)

Inductive event :=
| EvApplyGeneric (argv : list jl_value)
| EvCallMethodInternal (meth : jl_value) (argv : list jl_value)
| EvNewStructUninit (ty : jl_value)
| EvSetNthField (v : jl_value) (i : Z) (x : jl_value)
| EvCopyAst (v : jl_value)
| EvGetGlobal (m : jl_module) (name : jl_value)
| EvGetBindingForMethodDef (m : jl_module) (name : jl_value)
| EvGenericFunctionDef (name : jl_value) (b : nat)
| EvMethodDef (atypes meth extra : jl_value)
| EvGetBindingWr (m : jl_module) (name : jl_value)
| EvDeclareConstant (b : nat)
| EvNewAbstractType (name para : jl_value)
| EvNewBitsType (name para : jl_value) (nb : Z)
| EvNewDataType (name para fnames : jl_value) (mutabl : bool) (ninit : Z)
| EvReinstantiateInnerTypes (dt : nat)
| EvResetInstantiateInnerTypes (dt : nat)
| EvCheckedAssignment (b : nat) (v : jl_value)
| EvComputeFieldOffsets (dt : nat)
| EvNewstruct (dt : nat)
| EvEvalModuleExpr (ex : jl_value)
| EvToplevelEval (ex : jl_value).

(** ** The world *)

Section Interpreter.

(** What the collaborators keep for themselves: method tables, the binding
    table, the heap of ordinary objects. *)
Context {host : Type}.

Record world := {
  jl_current_module : jl_module;
  task_current_module : jl_module;      (* jl_current_task->current_module *)
  inside_typedef : bool;
  jl_lineno : Z;
  jl_exception_in_transit : jl_value;
  eh_depth : nat;                       (* handlers on jl_current_task->eh *)
  bindings : nat -> jl_binding_t;       (* jl_binding_t by address *)
  datatypes : nat -> jl_datatype_t;     (* jl_datatype_t by address *)
  typenames : nat -> jl_typename_t;     (* jl_typename_t by address *)
  host_state : host
}.

Definition set_modules (m tm : jl_module) (w : world) : world :=
  {| jl_current_module := m; task_current_module := tm;
     inside_typedef := inside_typedef w; jl_lineno := jl_lineno w;
     jl_exception_in_transit := jl_exception_in_transit w;
     eh_depth := eh_depth w; bindings := bindings w;
     datatypes := datatypes w; typenames := typenames w;
     host_state := host_state w |}.

Definition set_inside_typedef (v : bool) (w : world) : world :=
  {| jl_current_module := jl_current_module w;
     task_current_module := task_current_module w;
     inside_typedef := v; jl_lineno := jl_lineno w;
     jl_exception_in_transit := jl_exception_in_transit w;
     eh_depth := eh_depth w; bindings := bindings w;
     datatypes := datatypes w; typenames := typenames w;
     host_state := host_state w |}.

Definition set_lineno (l : Z) (w : world) : world :=
  {| jl_current_module := jl_current_module w;
     task_current_module := task_current_module w;
     inside_typedef := inside_typedef w; jl_lineno := l;
     jl_exception_in_transit := jl_exception_in_transit w;
     eh_depth := eh_depth w; bindings := bindings w;
     datatypes := datatypes w; typenames := typenames w;
     host_state := host_state w |}.

Definition set_exception (e : jl_value) (w : world) : world :=
  {| jl_current_module := jl_current_module w;
     task_current_module := task_current_module w;
     inside_typedef := inside_typedef w; jl_lineno := jl_lineno w;
     jl_exception_in_transit := e;
     eh_depth := eh_depth w; bindings := bindings w;
     datatypes := datatypes w; typenames := typenames w;
     host_state := host_state w |}.

Definition set_eh_depth (d : nat) (w : world) : world :=
  {| jl_current_module := jl_current_module w;
     task_current_module := task_current_module w;
     inside_typedef := inside_typedef w; jl_lineno := jl_lineno w;
     jl_exception_in_transit := jl_exception_in_transit w;
     eh_depth := d; bindings := bindings w;
     datatypes := datatypes w; typenames := typenames w;
     host_state := host_state w |}.

Definition set_bindings (bs : nat -> jl_binding_t) (w : world) : world :=
  {| jl_current_module := jl_current_module w;
     task_current_module := task_current_module w;
     inside_typedef := inside_typedef w; jl_lineno := jl_lineno w;
     jl_exception_in_transit := jl_exception_in_transit w;
     eh_depth := eh_depth w; bindings := bs;
     datatypes := datatypes w; typenames := typenames w;
     host_state := host_state w |}.

Definition set_datatypes (ds : nat -> jl_datatype_t) (w : world) : world :=
  {| jl_current_module := jl_current_module w;
     task_current_module := task_current_module w;
     inside_typedef := inside_typedef w; jl_lineno := jl_lineno w;
     jl_exception_in_transit := jl_exception_in_transit w;
     eh_depth := eh_depth w; bindings := bindings w;
     datatypes := ds; typenames := typenames w;
     host_state := host_state w |}.

(** [b->value = v] *)
Definition store_binding_value (b : nat) (v : jl_value) (w : world) : world :=
  set_bindings
    (fun a => if Nat.eqb a b
              then {| b_name := b_name (bindings w b); b_value := v;
                      b_constp := b_constp (bindings w b) |}
              else bindings w a) w.

Definition update_datatype (dt : nat) (f : jl_datatype_t -> jl_datatype_t)
    (w : world) : world :=
  set_datatypes (fun a => if Nat.eqb a dt then f (datatypes w dt) else datatypes w a) w.

(** [dt->super = v], [dt->types = v], [dt->instance = v] *)
Definition store_dt_super (dt : nat) (v : jl_value) : world -> world :=
  update_datatype dt (fun d =>
    {| dt_name := dt_name d; dt_super := v; dt_parameters := dt_parameters d;
       dt_types := dt_types d; dt_instance := dt_instance d; dt_size := dt_size d;
       dt_abstract := dt_abstract d; dt_mutabl := dt_mutabl d;
       dt_ninitialized := dt_ninitialized d |}).
Definition store_dt_types (dt : nat) (v : jl_value) : world -> world :=
  update_datatype dt (fun d =>
    {| dt_name := dt_name d; dt_super := dt_super d; dt_parameters := dt_parameters d;
       dt_types := v; dt_instance := dt_instance d; dt_size := dt_size d;
       dt_abstract := dt_abstract d; dt_mutabl := dt_mutabl d;
       dt_ninitialized := dt_ninitialized d |}).
Definition store_dt_instance (dt : nat) (v : jl_value) : world -> world :=
  update_datatype dt (fun d =>
    {| dt_name := dt_name d; dt_super := dt_super d; dt_parameters := dt_parameters d;
       dt_types := dt_types d; dt_instance := v; dt_size := dt_size d;
       dt_abstract := dt_abstract d; dt_mutabl := dt_mutabl d;
       dt_ninitialized := dt_ninitialized d |}).

(** The name of a datatype: [dt->name->name]. *)
Definition datatype_name (w : world) (dt : nat) : sym :=
  tn_name (typenames w (dt_name (datatypes w dt))).

(** ** The collaborators

    Functions and constants of the runtime that interpreter.c uses and
    other files define.  An effectful one maps a world to an outcome and a
    world; a predicate reads the world. *)
Record collaborators := {
  jl_apply_generic : list jl_value -> world -> outcome jl_value * world;
  jl_call_method_internal :
    jl_value -> list jl_value -> world -> outcome jl_value * world;
  jl_new_struct_uninit : jl_value -> world -> outcome jl_value * world;
  jl_set_nth_field : jl_value -> Z -> jl_value -> world -> outcome unit * world;
  jl_copy_ast : jl_value -> world -> outcome jl_value * world;
  jl_get_global : jl_module -> jl_value -> world -> outcome jl_value * world;
  jl_get_binding_for_method_def :
    jl_module -> jl_value -> world -> outcome nat * world;
  jl_generic_function_def :
    jl_value -> nat -> jl_module -> world -> outcome jl_value * world;
  jl_method_def : jl_value -> jl_value -> jl_value -> world -> outcome unit * world;
  jl_get_binding_wr : jl_module -> jl_value -> world -> outcome nat * world;
  jl_declare_constant : nat -> world -> outcome unit * world;
  jl_new_abstracttype : jl_value -> jl_value -> world -> outcome nat * world;
  jl_new_bitstype : jl_value -> jl_value -> Z -> world -> outcome nat * world;
  jl_new_datatype :
    jl_value -> jl_value -> jl_value -> bool -> Z -> world -> outcome nat * world;
  jl_reinstantiate_inner_types : nat -> world -> outcome unit * world;
  jl_reset_instantiate_inner_types : nat -> world -> world;
  jl_checked_assignment : nat -> jl_value -> world -> outcome unit * world;
  jl_compute_field_offsets : nat -> world -> outcome unit * world;
  newstruct : nat -> world -> outcome jl_value * world;
  jl_eval_module_expr : jl_value -> world -> outcome jl_value * world;
  jl_toplevel_eval : jl_value -> world -> outcome jl_value * world;
  jl_is_toplevel_only_expr : jl_value -> bool;
  jl_is_structtype : world -> jl_value -> bool;
  jl_is_datatype_make_singleton : world -> nat -> bool;
  lambda_inInference : world -> jl_value -> bool;
  jl_egal : world -> jl_value -> jl_value -> bool;
  jl_subtype : world -> jl_value -> jl_value -> bool;
  jl_any_type : nat;
  jl_bool_type : nat;
  jl_type_type : nat;
  jl_vararg_type : nat;
  jl_builtin_type : nat;
  jl_tuple_typename : nat
}.

Variable C : collaborators.

(** ** Computations *)

Definition M (A : Type) : Type := world -> outcome A * world * list event.

Definition ret {A} (a : A) : M A := fun w => (Ok a, w, []).

Definition bind {A B} (m : M A) (f : A -> M B) : M B :=
  fun w =>
    match m w with
    | (Ok a, w1, t1) => let '(r, w2, t2) := f a w1 in (r, w2, t1 ++ t2)
    | (Throw e, w1, t1) => (Throw e, w1, t1)
    | (Crash c, w1, t1) => (Crash c, w1, t1)
    end.

Notation "x <- m ;; k" := (bind m (fun x => k))
  (at level 100, m at next level, right associativity).
Notation "m ;;; k" := (bind m (fun _ => k))
  (at level 100, right associativity).

Definition crash {A} (f : fault) : M A := fun w => (Crash f, w, []).
Definition get_world : M world := fun w => (Ok w, w, []).
Definition modify (f : world -> world) : M unit := fun w => (Ok tt, f w, []).
Definition assert (b : bool) : M unit :=
  if b then ret tt else crash AssertionFailed.

(** An assertion [b] that tests the type tag of [v], as [jl_is_symbol(v)]
    and the like do: the tag of the null pointer cannot be read. *)
Definition assert_tag (v : jl_value) (b : bool) : M unit :=
  if is_null v then crash NullDeref else assert b.

(** Modelled from the spec: [jl_throw], [jl_error], [jl_errorf],
    [jl_undefined_var_error] and [jl_type_error_rt] are defined outside
    interpreter.c.  A throw makes its exception the exception in transit
    (the cell the [the_exception] head reads) and leaves for the innermost
    handler. *)
Definition jl_throw {A} (e : jl_value) : M A :=
  fun w => (Throw e, set_exception e w, []).
Definition jl_error {A} (msg : string) : M A := jl_throw (ErrorException msg).
Definition jl_undefined_var_error {A} (var : jl_value) : M A :=
  jl_throw (UndefVarError var).
Definition jl_type_error_rt {A} (fname context : string) (ty got : jl_value) : M A :=
  jl_throw (TypeError fname context ty got).

(** A call of a collaborator, recorded as [ev]. *)
Definition call {A} (ev : event) (f : world -> outcome A * world) : M A :=
  fun w =>
    match f w with
    | (Throw e, w1) => (Throw e, set_exception e w1, [ev])
    | (r, w1) => (r, w1, [ev])
    end.

(** Modelled from the spec: JL_TRY, JL_CATCH and [jl_rethrow] are defined
    outside interpreter.c.  The handler runs when the body throws, in the
    world the throw left, and [jl_rethrow()] inside it throws the caught
    exception again.  The handler JL_TRY registers is gone when either
    block ends, so the count of handlers is the same before and after. *)
Definition JL_TRY {A} (body : M A) (handler : jl_value -> M A) : M A :=
  fun w =>
    match body w with
    | (Throw e, w1, t1) => let '(r, w2, t2) := handler e w1 in (r, w2, t1 ++ t2)
    | r => r
    end.
Definition jl_rethrow {A} (e : jl_value) : M A := jl_throw e.

(** The evaluations of a list of arguments, one after the other. *)
Fixpoint sequenceM {A} (ms : list (M A)) : M (list A) :=
  match ms with
  | [] => ret []
  | m :: ms' => a <- m ;; rest <- sequenceM ms' ;; ret (a :: rest)
  end.

(** [a[i]] for a C array of known length. *)
Definition index {A} (l : list A) (i : Z) : M A :=
  if i <? 0 then crash OutOfBounds
  else match l !! Z.to_nat i with
       | Some a => ret a
       | None => crash OutOfBounds
       end.

Definition unbox_long (v : jl_value) : M Z :=
  match jl_unbox_long v with
  | Some z => ret z
  | None => match v with NULL => crash NullDeref | _ => crash BadCast end
  end.

(** [jl_symbol_name(v)] *)
Definition symbol_name (v : jl_value) : M string :=
  match v with
  | Symbol n => ret n
  | NULL => crash NullDeref
  | _ => crash BadCast
  end.

(** ** Expression heads *)

Definition call_sym : sym := "call".
Definition invoke_sym : sym := "invoke".
Definition new_sym : sym := "new".
Definition static_parameter_sym : sym := "static_parameter".
Definition inert_sym : sym := "inert".
Definition copyast_sym : sym := "copyast".
Definition static_typeof_sym : sym := "static_typeof".
Definition exc_sym : sym := "the_exception".
Definition method_sym : sym := "method".
Definition const_sym : sym := "const".
Definition global_sym : sym := "global".
Definition abstracttype_sym : sym := "abstract_type".
Definition bitstype_sym : sym := "bits_type".
Definition compositetype_sym : sym := "composite_type".
Definition module_sym : sym := "module".
Definition thunk_sym : sym := "thunk".
Definition error_sym : sym := "error".
Definition jl_incomplete_sym : sym := "incomplete".
Definition boundscheck_sym : sym := "boundscheck".
Definition inbounds_sym : sym := "inbounds".
Definition fastmath_sym : sym := "fastmath".
Definition simdloop_sym : sym := "simdloop".
Definition meta_sym : sym := "meta".
Definition type_goto_sym : sym := "type_goto".
Definition return_sym : sym := "return".
Definition assign_sym : sym := "=".
Definition goto_ifnot_sym : sym := "goto_ifnot".
Definition line_sym : sym := "line".
Definition enter_sym : sym := "enter".
Definition leave_sym : sym := "leave".

(** ** interpreter.c, lines 58-145 *)

(** [do_call]: [evs] are the evaluations [eval(args[i], s)], in order. *)
Definition do_call (evs : list (M jl_value)) : M jl_value :=
  argv <- sequenceM evs ;;
  call (EvApplyGeneric argv) (jl_apply_generic C argv).

(** [do_invoke]: [nargs - 1] wraps around when there is no argument. *)
Definition do_invoke (args : list jl_value) (evs : list (M jl_value)) : M jl_value :=
  match args with
  | [] => crash OutOfBounds
  | meth :: _ =>
      argv <- sequenceM (tail evs) ;;
      w <- get_world ;;
      assert_tag meth (jl_is_lambda_info meth && negb (lambda_inInference C w meth)) ;;;
      call (EvCallMethodInternal meth argv) (jl_call_method_internal C meth argv)
  end.

Definition jl_eval_global_var (m : jl_module) (e : jl_value) : M jl_value :=
  v <- call (EvGetGlobal m e) (jl_get_global C m e) ;;
  if is_null v then jl_undefined_var_error e else ret v.

(** A heuristic for allowing a type to be redefined as something identical.
    [dta] is a datatype; [dtb] is the old value of the binding, of any type. *)
Definition equiv_type (w : world) (dta : nat) (dtb : jl_value) : bool :=
  match dtb with
  | DataType b =>                       (* jl_typeof(dta) == jl_typeof(dtb) *)
      let ta := datatypes w dta in
      let tb := datatypes w b in
      is_emptysvec (dt_parameters ta) &&
      String.eqb (tn_name (typenames w (dt_name ta)))
                 (tn_name (typenames w (dt_name tb))) &&
      jl_egal C w (dt_types ta) (dt_types tb) &&
      Bool.eqb (dt_abstract ta) (dt_abstract tb) &&
      Bool.eqb (dt_mutabl ta) (dt_mutabl tb) &&
      (dt_size ta =? dt_size tb) &&
      (dt_ninitialized ta =? dt_ninitialized tb) &&
      jl_egal C w (dt_super ta) (dt_super tb) &&
      jl_egal C w (tn_names (typenames w (dt_name ta)))
                  (tn_names (typenames w (dt_name tb))) &&
      jl_egal C w (dt_parameters ta) (dt_parameters tb)
  | _ => false
  end.

Definition check_can_assign_type (b : nat) : M unit :=
  w <- get_world ;;
  let bd := bindings w b in
  if b_constp bd && negb (is_null (b_value bd)) && negb (jl_is_datatype (b_value bd))
  then jl_error (String.append "invalid redefinition of constant " (b_name bd))
  else ret tt.

Definition jl_set_datatype_super (tt : nat) (super : jl_value) : M unit :=
  w <- get_world ;;
  let refused :=
    match super with
    | DataType sa =>
        let sd := datatypes w sa in
        negb (dt_abstract sd) ||
        Nat.eqb (dt_name (datatypes w tt)) (dt_name sd) ||
        jl_subtype C w super (DataType (jl_vararg_type C)) ||
        Nat.eqb (dt_name sd) (jl_tuple_typename C) ||
        jl_subtype C w super (DataType (jl_type_type C)) ||
        Nat.eqb sa (jl_builtin_type C)
    | _ => true                         (* !jl_is_datatype(super) *)
    end in
  if is_null super then crash NullDeref (* jl_is_datatype reads the type tag *)
  else if refused
  then jl_error (String.append "invalid subtyping in definition of " (datatype_name w tt))
  else modify (store_dt_super tt super).

Definition jl_linfo_nslots (li : option jl_lambda_info_t) : M Z :=
  match li with
  | None => crash NullDeref
  | Some l => ret (to_int (Z.of_nat (length (slotflags l))))
  end.

Definition jl_linfo_nssavalues (li : option jl_lambda_info_t) : M Z :=
  match li with
  | None => crash NullDeref
  | Some l =>
      match ssavaluetypes l with
      | Long z => ret (to_int (to_ssize z))
      | ArrayAny a => ret (to_int (Z.of_nat (length a)))
      | NULL => crash NullDeref
      | _ => crash BadCast
      end
  end.

(** ** Parts of [eval] that do not recurse *)

(** [s->locals] *)
Definition s_locals (s : option interpreter_state) : M (option (list jl_value)) :=
  match s with
  | None => crash NullDeref
  | Some st => ret (locals st)
  end.

(** [s->locals[i]], read *)
Definition read_local (s : option interpreter_state) (i : Z) : M jl_value :=
  loc <- s_locals s ;;
  match loc with
  | None => crash NullDeref
  | Some l => index l i
  end.

Definition eval_ssavalue (id : Z) (s : option interpreter_state) : M jl_value :=
  let lam := match s with None => None | Some st => lam st end in
  let id := to_ssize id in
  nssa <- jl_linfo_nssavalues lam ;;
  if (nssa <=? id) || (id <? 0) then jl_error "access to invalid SSAValue"
  else
    loc <- s_locals s ;;
    match loc with
    | None => jl_error "access to invalid SSAValue"
    | Some l => nsl <- jl_linfo_nslots lam ;; index l (nsl + id)
    end.

Definition eval_slot (n : Z) (s : option interpreter_state) : M jl_value :=
  let lam := match s with None => None | Some st => lam st end in
  let n := to_ssize n in
  nsl <- jl_linfo_nslots lam ;;
  if (nsl <? n) || (n <? 1) then jl_error "access to invalid slot number"
  else
    loc <- s_locals s ;;
    match loc with
    | None => jl_error "access to invalid slot number"
    | Some l =>
        v <- index l (n - 1) ;;
        if is_null v
        then
          match lam with
          | None => crash NullDeref
          | Some li => name <- index (slotnames li) (n - 1) ;; jl_undefined_var_error name
          end
        else ret v
    end.

(** The module of unqualified names:
    [(lam == NULL || lam->def == NULL) ? jl_current_module : lam->def->module] *)
Definition current_module_of (lam : option jl_lambda_info_t) (w : world) : jl_module :=
  match lam with
  | None => jl_current_module w
  | Some li =>
      match def li with
      | None => jl_current_module w
      | Some d => meth_module d
      end
  end.

(** [jl_set_nth_field(v, i-1, eval(args[i], s))] for [i] from [i0] on. *)
Fixpoint set_fields (v : jl_value) (i : Z) (evs : list (M jl_value)) : M unit :=
  match evs with
  | [] => ret tt
  | m :: evs' =>
      x <- m ;;
      call (EvSetNthField v (i - 1) x) (jl_set_nth_field C v (i - 1) x) ;;;
      set_fields v (i + 1) evs'
  end.

(** The loop of the [global] form. *)
Fixpoint declare_globals (modu : jl_module) (args : list jl_value) : M unit :=
  match args with
  | [] => ret tt
  | a :: args' =>
      assert_tag a (jl_is_symbol a) ;;;
      _ <- call (EvGetBindingWr modu a) (jl_get_binding_wr C modu a) ;;
      declare_globals modu args'
  end.

(** The JL_CATCH block of the three type-definition forms. *)
Definition typedef_rollback (dt b : nat) (temp : jl_value) (e : jl_value) : M unit :=
  call (EvResetInstantiateInnerTypes dt)
       (fun w => (Ok tt, jl_reset_instantiate_inner_types C dt w)) ;;;
  modify (store_binding_value b temp) ;;;
  jl_rethrow e.

(** The last statements of the three type-definition forms:
    [b->value = temp; if (temp==NULL || !equiv_type(dt, temp))
     jl_checked_assignment(b, dt);] *)
Definition typedef_commit (dt b : nat) (temp : jl_value) : M unit :=
  modify (store_binding_value b temp) ;;;
  w <- get_world ;;
  if is_null temp || negb (equiv_type w dt temp)
  then call (EvCheckedAssignment b (DataType dt))
            (jl_checked_assignment C b (DataType dt))
  else ret tt.

(** [temp = b->value; check_can_assign_type(b); b->value = dt;] *)
Definition typedef_bind (dt b : nat) : M jl_value :=
  w <- get_world ;;
  let temp := b_value (bindings w b) in
  check_can_assign_type b ;;;
  modify (store_binding_value b (DataType dt)) ;;;
  ret temp.

Section Forms.

(** The arguments of the expression, the evaluations [eval(args[i], s)] of
    each of them, and the module of unqualified names. *)
Variable args : list jl_value.
Variable evs : list (M jl_value).
Variable modu : jl_module.

Definition arg (k : nat) : M jl_value :=
  match args !! k with
  | Some a => ret a
  | None => crash OutOfBounds
  end.

Definition eval_arg (k : nat) : M jl_value :=
  match evs !! k with
  | Some m => m
  | None => crash OutOfBounds
  end.

Definition expr_nargs : Z := Z.of_nat (length args).

Definition eval_new : M jl_value :=
  thetype <- eval_arg 0 ;;
  w <- get_world ;;
  assert (jl_is_structtype C w thetype) ;;;
  v <- call (EvNewStructUninit thetype) (jl_new_struct_uninit C thetype) ;;
  set_fields v 1 (tail evs) ;;;
  ret v.

Definition eval_static_parameter (s : option interpreter_state) : M jl_value :=
  a0 <- arg 0 ;;
  n <- unbox_long a0 ;;
  assert (0 <? n) ;;;
  match s with
  | None => crash NullDeref
  | Some st =>
      match s_sparam_vals st with
      | Some sv => index sv (n - 1)
      | None =>
          match lam st with
          | None => crash NullDeref
          | Some li =>
              if n <=? Z.of_nat (length (sparam_vals li))
              then
                sp <- index (sparam_vals li) (n - 1) ;;
                if is_null sp then crash NullDeref (* jl_is_typevar reads the tag *)
                else if negb (jl_is_typevar sp) then ret sp
                else jl_error "could not determine static parameter value"
              else jl_error "could not determine static parameter value"
          end
      end
  end.

Definition eval_method : M jl_value :=
  fname <- arg 0 ;;
  (if expr_nargs =? 1 then assert_tag fname (jl_is_symbol fname) else ret tt) ;;;
  early <-
    (if is_null fname then crash NullDeref (* jl_is_symbol reads the tag *)
     else if jl_is_symbol fname
     then
       b <- call (EvGetBindingForMethodDef modu fname)
                 (jl_get_binding_for_method_def C modu fname) ;;
       gf <- call (EvGenericFunctionDef fname b)
                  (jl_generic_function_def C fname b modu) ;;
       if expr_nargs =? 1 then ret (Some gf) else ret None
     else ret None) ;;
  match early with
  | Some gf => ret gf
  | None =>
      atypes <- eval_arg 1 ;;
      meth <- eval_arg 2 ;;
      extra <- arg 3 ;;
      call (EvMethodDef atypes meth extra) (jl_method_def C atypes meth extra) ;;;
      ret jl_nothing
  end.

Definition eval_const : M jl_value :=
  sym <- arg 0 ;;
  assert_tag sym (jl_is_symbol sym) ;;;
  b <- call (EvGetBindingWr modu sym) (jl_get_binding_wr C modu sym) ;;
  call (EvDeclareConstant b) (jl_declare_constant C b) ;;;
  ret jl_nothing.

Definition eval_global : M jl_value :=
  declare_globals modu args ;;;
  ret jl_nothing.

(** *** [abstract_type] *)

(** Lines 273-288: up to and including [b->value = dt]. *)
Definition abstracttype_prelude : M (nat * nat * jl_value) :=
  w <- get_world ;;
  if inside_typedef w
  then jl_error "cannot eval a new abstract type definition while defining another type"
  else
    name <- arg 0 ;;
    para <- eval_arg 1 ;;
    assert_tag para (jl_is_svec para) ;;;
    assert_tag name (jl_is_symbol name) ;;;
    dt <- call (EvNewAbstractType name para) (jl_new_abstracttype C name para) ;;
    b <- call (EvGetBindingWr modu name) (jl_get_binding_wr C modu name) ;;
    temp <- typedef_bind dt b ;;
    ret (dt, b, temp).

(** Lines 290-293: the body of JL_TRY. *)
Definition abstracttype_protected (dt : nat) : M unit :=
  modify (set_inside_typedef true) ;;;
  super <- eval_arg 2 ;;
  jl_set_datatype_super dt super ;;;
  call (EvReinstantiateInnerTypes dt) (jl_reinstantiate_inner_types C dt).

Definition eval_abstracttype : M jl_value :=
  r <- abstracttype_prelude ;;
  let '(dt, b, temp) := r in
  JL_TRY (abstracttype_protected dt) (typedef_rollback dt b temp) ;;;
  typedef_commit dt b temp ;;;
  ret jl_nothing.

(** *** [bits_type] *)

(** Lines 308-324: up to the check of the number of bits. *)
Definition bitstype_nbits : M (jl_value * jl_value * Z) :=
  w <- get_world ;;
  if inside_typedef w
  then jl_error "cannot eval a new bits type definition while defining another type"
  else
    name <- arg 0 ;;
    assert_tag name (jl_is_symbol name) ;;;
    para <- eval_arg 1 ;;
    assert_tag para (jl_is_svec para) ;;;
    vnb <- eval_arg 2 ;;
    if is_null vnb then crash NullDeref (* jl_is_long reads the tag *)
    else if negb (jl_is_long vnb)
    then
      n <- symbol_name name ;;
      jl_error (String.append "invalid declaration of bits type " n)
    else
      nb <- unbox_long vnb ;;
      ret (name, para, nb).

(** Lines 322-330. *)
Definition bitstype_define (name para : jl_value) (nb : Z) : M (nat * nat * jl_value) :=
  if (nb <? 1) || (2 ^ 23 <=? nb) || negb (Z.land nb 7 =? 0)
  then
    n <- symbol_name name ;;
    jl_error (String.append "invalid number of bits in type " n)
  else
    dt <- call (EvNewBitsType name para nb) (jl_new_bitstype C name para nb) ;;
    b <- call (EvGetBindingWr modu name) (jl_get_binding_wr C modu name) ;;
    temp <- typedef_bind dt b ;;
    ret (dt, b, temp).

Definition bitstype_prelude : M (nat * nat * jl_value) :=
  r <- bitstype_nbits ;;
  let '(name, para, nb) := r in
  bitstype_define name para nb.

Definition bitstype_protected (dt : nat) : M unit :=
  modify (set_inside_typedef true) ;;;
  super <- eval_arg 3 ;;
  jl_set_datatype_super dt super ;;;
  call (EvReinstantiateInnerTypes dt) (jl_reinstantiate_inner_types C dt).

Definition eval_bitstype : M jl_value :=
  r <- bitstype_prelude ;;
  let '(dt, b, temp) := r in
  JL_TRY (bitstype_protected dt) (typedef_rollback dt b temp) ;;;
  typedef_commit dt b temp ;;;
  ret jl_nothing.

(** *** [composite_type] *)

(** The debug check of lines 361-366: no parameter is a bound type variable. *)
Fixpoint check_unbound (para : list jl_value) : M unit :=
  match para with
  | [] => ret tt
  | TypeVar _ bound :: para' => assert (negb bound) ;;; check_unbound para'
  | NULL :: _ => crash NullDeref
  | _ :: _ => crash BadCast
  end.

(** Lines 350-376.  The last parameter of [jl_new_datatype] is an [int]:
    the unboxed [args[6]] is narrowed to 32 bits by the call. *)
Definition compositetype_prelude : M (nat * nat * jl_value * jl_value) :=
  w <- get_world ;;
  if inside_typedef w
  then jl_error "cannot eval a new data type definition while defining another type"
  else
    name <- arg 0 ;;
    assert_tag name (jl_is_symbol name) ;;;
    para <- eval_arg 1 ;;
    assert_tag para (jl_is_svec para) ;;;
    fnames <- eval_arg 2 ;;
    check_unbound (match para with SimpleVector l => l | _ => [] end) ;;;
    a5 <- arg 5 ;;
    a6 <- arg 6 ;;
    ninit <- unbox_long a6 ;;
    dt <- call (EvNewDataType name para fnames (is_jl_true a5) (to_int ninit))
               (jl_new_datatype C name para fnames (is_jl_true a5) (to_int ninit)) ;;
    b <- call (EvGetBindingWr modu name) (jl_get_binding_wr C modu name) ;;
    temp <- typedef_bind dt b ;;
    ret (dt, b, temp, para).

(** The loop of lines 385-391 over the elements of [dt->types]. *)
Fixpoint check_field_types (dt : nat) (elts : list jl_value) : M unit :=
  match elts with
  | [] => ret tt
  | NULL :: _ => crash NullDeref
  | elt :: elts' =>
      if negb (jl_is_type elt) && negb (jl_is_typevar elt)
      then
        w <- get_world ;;
        jl_type_error_rt (datatype_name w dt) "type definition"
                         (DataType (jl_type_type C)) elt
      else check_field_types dt elts'
  end.

(** Lines 379-392: the body of JL_TRY. *)
Definition compositetype_protected (dt : nat) : M unit :=
  modify (set_inside_typedef true) ;;;
  super <- eval_arg 3 ;;
  jl_set_datatype_super dt super ;;;
  types <- eval_arg 4 ;;
  modify (store_dt_types dt types) ;;;
  match types with
  | SimpleVector elts => check_field_types dt elts
  | NULL => crash NullDeref
  | _ => crash BadCast
  end ;;;
  call (EvReinstantiateInnerTypes dt) (jl_reinstantiate_inner_types C dt).

(** Lines 399-403. *)
Definition compositetype_layout (dt : nat) (para : jl_value) : M unit :=
  call (EvComputeFieldOffsets dt) (jl_compute_field_offsets C dt) ;;;
  w <- get_world ;;
  if is_emptysvec para && jl_is_datatype_make_singleton C w dt
  then
    inst <- call (EvNewstruct dt) (newstruct C dt) ;;
    modify (store_dt_instance dt inst)
  else ret tt.

Definition eval_compositetype : M jl_value :=
  r <- compositetype_prelude ;;
  let '(dt, b, temp, para) := r in
  JL_TRY (compositetype_protected dt) (typedef_rollback dt b temp) ;;;
  compositetype_layout dt para ;;;
  typedef_commit dt b temp ;;;
  ret jl_nothing.

(** *** [error], [incomplete] *)

Definition dquote : string := String (Ascii.ascii_of_nat 34) EmptyString.

(** What the conversion [%s] of [jl_errorf] prints of the bytes of a string:
    the bytes before the first NUL. *)
Fixpoint c_string (str : string) : string :=
  match str with
  | EmptyString => EmptyString
  | String c rest =>
      if Ascii.eqb c Ascii.zero then EmptyString else String c (c_string rest)
  end.

Definition eval_error : M jl_value :=
  if expr_nargs =? 0
  then jl_error (String.append "malformed "
                   (String.append dquote
                      (String.append "error" (String.append dquote " expression"))))
  else
    a0 <- arg 0 ;;
    match a0 with
    | JString str => jl_error (String.append "syntax: " (c_string str))
    | NULL => crash NullDeref
    | _ => jl_throw a0
    end.

(** The dispatch on the head of an expression, lines 187-434. *)
Definition eval_expr (head : sym) (s : option interpreter_state) : M jl_value :=
  if String.eqb head call_sym then do_call evs
  else if String.eqb head invoke_sym then do_invoke args evs
  else if String.eqb head new_sym then eval_new
  else if String.eqb head static_parameter_sym then eval_static_parameter s
  else if String.eqb head inert_sym then arg 0
  else if String.eqb head copyast_sym then
    v <- eval_arg 0 ;; call (EvCopyAst v) (jl_copy_ast C v)
  else if String.eqb head static_typeof_sym then ret (DataType (jl_any_type C))
  else if String.eqb head exc_sym then
    w <- get_world ;; ret (jl_exception_in_transit w)
  else if String.eqb head method_sym then eval_method
  else if String.eqb head const_sym then eval_const
  else if String.eqb head global_sym then eval_global
  else if String.eqb head abstracttype_sym then eval_abstracttype
  else if String.eqb head bitstype_sym then eval_bitstype
  else if String.eqb head compositetype_sym then eval_compositetype
  else if String.eqb head module_sym then
    call (EvEvalModuleExpr (Expr head args)) (jl_eval_module_expr C (Expr head args))
  else if String.eqb head thunk_sym then
    call (EvToplevelEval (Expr head args)) (jl_toplevel_eval C (Expr head args))
  else if String.eqb head error_sym || String.eqb head jl_incomplete_sym then eval_error
  else if String.eqb head boundscheck_sym || String.eqb head inbounds_sym ||
          String.eqb head fastmath_sym || String.eqb head simdloop_sym ||
          String.eqb head meta_sym || String.eqb head type_goto_sym
  then ret jl_nothing
  else jl_error (String.append "unsupported or misplaced expression " head).

End Forms.

(** ** [eval], lines 147-435 *)

Fixpoint eval (e : jl_value) (s : option interpreter_state) {struct e} : M jl_value :=
  match e with
  | NULL => crash NullDeref
  | SSAValue id => eval_ssavalue id s
  | Slot n => eval_slot n s
  | GlobalRef m name => jl_eval_global_var m (Symbol name)
  | QuoteNode v => ret v
  | Symbol _ =>
      w <- get_world ;;
      jl_eval_global_var
        (current_module_of (match s with None => None | Some st => lam st end) w) e
  | Expr head args =>
      w <- get_world ;;
      eval_expr args (List.map (fun a => eval a s) args)
        (current_module_of (match s with None => None | Some st => lam st end) w)
        head s
  | _ => ret e
  end.

(** [jl_interpret_toplevel_expr], lines 29-32 *)
Definition jl_interpret_toplevel_expr (e : jl_value) : M jl_value := eval e None.

(** [jl_interpret_toplevel_expr_in], lines 34-56 *)
Definition jl_interpret_toplevel_expr_in (m : jl_module) (e : jl_value)
    (lam : option jl_lambda_info_t) : M jl_value :=
  w0 <- get_world ;;
  let last_m := jl_current_module w0 in
  let task_last_m := task_current_module w0 in
  let s := {| lam := lam; locals := None; s_sparam_vals := None |} in
  v <- JL_TRY
         (modify (set_modules m m) ;;; eval e (Some s))
         (fun exc => modify (set_modules last_m task_last_m) ;;; jl_rethrow exc) ;;
  modify (set_modules last_m task_last_m) ;;;
  assert (negb (is_null v)) ;;;
  ret v.

(** ** [eval_body], lines 442-553 *)

(** What a statement does to the instruction pointer. *)
Inductive control :=
| Next                              (* i++ *)
| Jump (i : Z)                      (* i = ...; continue *)
| Return (v : jl_value).

(** [s->lam] *)
Definition s_lam (s : option interpreter_state) : M (option jl_lambda_info_t) :=
  match s with
  | None => crash NullDeref
  | Some st => ret (lam st)
  end.

(** [s->locals[i] = v] *)
Definition store_local (s : option interpreter_state) (i : Z) (v : jl_value)
    : M (option interpreter_state) :=
  match s with
  | None => crash NullDeref
  | Some st =>
      match locals st with
      | None => crash NullDeref
      | Some l =>
          if (i <? 0) || (Z.of_nat (length l) <=? i) then crash OutOfBounds
          else ret (Some {| lam := lam st;
                            locals := Some (<[Z.to_nat i := v]> l);
                            s_sparam_vals := s_sparam_vals st |})
      end
  end.

(** Modelled from the spec: [jl_pop_handler] is defined outside
    interpreter.c; [leave] pops N handlers, and popping where none is left
    follows a null handler pointer. *)
Definition jl_pop_handler (n : Z) : M unit :=
  if n <=? 0 then ret tt
  else
    w <- get_world ;;
    if Z.of_nat (eh_depth w) <? n then crash NullDeref
    else modify (set_eh_depth (eh_depth w - Z.to_nat n)%nat).

(** [jl_exprarg(stmt, k)] *)
Definition exprarg (args : list jl_value) (k : nat) : M jl_value :=
  match args !! k with
  | Some a => ret a
  | None => crash OutOfBounds
  end.

(** Lines 464-493: the statement [args[0] = args[1]]. *)
Definition exec_assign (args : list jl_value) (s : option interpreter_state)
    : M (option interpreter_state) :=
  sym <- exprarg args 0 ;;
  a1 <- exprarg args 1 ;;
  rhs <- eval a1 s ;;
  match sym with
  | NULL => crash NullDeref
  | SSAValue id =>
      let genid := to_ssize id in
      li <- s_lam s ;;
      nssa <- jl_linfo_nssavalues li ;;
      if (nssa <=? genid) || (genid <? 0)
      then jl_error "assignment to invalid GenSym location"
      else nsl <- jl_linfo_nslots li ;; store_local s (nsl + genid) rhs
  | Slot n0 =>
      let n := to_ssize n0 in
      li <- s_lam s ;;
      nsl <- jl_linfo_nslots li ;;
      assert ((n <=? nsl) && (0 <? n)) ;;;
      store_local s (n - 1) rhs
  | _ =>
      w <- get_world ;;
      let '(m, name) :=
        match sym with
        | GlobalRef gm gname => (gm, Symbol gname)
        | _ => (current_module_of (match s with None => None | Some st => lam st end) w,
                sym)
        end in
      assert (jl_is_symbol name) ;;;
      b <- call (EvGetBindingWr m name) (jl_get_binding_wr C m name) ;;
      call (EvCheckedAssignment b rhs) (jl_checked_assignment C b rhs) ;;;
      ret s
  end.

(** Lines 494-503: the statement [goto_ifnot args[0] args[1]]. *)
Definition exec_goto_ifnot (args : list jl_value) (s : option interpreter_state)
    : M control :=
  a0 <- exprarg args 0 ;;
  cond <- eval a0 s ;;
  if is_jl_false cond
  then
    a1 <- exprarg args 1 ;;
    label <- unbox_long a1 ;;
    ret (Jump (to_size (label - 1)))
  else if negb (is_jl_true cond)
  then jl_type_error_rt "toplevel" "if" (DataType (jl_bool_type C)) cond
  else ret Next.

(** One statement other than [enter]: lines 451-548. *)
Definition exec_stmt (stmt : jl_value) (s : option interpreter_state) (toplevel : bool)
    : M (control * option interpreter_state) :=
  match stmt with
  | GotoNode label => ret (Jump (to_size (to_ssize label - 1)), s)
  | Expr head args =>
      if String.eqb head return_sym then
        ex <- exprarg args 0 ;;
        v <- (if toplevel && jl_is_toplevel_only_expr C ex
              then call (EvToplevelEval ex) (jl_toplevel_eval C ex)
              else eval ex s) ;;
        ret (Return v, s)
      else if String.eqb head assign_sym then
        s' <- exec_assign args s ;; ret (Next, s')
      else if String.eqb head goto_ifnot_sym then
        c <- exec_goto_ifnot args s ;; ret (c, s)
      else if String.eqb head line_sym then
        (if toplevel
         then a0 <- exprarg args 0 ;; l <- unbox_long a0 ;; modify (set_lineno (to_int l))
         else ret tt) ;;;
        ret (Next, s)
      else if String.eqb head leave_sym then
        a0 <- exprarg args 0 ;;
        n <- unbox_long a0 ;;
        jl_pop_handler (to_int n) ;;;
        ret (Next, s)
      else if toplevel && jl_is_toplevel_only_expr C stmt then
        _ <- call (EvToplevelEval stmt) (jl_toplevel_eval C stmt) ;;
        ret (Next, s)
      else
        _ <- eval stmt s ;; ret (Next, s)
  | LineNode line =>
      (if toplevel then modify (set_lineno (to_int (to_ssize line))) else ret tt) ;;;
      ret (Next, s)
  | NewvarNode var =>
      match var with
      | Slot n0 =>
          let n := to_ssize n0 in
          li <- s_lam s ;;
          nsl <- jl_linfo_nslots li ;;
          assert ((n <=? nsl) && (0 <? n)) ;;;
          s' <- store_local s (n - 1) NULL ;;
          ret (Next, s')
      | NULL => crash NullDeref
      | _ => crash AssertionFailed
      end
  | _ => _ <- eval stmt s ;; ret (Next, s)
  end.

(** The result of a run of the body: [None] when the fuel ran out. *)
Definition body_result : Type :=
  option (outcome jl_value * option interpreter_state * world * list event).

Definition after (tr : list event) (r : body_result) : body_result :=
  match r with
  | None => None
  | Some (o, s, w, t) => Some (o, s, w, tr ++ t)
  end.

Definition body_error : string :=
  "`body` expression must terminate in `return`. Use `block` instead.".

(** The argument of an [enter] statement, when [stmt] is one. *)
Definition enter_args (stmt : jl_value) : option (list jl_value) :=
  match stmt with
  | Expr head args => if String.eqb head enter_sym then Some args else None
  | _ => None
  end.

(** The handler of an [enter] statement, lines 510-521.  [jl_enter_handler],
    [jl_setjmp] and the delivery of a throw are defined outside
    interpreter.c and modelled from the spec: [enter] registers the handler
    of this frame, at depth [depth], and runs the following statements in a
    call of [eval_body]; a throw is delivered to the innermost handler.

    [r] is the result of statements run while the handler was registered.
    A throw that finds the handler innermost comes back to the [else]
    branch of line 514, which reads the label from [stmt] and goes on with
    the loop of this frame at the label.  Nothing in that branch removes
    the handler: until a [leave] pops it, a throw of the statements run
    from the label on comes back to the same [else] branch, which is why
    their result goes through [catch_throw] again.  A throw that finds the
    handler popped goes on to the caller; a throw that finds a handler
    above this one registered has no live frame to go to.

    [fresh] tells whether [stmt] is still the [enter] statement.  The loop
    run from the label on assigns [stmt] at line 450 unless it ends at line
    449 at once; [stmt] has then been changed between the [setjmp] and the
    [longjmp] that comes back to it, so that its value is indeterminate,
    and so is the label line 519 reads from it.

    [resume s i w] is the loop of this frame from statement [i] on, and
    [n] bounds the number of times the handler is entered. *)
Fixpoint catch_throw
    (resume : option interpreter_state -> Z -> world -> body_result)
    (ns : Z) (args : list jl_value) (depth : nat)
    (n : nat) (fresh : bool) (r : body_result) {struct n} : body_result :=
  match r with
  | None => None
  | Some (Throw e, s1, w1, t1) =>
      if Nat.ltb depth (eh_depth w1) then Some (Crash DeadHandler, s1, w1, t1)
      else if Nat.ltb (eh_depth w1) depth then Some (Throw e, s1, w1, t1)
      else if negb fresh then Some (Crash Indeterminate, s1, w1, t1)
      else
        match (a0 <- exprarg args 0 ;; unbox_long a0) w1 with
        | (Ok label, w2, t2) =>
            match n with
            | O => None
            | S n' =>
                let j := to_size (label - 1) in
                after (t1 ++ t2)
                  (catch_throw resume ns args depth n' (ns <=? j) (resume s1 j w2))
            end
        | (Throw e2, w2, t2) => Some (Throw e2, s1, w2, t1 ++ t2)
        | (Crash c, w2, t2) => Some (Crash c, s1, w2, t1 ++ t2)
        end
  | Some r' => Some r'
  end.

(** The [while (1)] loop, with [i] the instruction pointer (a [size_t]).
    Each turn of the loop and each nested call for [enter] uses one unit of
    fuel. *)
Fixpoint eval_body_loop (fuel : nat) (stmts : list jl_value)
    (s : option interpreter_state) (i : Z) (toplevel : bool) (w : world)
    {struct fuel} : body_result :=
  match fuel with
  | O => None
  | S fuel' =>
      if Z.of_nat (length stmts) <=? i
      then Some (Throw (ErrorException body_error), s,
                 set_exception (ErrorException body_error) w, [])
      else
        match stmts !! Z.to_nat i with
        | None => Some (Crash OutOfBounds, s, w, [])
        | Some stmt =>
            match enter_args stmt with
            | Some args =>
                let d := eh_depth w in
                catch_throw
                  (fun s1 j w1 => eval_body_loop fuel' stmts s1 j toplevel w1)
                  (Z.of_nat (length stmts)) args (S d) fuel' true
                  (eval_body_loop fuel' stmts s (to_size (to_int (i + 1))) toplevel
                     (set_eh_depth (S d) w))
            | None =>
                match exec_stmt stmt s toplevel w with
                | (Ok (Next, s1), w1, t1) =>
                    after t1 (eval_body_loop fuel' stmts s1 (to_size (i + 1)) toplevel w1)
                | (Ok (Jump j, s1), w1, t1) =>
                    after t1 (eval_body_loop fuel' stmts s1 j toplevel w1)
                | (Ok (Return v, s1), w1, t1) => Some (Ok v, s1, w1, t1)
                | (Throw e, w1, t1) => Some (Throw e, s, w1, t1)
                | (Crash c, w1, t1) => Some (Crash c, s, w1, t1)
                end
            end
        end
  end.

(** [eval_body(stmts, s, start, toplevel)]: [size_t i = start]. *)
Definition eval_body (fuel : nat) (stmts : list jl_value)
    (s : option interpreter_state) (start : Z) (toplevel : bool) (w : world)
    : body_result :=
  eval_body_loop fuel stmts s (to_size start) toplevel w.

(** [jl_toplevel_eval_body], lines 437-440 *)
Definition jl_toplevel_eval_body (fuel : nat) (stmts : list jl_value) (w : world)
    : body_result :=
  eval_body fuel stmts None 0 true w.

(** ** [jl_interpret_call], lines 555-578 *)

(** Modelled from the spec: [jl_f_tuple] is a builtin defined outside
    interpreter.c; it makes a tuple of the [count] values from [args[i]] on. *)
Definition jl_f_tuple (args : list jl_value) (i count : Z) : M jl_value :=
  if Z.of_nat (length args) <? i + count then crash OutOfBounds
  else ret (Tuple (take (Z.to_nat count) (drop (Z.to_nat i) args))).

(** [lam->nargs], an [int32_t]. *)
Definition lam_nargs (li : jl_lambda_info_t) : Z := to_int (nargs li).

(** The loop of lines 564-569, [n] turns from [i] on. *)
Fixpoint copy_args (n : nat) (i : Z) (li : jl_lambda_info_t) (args : list jl_value)
    (nargs : Z) (locals : list jl_value) : M (list jl_value) :=
  match n with
  | O => ret locals
  | S n' =>
      v <- (if isva li && (i =? to_size (to_int (lam_nargs li - 1)))
            then jl_f_tuple args i (to_size (nargs - i) mod 2 ^ 32)
            else index args i) ;;
      if Z.of_nat (length locals) <=? i then crash OutOfBounds
      else copy_args n' (i + 1) li args nargs (<[Z.to_nat i := v]> locals)
  end.

(** Modelled from the spec: JL_GC_PUSHARGS is a macro defined outside
    interpreter.c; the vector it allocates starts with every entry absent. *)
Definition JL_GC_PUSHARGS (n : Z) : M (list jl_value) :=
  if n <? 0 then crash OutOfBounds else ret (replicate (Z.to_nat n) NULL).

Definition jl_interpret_call (fuel : nat) (li : jl_lambda_info_t)
    (args : list jl_value) (nargs : Z) (sparam_vals : option (list jl_value))
    (w : world) : option (outcome jl_value * world * list event) :=
  let prepare : M (list jl_value * list jl_value) :=
    match code li with
    | ArrayAny stmts =>
        nsl <- jl_linfo_nslots (Some li) ;;
        nssa <- jl_linfo_nssavalues (Some li) ;;
        locals <- JL_GC_PUSHARGS (to_int (nsl + nssa)) ;;
        locals' <- copy_args (Z.to_nat (to_size (lam_nargs li))) 0 li args
                     (nargs mod 2 ^ 32) locals ;;
        ret (stmts, locals')
    | NULL => crash NullDeref
    | _ => crash AssertionFailed
    end in
  match prepare w with
  | (Ok (stmts, locals'), w1, t1) =>
      let s := {| lam := Some li; locals := Some locals';
                  s_sparam_vals := sparam_vals |} in
      match eval_body fuel stmts (Some s) 0 (lam_nargs li =? 0) w1 with
      | None => None
      | Some (r, _, w2, t2) => Some (r, w2, t1 ++ t2)
      end
  | (Throw e, w1, t1) => Some (Throw e, w1, t1)
  | (Crash c, w1, t1) => Some (Crash c, w1, t1)
  end.

(** [jl_interpret_toplevel_thunk], lines 575-578 *)
Definition jl_interpret_toplevel_thunk (fuel : nat) (li : jl_lambda_info_t) (w : world)
    : option (outcome jl_value * world * list event) :=
  jl_interpret_call fuel li [] 0 None w.

End Interpreter.

Arguments world host : clear implicits.
Arguments collaborators host : clear implicits.
Arguments M host A : clear implicits.
Arguments body_result host : clear implicits.

(** ** A small host

    A host with no state of its own, on which the definitions above can be
    run: every datatype is abstract, has no parameter and no field and is
    called Foo; the globals [nothing], [+], [<] and [throw] are bound and
    no other; dispatch adds and compares boxed integers, throws its
    argument for [throw], and returns the tuple of its arguments
    otherwise. *)
Module SmallHost.

Definition a_binding : jl_binding_t :=
  {| b_name := "Foo"; b_value := NULL; b_constp := false |}.

Definition a_datatype (a : nat) : jl_datatype_t :=
  {| dt_name := a; dt_super := DataType 1; dt_parameters := SimpleVector [];
     dt_types := SimpleVector []; dt_instance := NULL; dt_size := 0;
     dt_abstract := true; dt_mutabl := false; dt_ninitialized := 0 |}.

Definition a_typename : jl_typename_t :=
  {| tn_name := "Foo"; tn_names := SimpleVector [] |}.

Definition w0 : world unit :=
  {| jl_current_module := O; task_current_module := O;
     inside_typedef := false; jl_lineno := 0;
     jl_exception_in_transit := NULL; eh_depth := O;
     bindings := fun _ => a_binding;
     datatypes := a_datatype;
     typenames := fun _ => a_typename;
     host_state := tt |}.

(** Equality of the values the examples compare. *)
Definition egal (a b : jl_value) : bool :=
  match a, b with
  | SimpleVector [], SimpleVector [] => true
  | DataType x, DataType y => Nat.eqb x y
  | _, _ => false
  end.

Definition C0 : collaborators unit :=
  {| jl_apply_generic := fun argv w =>
       (match argv with
        | [Opaque 100; Long a; Long b] => Ok (Long (a + b))
        | [Opaque 101; Long a; Long b] => Ok (Bool (a <? b))
        | [Opaque 102; v] => Throw v
        | _ => Ok (Tuple argv)
        end, w);
     jl_call_method_internal := fun _ argv w => (Ok (Tuple argv), w);
     jl_new_struct_uninit := fun _ w => (Ok (Opaque 0), w);
     jl_set_nth_field := fun _ _ _ w => (Ok tt, w);
     jl_copy_ast := fun v w => (Ok v, w);
     jl_get_global := fun _ name w =>
       (Ok (match name with
            | Symbol n =>
                if String.eqb n "nothing" then Nothing
                else if String.eqb n "+" then Opaque 100
                else if String.eqb n "<" then Opaque 101
                else if String.eqb n "throw" then Opaque 102
                else NULL
            | _ => NULL
            end), w);
     jl_get_binding_for_method_def := fun _ _ w => (Ok 2%nat, w);
     jl_generic_function_def := fun _ _ _ w => (Ok (Opaque 1), w);
     jl_method_def := fun _ _ _ w => (Ok tt, w);
     jl_get_binding_wr := fun _ _ w => (Ok 3%nat, w);
     jl_declare_constant := fun _ w => (Ok tt, w);
     jl_new_abstracttype := fun _ _ w => (Ok 5%nat, w);
     jl_new_bitstype := fun _ _ _ w => (Ok 5%nat, w);
     jl_new_datatype := fun _ _ _ _ _ w => (Ok 5%nat, w);
     jl_reinstantiate_inner_types := fun _ w => (Ok tt, w);
     jl_reset_instantiate_inner_types := fun _ w => set_inside_typedef false w;
     jl_checked_assignment := fun b v w => (Ok tt, store_binding_value b v w);
     jl_compute_field_offsets := fun _ w => (Ok tt, w);
     newstruct := fun _ w => (Ok (Opaque 2), w);
     jl_eval_module_expr := fun _ w => (Ok Nothing, w);
     jl_toplevel_eval := fun _ w => (Ok Nothing, w);
     jl_is_toplevel_only_expr := fun _ => false;
     jl_is_structtype := fun _ _ => true;
     jl_is_datatype_make_singleton := fun _ _ => false;
     lambda_inInference := fun _ _ => false;
     jl_egal := fun _ => egal;
     jl_subtype := fun _ _ _ => false;
     jl_any_type := 1%nat;
     jl_bool_type := 10%nat;
     jl_type_type := 11%nat;
     jl_vararg_type := 12%nat;
     jl_builtin_type := 13%nat;
     jl_tuple_typename := 14%nat |}.

(** The world [w0] where the binding the host hands out holds [v]. *)
Definition w_bound (v : jl_value) : world unit := store_binding_value 3 v w0.

(** *** Sample programs *)

(** A frame for a body with [n] slots named x1..., and [k] SSA values. *)
Definition a_lambda (stmts : list jl_value) (names : list jl_value) (k : Z)
    (formals : Z) (va : bool) : jl_lambda_info_t :=
  {| code := ArrayAny stmts; slotflags := List.map (fun _ => Long 0) names;
     slotnames := names; ssavaluetypes := Long k; nargs := formals; isva := va;
     sparam_vals := []; def := None |}.

Definition a_frame (stmts : list jl_value) (names : list jl_value) (k : Z)
    : option interpreter_state :=
  Some {| lam := Some (a_lambda stmts names k 0 false);
          locals := Some (replicate (length names + Z.to_nat k) NULL);
          s_sparam_vals := None |}.

(** [(= %0 7); (return %0)] *)
Definition straight_line : list jl_value :=
  [Expr "=" [SSAValue 0; Long 7]; Expr "return" [SSAValue 0]].

(** [(= slot1 0); (= slot1 (call + slot1 1));
     (goto_ifnot (call < slot1 3) 5); (goto 2); (return slot1)] *)
Definition goto_loop : list jl_value :=
  [Expr "=" [Slot 1; Long 0];
   Expr "=" [Slot 1; Expr "call" [Symbol "+"; Slot 1; Long 1]];
   Expr "goto_ifnot" [Expr "call" [Symbol "<"; Slot 1; Long 3]; Long 5];
   GotoNode 2;
   Expr "return" [Slot 1]].

(** [(enter 4); (call throw 42); (leave 1); (leave 1); (return (the_exception))] *)
Definition try_catch : list jl_value :=
  [Expr "enter" [Long 4];
   Expr "call" [Symbol "throw"; Long 42];
   Expr "leave" [Long 1];
   Expr "leave" [Long 1];
   Expr "return" [Expr "the_exception" []]].

(** A variadic lambda of one formal: [(line 7); (return slot1)]. *)
Definition variadic : jl_lambda_info_t :=
  a_lambda [Expr "line" [Long 7]; Expr "return" [Slot 1]] [Symbol "xs"] 0 1 true.

(** A variadic lambda of two formals (the function itself and the rest)
    and one more local: [(return slot3)]. *)
Definition variadic_local : jl_lambda_info_t :=
  a_lambda [Expr "return" [Slot 3]] [Symbol "#self#"; Symbol "xs"; Symbol "y"]
    0 2 true.

(** [abstract_type Foo () super] with the supertype at address 1. *)
Definition abstract_foo : list jl_value :=
  [Symbol "Foo"; QuoteNode (SimpleVector []); QuoteNode (DataType 1)].

(** [bits_type Foo () nb super] *)
Definition bits_foo (nb : Z) : list jl_value :=
  [Symbol "Foo"; QuoteNode (SimpleVector []); Long nb; QuoteNode (DataType 1)].

(** [composite_type Foo () () super types mutable ninitialized] *)
Definition composite_foo (types : jl_value) : list jl_value :=
  [Symbol "Foo"; QuoteNode (SimpleVector []); QuoteNode (SimpleVector []);
   QuoteNode (DataType 1); types; Bool false; Long 0].


(** A frame with one slot [x]; a frame with one SSA value. *)
Definition one_slot : interpreter_state :=
  {| lam := Some (a_lambda [] [Symbol "x"] 0 0 false);
     locals := Some [NULL]; s_sparam_vals := None |}.

Definition one_ssa : interpreter_state :=
  {| lam := Some (a_lambda [] [] 1 0 false);
     locals := Some [NULL]; s_sparam_vals := None |}.

End SmallHost.

(** * The vocabulary of the properties *)

Section Statements.

Context {host : Type} (C : collaborators host).

(** A computation that can only succeed with the value [x]. *)
Definition yields {A} (x : A) (m : M host A) : Prop :=
  forall w v w' tr, m w = (Ok v, w', tr) -> v = x.

(** The heads of the forms that define or declare. *)
Definition definition_head (head : sym) (args : list jl_value) : Prop :=
  head = const_sym \/ head = global_sym \/ head = abstracttype_sym \/
  head = bitstype_sym \/ head = compositetype_sym \/
  (head = method_sym /\ length args = 4%nat).

(** Evaluation of a list of arguments from left to right, as the spec
    words it: an argument is evaluated to the end before the next one is
    started, each in the world the previous one left, and an argument that
    throws ends the evaluation.  The list of events is the arguments'
    events, in that order. *)
Inductive left_to_right (s : option interpreter_state)
  : list jl_value -> world host -> outcome (list jl_value) -> world host ->
    list event -> Prop :=
| ltr_done w : left_to_right s [] w (Ok []) w []
| ltr_value a args w v w1 t1 vs w2 t2 :
    eval C a s w = (Ok v, w1, t1) ->
    left_to_right s args w1 (Ok vs) w2 t2 ->
    left_to_right s (a :: args) w (Ok (v :: vs)) w2 (t1 ++ t2)
| ltr_later a args w v w1 t1 e w2 t2 :
    eval C a s w = (Ok v, w1, t1) ->
    left_to_right s args w1 (Throw e) w2 t2 ->
    left_to_right s (a :: args) w (Throw e) w2 (t1 ++ t2)
| ltr_throw a args w e w1 t1 :
    eval C a s w = (Throw e, w1, t1) ->
    left_to_right s (a :: args) w (Throw e) w1 t1.

(** The world a failed type definition leaves: the partial instantiations
    of [dt] reset, the binding [b] holding [temp], [e] in transit. *)
Definition rolled_back (dt b : nat) (temp e : jl_value) (w1 : world host) : world host :=
  set_exception e
    (store_binding_value b temp (jl_reset_instantiate_inner_types C dt w1)).

(** The value saved in [temp] is the value the binding had when the
    definition reached it, and the protected part starts with the binding
    pointing at the new type. *)
Definition saved (dt b : nat) (temp : jl_value) (w0 : world host) : Prop :=
  exists wb, w0 = store_binding_value b (DataType dt) wb /\
             temp = b_value (bindings wb b).

(** The equivalence of two datatypes as the spec words it (4.1.3): the old
    value is a datatype too; the new type has the empty parameter sequence;
    the names are equal; the field types are structurally equal; the
    abstract and mutable flags, the size and ninitialized are equal; the
    supertypes, the field names and the parameters are structurally equal. *)
Definition equivalent_types (w : world host) (dta : nat) (dtb : jl_value) : Prop :=
  exists b,
    dtb = DataType b /\
    dt_parameters (datatypes w dta) = jl_emptysvec /\
    datatype_name w dta = datatype_name w b /\
    jl_egal C w (dt_types (datatypes w dta)) (dt_types (datatypes w b)) = true /\
    dt_abstract (datatypes w dta) = dt_abstract (datatypes w b) /\
    dt_mutabl (datatypes w dta) = dt_mutabl (datatypes w b) /\
    dt_size (datatypes w dta) = dt_size (datatypes w b) /\
    dt_ninitialized (datatypes w dta) = dt_ninitialized (datatypes w b) /\
    jl_egal C w (dt_super (datatypes w dta)) (dt_super (datatypes w b)) = true /\
    jl_egal C w (tn_names (typenames w (dt_name (datatypes w dta))))
                (tn_names (typenames w (dt_name (datatypes w b)))) = true /\
    jl_egal C w (dt_parameters (datatypes w dta)) (dt_parameters (datatypes w b)) = true.

(** The outcome of a definition whose last step has outcome [r]. *)
Definition then_nothing (r : outcome unit) : outcome jl_value :=
  match r with
  | Ok _ => Ok jl_nothing
  | Throw e => Throw e
  | Crash c => Crash c
  end.




(** [nslots] and [nssavalues] of a lambda info, as [jl_linfo_nslots] and
    [jl_linfo_nssavalues] compute them. *)
Definition nslots (li : jl_lambda_info_t) : Z :=
  to_int (Z.of_nat (length (slotflags li))).

Definition nssavalues (li : jl_lambda_info_t) : option Z :=
  match ssavaluetypes li with
  | Long z => Some (to_int (to_ssize z))
  | ArrayAny a => Some (to_int (Z.of_nat (length a)))
  | _ => None
  end.

(** What the formal slot [k] of a lambda receives from the actuals. *)
Definition formal_value (li : jl_lambda_info_t) (args : list jl_value) (k : Z)
    : jl_value :=
  if isva li && (k =? nargs li - 1)
  then Tuple (drop (Z.to_nat k) args)
  else default NULL (args !! Z.to_nat k).

(** [jl_interpret_call] as the spec words it: the locals vector has length
    nslots + nssavalues; [args[i]] is copied into [locals[i]] for [i] in
    0..nargs-1, [nargs] being the number of actuals of the call; if the
    lambda is variadic the final formal slot receives a tuple of the
    trailing actuals; the body runs with [toplevel = (nargs == 0)]. *)
Definition interpret_call_as_claimed (fuel : nat) (li : jl_lambda_info_t)
    (args : list jl_value) (na : Z) (sparams : option (list jl_value))
    (w : world host) : option (outcome jl_value * world host * list event) :=
  match code li, nssavalues li with
  | ArrayAny stmts, Some nssa =>
      let locals0 := replicate (Z.to_nat (nslots li + nssa)) NULL in
      let locals1 :=
        foldr (fun k l => <[k := default NULL (args !! k)]> l) locals0
              (seq 0 (Z.to_nat na)) in
      let locals2 :=
        if isva li
        then <[Z.to_nat (nargs li - 1) :=
                 Tuple (drop (Z.to_nat (nargs li - 1)) args)]> locals1
        else locals1 in
      match eval_body C fuel stmts
              (Some {| lam := Some li; locals := Some locals2;
                       s_sparam_vals := sparams |})
              0 (na =? 0) w with
      | None => None
      | Some (r, _, w2, t2) => Some (r, w2, t2)
      end
  | _, _ => None
  end.


(** ** More vocabulary *)

(** The heads [eval] recognises (lines 187-432); every other head, and so
    every head that only [eval_body] knows, reaches line 433. *)
Definition eval_heads : list sym :=
  [call_sym; invoke_sym; new_sym; static_parameter_sym; inert_sym; copyast_sym;
   static_typeof_sym; exc_sym; method_sym; const_sym; global_sym;
   abstracttype_sym; bitstype_sym; compositetype_sym; module_sym; thunk_sym;
   error_sym; jl_incomplete_sym; boundscheck_sym; inbounds_sym; fastmath_sym;
   simdloop_sym; meta_sym; type_goto_sym].

(** The error of a type definition met while another is in progress
    (lines 274, 309, 351). *)
Definition typedef_in_progress (head : sym) : string :=
  if String.eqb head abstracttype_sym
  then "cannot eval a new abstract type definition while defining another type"
  else if String.eqb head bitstype_sym
  then "cannot eval a new bits type definition while defining another type"
  else "cannot eval a new data type definition while defining another type".

Definition typedef_head (head : sym) : Prop :=
  head = abstracttype_sym \/ head = bitstype_sym \/ head = compositetype_sym.


(** The declarations of a global expression as a run of calls: each
    argument in turn has its type tag tested and, being a symbol, gets one
    call of [jl_get_binding_wr] in the world the call before it left; the
    run ends at the first argument that is not a symbol and at the first
    call that does not return, and nothing is called after that. *)
Inductive declared (modu : jl_module)
  : list jl_value -> world host -> outcome unit -> world host -> list event -> Prop :=
| dc_done w : declared modu [] w (Ok tt) w []
| dc_null rest w : declared modu (NULL :: rest) w (Crash NullDeref) w []
| dc_not_symbol a rest w :
    a <> NULL -> jl_is_symbol a = false ->
    declared modu (a :: rest) w (Crash AssertionFailed) w []
| dc_call name rest w b w1 r w2 t :
    jl_get_binding_wr C modu (Symbol name) w = (Ok b, w1) ->
    declared modu rest w1 r w2 t ->
    declared modu (Symbol name :: rest) w r w2
      (EvGetBindingWr modu (Symbol name) :: t)
| dc_throw name rest w e w1 :
    jl_get_binding_wr C modu (Symbol name) w = (Throw e, w1) ->
    declared modu (Symbol name :: rest) w (Throw e) (set_exception e w1)
      [EvGetBindingWr modu (Symbol name)]
| dc_crash name rest w c w1 :
    jl_get_binding_wr C modu (Symbol name) w = (Crash c, w1) ->
    declared modu (Symbol name :: rest) w (Crash c) w1
      [EvGetBindingWr modu (Symbol name)].

(** A computation that records what it throws: whenever it throws, the
    thrown value is the exception in transit of the world it leaves. *)
Definition records_throw {A} (m : M host A) : Prop :=
  forall w e w' t, m w = (Throw e, w', t) -> jl_exception_in_transit w' = e.

(** What a frame keeps for the whole run of a body: the lambda info, the
    static parameters, and the length of the vector of locals. *)
Definition frame_shape (s : option interpreter_state)
    : option (option jl_lambda_info_t * option (list jl_value) * option nat) :=
  match s with
  | None => None
  | Some st => Some (lam st, s_sparam_vals st,
                     match locals st with None => None | Some l => Some (length l) end)
  end.

(** A computation whose results all satisfy [Q]. *)
Definition ensures {A} (Q : A -> Prop) (m : M host A) : Prop :=
  forall w a w' t, m w = (Ok a, w', t) -> Q a.

End Statements.

(** * Properties *)

Section Properties.

Context {host : Type} (C : collaborators host).

(** ** How computations compose *)

Lemma bind_ok {A B} (m : M host A) (f : A -> M host B) w a w1 t1 :
  m w = (Ok a, w1, t1) ->
  bind m f w = (let '(r, w2, t2) := f a w1 in (r, w2, t1 ++ t2)).
Proof. intros H. unfold bind. rewrite H. reflexivity. Qed.

Lemma bind_throw {A B} (m : M host A) (f : A -> M host B) w e w1 t1 :
  m w = (Throw e, w1, t1) -> bind m f w = (Throw e, w1, t1).
Proof. intros H. unfold bind. rewrite H. reflexivity. Qed.

Lemma bind_crash {A B} (m : M host A) (f : A -> M host B) w c w1 t1 :
  m w = (Crash c, w1, t1) -> bind m f w = (Crash c, w1, t1).
Proof. intros H. unfold bind. rewrite H. reflexivity. Qed.

Lemma bind_inv_ok {A B} (m : M host A) (f : A -> M host B) w b w' tr :
  bind m f w = (Ok b, w', tr) ->
  exists a w1 t1 t2,
    m w = (Ok a, w1, t1) /\ f a w1 = (Ok b, w', t2) /\ tr = t1 ++ t2.
Proof.
  unfold bind. destruct (m w) as [[[a | e | c] w1] t1]; try discriminate.
  destruct (f a w1) as [[r w2] t2] eqn:Hf. intros H. inversion H; subst.
  exists a, w1, t1, t2. auto.
Qed.

Lemma bind_get_world {B} (f : world host -> M host B) w :
  bind get_world f w = f w w.
Proof.
  unfold bind, get_world. destruct (f w w) as [[r w2] t2]. reflexivity.
Qed.

Lemma bind_modify {B} (g : world host -> world host) (f : unit -> M host B) w :
  bind (modify g) f w = f tt (g w).
Proof.
  unfold bind, modify. destruct (f tt (g w)) as [[r w2] t2]. reflexivity.
Qed.

Lemma bind_ret {A B} (a : A) (f : A -> M host B) w :
  bind (ret a) f w = f a w.
Proof.
  unfold bind, ret. destruct (f a w) as [[r w2] t2]. reflexivity.
Qed.

Lemma bind_assoc {A B D} (m : M host A) (f : A -> M host B) (g : B -> M host D) w :
  bind (bind m f) g w = bind m (fun a => bind (f a) g) w.
Proof.
  unfold bind. destruct (m w) as [[[a | e | c] w1] t1]; try reflexivity.
  destruct (f a w1) as [[[b | e | c] w2] t2]; try reflexivity.
  destruct (g b w2) as [[r w3] t3]. rewrite app_assoc. reflexivity.
Qed.

(** ** The dispatch on the head *)

Lemma eval_Expr head args s w :
  eval C (Expr head args) s w =
  eval_expr C args (List.map (fun a => eval C a s) args)
    (current_module_of (match s with None => None | Some st => lam st end) w)
    head s w.
Proof. cbn [eval]. rewrite bind_get_world. reflexivity. Qed.

(** ** A computation that can only succeed with one value *)

Local Abbreviation yields := (@yields host _).

Lemma yields_ret {A} (x : A) : yields x (ret x).
Proof. intros w v w' tr H. inversion H. reflexivity. Qed.

Lemma yields_throw {A} (x : A) e : yields x (jl_throw e).
Proof. intros w v w' tr H. discriminate H. Qed.

Lemma yields_crash {A} (x : A) c : yields x (crash c).
Proof. intros w v w' tr H. discriminate H. Qed.

Lemma yields_bind {A B} (x : B) (m : M host A) (f : A -> M host B) :
  (forall a, yields x (f a)) -> yields x (bind m f).
Proof.
  intros Hf w v w' tr H. apply bind_inv_ok in H.
  destruct H as (a & w1 & t1 & t2 & _ & H & _). exact (Hf a _ _ _ _ H).
Qed.

Lemma yields_bind_from {A B} (x : B) (a0 : A) (m : M host A) (f : A -> M host B) :
  yields a0 m -> yields x (f a0) -> yields x (bind m f).
Proof.
  intros Hm Hf w v w' tr H. apply bind_inv_ok in H.
  destruct H as (a & w1 & t1 & t2 & Ha & H & _).
  apply Hm in Ha. subst a. exact (Hf _ _ _ _ H).
Qed.

Lemma yields_eval_const args modu : yields jl_nothing (eval_const C args modu).
Proof.
  unfold eval_const. repeat (apply yields_bind; intros). apply yields_ret.
Qed.

Lemma yields_eval_global args modu : yields jl_nothing (eval_global C args modu).
Proof.
  unfold eval_global. apply yields_bind; intros. apply yields_ret.
Qed.

Lemma yields_eval_abstracttype args evs modu :
  yields jl_nothing (eval_abstracttype C args evs modu).
Proof.
  unfold eval_abstracttype. apply yields_bind. intros [[dt b] temp].
  repeat (apply yields_bind; intros). apply yields_ret.
Qed.

Lemma yields_eval_bitstype args evs modu :
  yields jl_nothing (eval_bitstype C args evs modu).
Proof.
  unfold eval_bitstype. apply yields_bind. intros [[dt b] temp].
  repeat (apply yields_bind; intros). apply yields_ret.
Qed.

Lemma yields_eval_compositetype args evs modu :
  yields jl_nothing (eval_compositetype C args evs modu).
Proof.
  unfold eval_compositetype. apply yields_bind. intros [[[dt b] temp] para].
  repeat (apply yields_bind; intros). apply yields_ret.
Qed.

Lemma yields_eval_method args evs modu :
  expr_nargs args <> 1 -> yields jl_nothing (eval_method C args evs modu).
Proof.
  intros Hn. unfold eval_method.
  apply yields_bind; intros fname. apply yields_bind; intros _.
  apply (yields_bind_from _ None).
  - destruct (is_null fname); [apply yields_crash |].
    destruct (jl_is_symbol fname); [| apply yields_ret].
    apply yields_bind; intros b. apply yields_bind; intros gf.
    destruct (expr_nargs args =? 1) eqn:E; [| apply yields_ret].
    apply Z.eqb_eq in E. contradiction.
  - repeat (apply yields_bind; intros). apply yields_ret.
Qed.

(** C10: a const, global, abstract_type, bits_type or composite_type
    expression, and a method expression with four arguments, when its
    evaluation succeeds, evaluates to the unit value [jl_nothing]. *)
Theorem definition_forms_return_nothing head args s w v w' tr :
  definition_head head args ->
  eval C (Expr head args) s w = (Ok v, w', tr) ->
  v = jl_nothing.
Proof.
  intros Hh He. rewrite eval_Expr in He. revert He.
  destruct Hh as [-> | [-> | [-> | [-> | [-> | [-> Hn]]]]]].
  - apply yields_eval_const.
  - apply yields_eval_global.
  - apply yields_eval_abstracttype.
  - apply yields_eval_bitstype.
  - apply yields_eval_compositetype.
  - apply yields_eval_method. unfold expr_nargs. rewrite Hn. discriminate.
Qed.

(** ** Entry adapter: the current modules *)

(** C5: after [jl_interpret_toplevel_expr_in(m, e, lam)], whether the
    evaluation returned or threw, the process-current module and the
    task-current module are what they were before the call; what the
    evaluation threw is what the call throws. *)
Theorem toplevel_expr_in_restores_modules m e lam w r w' tr :
  jl_interpret_toplevel_expr_in C m e lam w = (r, w', tr) ->
  (forall c, r <> Crash c) ->
  jl_current_module w' = jl_current_module w /\
  task_current_module w' = task_current_module w /\
  (forall x w1 t1,
     eval C e (Some {| lam := lam; locals := None; s_sparam_vals := None |})
       (set_modules m m w) = (Throw x, w1, t1) ->
     r = Throw x).
Proof.
  unfold jl_interpret_toplevel_expr_in. rewrite bind_get_world.
  unfold bind at 1. unfold JL_TRY. rewrite bind_modify.
  destruct (eval C e _ (set_modules m m w)) as [[[v | x | c] w1] t1] eqn:He.
  - rewrite bind_modify.
    destruct (is_null v) eqn:Hv; cbn [negb assert].
    + rewrite (bind_crash _ _ _ AssertionFailed _ []) by reflexivity.
      intros H. inversion H; subst. intros Hc. exfalso. exact (Hc _ eq_refl).
    + rewrite bind_ret. unfold ret. intros H. inversion H; subst. intros _.
      cbn. repeat split. intros x w2 t2 Hx. discriminate Hx.
  - rewrite bind_modify. unfold jl_rethrow, jl_throw.
    intros H. inversion H; subst. intros _. cbn. repeat split.
    intros x0 w2 t2 Hx. inversion Hx. reflexivity.
  - intros H. inversion H; subst. intros Hc. exfalso. exact (Hc _ eq_refl).
Qed.

(** ** The arguments of a call *)

Lemma sequenceM_left_to_right s args w r w1 t1 :
  left_to_right C s args w r w1 t1 ->
  sequenceM (List.map (fun a => eval C a s) args) w = (r, w1, t1).
Proof.
  induction 1 as [w | a args w v w1 t1 vs w2 t2 Ha _ IH
                    | a args w v w1 t1 e w2 t2 Ha _ IH
                    | a args w e w1 t1 Ha]; cbn [List.map sequenceM].
  - reflexivity.
  - rewrite (bind_ok _ _ _ _ _ _ Ha).
    rewrite (bind_ok _ _ _ _ _ _ IH). cbv beta iota delta [ret].
    rewrite app_nil_r. reflexivity.
  - rewrite (bind_ok _ _ _ _ _ _ Ha).
    rewrite (bind_throw _ _ _ _ _ _ IH). reflexivity.
  - apply bind_throw. exact Ha.
Qed.

(** Every run of the arguments that stays within defined behaviour is a
    left-to-right run. *)
Lemma left_to_right_or_crash s args w :
  (exists r w1 t1,
     left_to_right C s args w r w1 t1 /\ (forall c, r <> Crash c)) \/
  (exists c w1 t1,
     sequenceM (List.map (fun a => eval C a s) args) w = (Crash c, w1, t1)).
Proof.
  revert w. induction args as [| a args IH]; intros w.
  - left. exists (Ok []), w, []. split; [constructor | discriminate].
  - cbn [List.map sequenceM].
    destruct (eval C a s w) as [[[v | e | c] w1] t1] eqn:Ha.
    + destruct (IH w1) as [(r & w2 & t2 & Hr & Hnc) | (c & w2 & t2 & Hc)].
      * left. destruct r as [vs | e | c].
        -- exists (Ok (v :: vs)), w2, (t1 ++ t2).
           split; [eapply ltr_value; eassumption | discriminate].
        -- exists (Throw e), w2, (t1 ++ t2).
           split; [eapply ltr_later; eassumption | discriminate].
        -- exfalso. exact (Hnc c eq_refl).
      * right. exists c, w2, (t1 ++ t2).
        rewrite (bind_ok _ _ _ _ _ _ Ha). rewrite (bind_crash _ _ _ _ _ _ Hc).
        reflexivity.
    + left. exists (Throw e), w1, t1.
      split; [apply ltr_throw; exact Ha | discriminate].
    + right. exists c, w1, t1. apply bind_crash. exact Ha.
Qed.

Lemma call_result {A} ev (f : world host -> outcome A * world host) w :
  exists w', call ev f w = (fst (f w), w', [ev]).
Proof.
  unfold call. destruct (f w) as [[a | e | c] w1]; eexists; reflexivity.
Qed.

(** C9: the arguments of a call expression are evaluated from left to
    right into the argument vector, and generic dispatch is invoked on the
    vector after the last of them; the events of the call are the events
    of the arguments, in order, then the dispatch.  When an argument
    throws, the arguments after it are not evaluated and nothing is
    dispatched. *)
Theorem call_arguments_left_to_right args s w :
  (forall vs w1 t1,
     left_to_right C s args w (Ok vs) w1 t1 ->
     exists w2,
       eval C (Expr call_sym args) s w =
       (fst (jl_apply_generic C vs w1), w2, t1 ++ [EvApplyGeneric vs])) /\
  (forall e w1 t1,
     left_to_right C s args w (Throw e) w1 t1 ->
     eval C (Expr call_sym args) s w = (Throw e, w1, t1)).
Proof.
  split.
  - intros vs w1 t1 H. apply sequenceM_left_to_right in H.
    rewrite eval_Expr. change (eval_expr C args _ _ call_sym s)
      with (do_call C (List.map (fun a => eval C a s) args)).
    unfold do_call. rewrite (bind_ok _ _ _ _ _ _ H).
    destruct (call_result (EvApplyGeneric vs) (jl_apply_generic C vs) w1) as [w2 Hc].
    rewrite Hc. exists w2. reflexivity.
  - intros e w1 t1 H. apply sequenceM_left_to_right in H.
    rewrite eval_Expr. change (eval_expr C args _ _ call_sym s)
      with (do_call C (List.map (fun a => eval C a s) args)).
    unfold do_call. apply bind_throw. exact H.
Qed.

(** ** The number of bits of a bits type *)

Lemma land_7 nb : Z.land nb 7 = nb mod 8.
Proof. change 7 with (Z.ones 3). rewrite Z.land_ones by lia. reflexivity. Qed.

Lemma bitstype_nbits_symbol args (evs : list (M host jl_value)) w name para nb w1 t1 :
  bitstype_nbits args evs w = (Ok (name, para, nb), w1, t1) ->
  exists n, name = Symbol n.
Proof.
  unfold bitstype_nbits. rewrite bind_get_world.
  destruct (inside_typedef w); [discriminate |].
  intros H. apply bind_inv_ok in H. destruct H as (nm & wa & ta & tb & Harg & H & _).
  apply bind_inv_ok in H. destruct H as ([] & wb & tc & td & Hsym & H & _).
  destruct nm; try discriminate Hsym.
  assert (name = Symbol name0) as ->; [| eauto].
  apply bind_inv_ok in H. destruct H as (p & wc & te & tf & _ & H & _).
  apply bind_inv_ok in H. destruct H as ([] & wd & tg & th & _ & H & _).
  apply bind_inv_ok in H. destruct H as (vnb & we & ti & tj & _ & H & _).
  destruct (is_null vnb); [discriminate H |].
  destruct (negb (jl_is_long vnb)).
  - apply bind_inv_ok in H. destruct H as (n & wf & tk & tl & _ & H & _).
    discriminate H.
  - apply bind_inv_ok in H. destruct H as (z & wf & tk & tl & _ & H & _).
    inversion H. reflexivity.
Qed.

Lemma bind_call_first {A B} ev (f : world host -> outcome A * world host)
    (k : A -> M host B) w :
  exists r w' t', bind (call ev f) k w = (r, w', ev :: t').
Proof.
  unfold bind, call. destruct (f w) as [[a | e | c] w1].
  - destruct (k a w1) as [[r w2] t2]. eauto.
  - eauto.
  - eauto.
Qed.

(** C8: once the bit-width argument of a bits_type expression has been
    evaluated to the integer [nb], the definition fails there with
    "invalid number of bits in type <name>" exactly when [nb] is not
    positive, or is 2^23 or more, or is not a multiple of 8; otherwise the
    next thing that happens is the call of the constructor with that
    width. *)
Theorem bitstype_number_of_bits args s w name para nb w1 t1 :
  bitstype_nbits args (List.map (fun a => eval C a s) args) w
    = (Ok (name, para, nb), w1, t1) ->
  exists n,
    name = Symbol n /\
    (nb < 1 \/ 2 ^ 23 <= nb \/ nb mod 8 <> 0 <->
     eval C (Expr bitstype_sym args) s w =
     (Throw (ErrorException (String.append "invalid number of bits in type " n)),
      set_exception
        (ErrorException (String.append "invalid number of bits in type " n)) w1,
      t1)) /\
    (~ (nb < 1 \/ 2 ^ 23 <= nb \/ nb mod 8 <> 0) ->
     exists r w' t',
       eval C (Expr bitstype_sym args) s w =
       (r, w', t1 ++ EvNewBitsType name para nb :: t')).
Proof.
  intros Hn. destruct (bitstype_nbits_symbol _ _ _ _ _ _ _ _ Hn) as [n ->].
  exists n. split; [reflexivity |].
  rewrite eval_Expr.
  change (eval_expr C args _ _ bitstype_sym s)
    with (eval_bitstype C args (List.map (fun a => eval C a s) args)
            (current_module_of (match s with None => None | Some st => lam st end) w)).
  unfold eval_bitstype, bitstype_prelude.
  rewrite bind_assoc. rewrite (bind_ok _ _ _ _ _ _ Hn). cbv beta iota.
  unfold bitstype_define. rewrite land_7.
  destruct ((nb <? 1) || (2 ^ 23 <=? nb) || negb (nb mod 8 =? 0)) eqn:Hbad.
  - assert (nb < 1 \/ 2 ^ 23 <= nb \/ nb mod 8 <> 0) as Hb.
    { apply orb_true_iff in Hbad. destruct Hbad as [Hbad | Hbad].
      - apply orb_true_iff in Hbad. destruct Hbad as [H | H]; [left | right; left]; lia.
      - right; right. apply negb_true_iff, Z.eqb_neq in Hbad. exact Hbad. }
    cbn [symbol_name]. rewrite bind_assoc, bind_ret.
    rewrite (bind_throw _ _ _ _ _ _ eq_refl). cbv beta iota. rewrite app_nil_r.
    split; [tauto | intros Hg; contradiction].
  - assert (~ (nb < 1 \/ 2 ^ 23 <= nb \/ nb mod 8 <> 0)) as Hg.
    { apply orb_false_iff in Hbad. destruct Hbad as [Hbad H3].
      apply orb_false_iff in Hbad. destruct Hbad as [H1 H2].
      apply negb_false_iff, Z.eqb_eq in H3. lia. }
    rewrite bind_assoc.
    match goal with
    | |- context [bind (call ?ev ?f) ?k ?w0] =>
        destruct (bind_call_first ev f k w0) as (r & w' & t' & Hc)
    end.
    rewrite Hc. cbv beta iota. split.
    + split; [intros Hb; contradiction |].
      intros Heq. exfalso. inversion Heq as [[Hr Hw Ht]].
      apply (f_equal (@length event)) in Ht. rewrite length_app in Ht.
      cbn in Ht. lia.
    + intros _. exists r, w', t'. reflexivity.
Qed.

(** ** Type definitions *)

Ltac inv_bind H :=
  let a := fresh "a" in
  let wa := fresh "wa" in
  let ta := fresh "ta" in
  let tb := fresh "tb" in
  let Ha := fresh "Ha" in
  let Ht := fresh "Ht" in
  apply bind_inv_ok in H; destruct H as (a & wa & ta & tb & Ha & H & Ht).


Lemma store_binding_value_same b v (w : world host) :
  b_value (bindings (store_binding_value b v w) b) = v.
Proof. cbn. rewrite Nat.eqb_refl. reflexivity. Qed.

Lemma rolled_back_binding dt b temp e w1 :
  b_value (bindings (rolled_back C dt b temp e w1) b) = temp.
Proof. unfold rolled_back. cbn. rewrite Nat.eqb_refl. reflexivity. Qed.

Lemma JL_TRY_rollback (body : M host unit) dt b temp w e w1 t1 :
  body w = (Throw e, w1, t1) ->
  JL_TRY body (typedef_rollback C dt b temp) w =
  (Throw e, rolled_back C dt b temp e w1, t1 ++ [EvResetInstantiateInnerTypes dt]).
Proof. intros H. unfold JL_TRY. rewrite H. reflexivity. Qed.

Lemma typedef_bind_inv dt b (wb : world host) temp w0 t :
  typedef_bind dt b wb = (Ok temp, w0, t) ->
  temp = b_value (bindings wb b) /\
  w0 = store_binding_value b (DataType dt) wb /\ t = [].
Proof.
  unfold typedef_bind. rewrite bind_get_world. unfold check_can_assign_type.
  rewrite bind_assoc, bind_get_world.
  destruct (b_constp (bindings wb b) && negb (is_null (b_value (bindings wb b))) &&
            negb (jl_is_datatype (b_value (bindings wb b)))).
  - discriminate.
  - rewrite bind_ret, bind_modify. unfold ret. intros H. inversion H. auto.
Qed.

Lemma bind_typedef_bind_saved {A} (k : jl_value -> A) dt b (wx : world host) r w0 t :
  bind (typedef_bind dt b) (fun temp => ret (k temp)) wx = (Ok r, w0, t) ->
  exists temp, r = k temp /\ saved dt b temp w0.
Proof.
  intros H. inv_bind H. apply typedef_bind_inv in Ha. destruct Ha as (-> & -> & ->).
  inversion H; subst. eexists. split; [reflexivity |]. exists wx. auto.
Qed.

Lemma abstracttype_prelude_saved args evs modu w dt b temp w0 t0 :
  abstracttype_prelude C args evs modu w = (Ok (dt, b, temp), w0, t0) ->
  saved dt b temp w0.
Proof.
  unfold abstracttype_prelude. rewrite bind_get_world.
  destruct (inside_typedef w); [discriminate |]. intros H.
  do 6 inv_bind H. apply bind_typedef_bind_saved in H.
  destruct H as (temp' & Heq & Hs). inversion Heq; subst. exact Hs.
Qed.

Lemma bitstype_prelude_saved args evs modu w dt b temp w0 t0 :
  bitstype_prelude C args evs modu w = (Ok (dt, b, temp), w0, t0) ->
  saved dt b temp w0.
Proof.
  unfold bitstype_prelude. intros H. inv_bind H. destruct a as [[name para] nb].
  unfold bitstype_define in H.
  destruct ((nb <? 1) || (2 ^ 23 <=? nb) || negb (Z.land nb 7 =? 0)).
  - inv_bind H. discriminate H.
  - do 2 inv_bind H. apply bind_typedef_bind_saved in H.
    destruct H as (temp' & Heq & Hs). inversion Heq; subst. exact Hs.
Qed.

Lemma compositetype_prelude_saved args evs modu w dt b temp para w0 t0 :
  compositetype_prelude C args evs modu w = (Ok (dt, b, temp, para), w0, t0) ->
  saved dt b temp w0.
Proof.
  unfold compositetype_prelude. rewrite bind_get_world.
  destruct (inside_typedef w); [discriminate |]. intros H.
  do 11 inv_bind H. apply bind_typedef_bind_saved in H.
  destruct H as (temp' & Heq & Hs). inversion Heq; subst. exact Hs.
Qed.

(** C1: when the protected part of an abstract_type, bits_type or
    composite_type definition throws (the evaluation or installation of
    the supertype, the evaluation or check of the field types, or
    jl_reinstantiate_inner_types), the evaluation of the expression throws
    the same exception, its last collaborator call is
    jl_reset_instantiate_inner_types on the datatype in progress, and the
    binding holds again the value it had before the attempt. *)
Theorem typedef_failure_rolls_back args s w :
  let evs := List.map (fun a => eval C a s) args in
  let modu := current_module_of (match s with None => None | Some st => lam st end) w in
  (forall dt b temp w0 t0 e w1 t1,
     abstracttype_prelude C args evs modu w = (Ok (dt, b, temp), w0, t0) ->
     abstracttype_protected C evs dt w0 = (Throw e, w1, t1) ->
     saved dt b temp w0 /\
     eval C (Expr abstracttype_sym args) s w =
       (Throw e, rolled_back C dt b temp e w1,
        t0 ++ t1 ++ [EvResetInstantiateInnerTypes dt]) /\
     b_value (bindings (rolled_back C dt b temp e w1) b) = temp) /\
  (forall dt b temp w0 t0 e w1 t1,
     bitstype_prelude C args evs modu w = (Ok (dt, b, temp), w0, t0) ->
     bitstype_protected C evs dt w0 = (Throw e, w1, t1) ->
     saved dt b temp w0 /\
     eval C (Expr bitstype_sym args) s w =
       (Throw e, rolled_back C dt b temp e w1,
        t0 ++ t1 ++ [EvResetInstantiateInnerTypes dt]) /\
     b_value (bindings (rolled_back C dt b temp e w1) b) = temp) /\
  (forall dt b temp para w0 t0 e w1 t1,
     compositetype_prelude C args evs modu w = (Ok (dt, b, temp, para), w0, t0) ->
     compositetype_protected C evs dt w0 = (Throw e, w1, t1) ->
     saved dt b temp w0 /\
     eval C (Expr compositetype_sym args) s w =
       (Throw e, rolled_back C dt b temp e w1,
        t0 ++ t1 ++ [EvResetInstantiateInnerTypes dt]) /\
     b_value (bindings (rolled_back C dt b temp e w1) b) = temp).
Proof.
  intros evs modu. repeat split.
  - eapply abstracttype_prelude_saved; eassumption.
  - rewrite eval_Expr.
    change (eval_expr C args _ _ abstracttype_sym s)
      with (eval_abstracttype C args evs modu).
    unfold eval_abstracttype. rewrite (bind_ok _ _ _ _ _ _ H). cbv beta iota.
    rewrite (bind_throw _ _ _ _ _ _ (JL_TRY_rollback _ dt b temp _ _ _ _ H0)).
    reflexivity.
  - apply rolled_back_binding.
  - eapply bitstype_prelude_saved; eassumption.
  - rewrite eval_Expr.
    change (eval_expr C args _ _ bitstype_sym s)
      with (eval_bitstype C args evs modu).
    unfold eval_bitstype. rewrite (bind_ok _ _ _ _ _ _ H). cbv beta iota.
    rewrite (bind_throw _ _ _ _ _ _ (JL_TRY_rollback _ dt b temp _ _ _ _ H0)).
    reflexivity.
  - apply rolled_back_binding.
  - eapply compositetype_prelude_saved; eassumption.
  - rewrite eval_Expr.
    change (eval_expr C args _ _ compositetype_sym s)
      with (eval_compositetype C args evs modu).
    unfold eval_compositetype. rewrite (bind_ok _ _ _ _ _ _ H). cbv beta iota.
    rewrite (bind_throw _ _ _ _ _ _ (JL_TRY_rollback _ dt b temp _ _ _ _ H0)).
    reflexivity.
  - apply rolled_back_binding.
Qed.

(** ** Reloading a type *)

Lemma is_emptysvec_true v : is_emptysvec v = true <-> v = jl_emptysvec.
Proof.
  split.
  - destruct v as [| | | | | | | | | | | | | |[|]| | | | | | | | | |]; try discriminate.
    reflexivity.
  - intros ->. reflexivity.
Qed.

Lemma equiv_type_equivalent w dta dtb :
  equiv_type C w dta dtb = true <-> equivalent_types C w dta dtb.
Proof.
  unfold equiv_type, equivalent_types, datatype_name. split.
  - destruct dtb; try discriminate. intros H.
    repeat (apply andb_true_iff in H; destruct H as [H ?]).
    exists addr. repeat split; try assumption.
    + apply is_emptysvec_true. assumption.
    + apply String.eqb_eq. assumption.
    + apply Bool.eqb_prop. assumption.
    + apply Bool.eqb_prop. assumption.
    + apply Z.eqb_eq. assumption.
    + apply Z.eqb_eq. assumption.
  - intros (b & -> & Hp & Hn & Ht & Ha & Hm & Hs & Hi & Hsu & Hna & Hpa).
    rewrite Ht, Hsu, Hna, Hpa, Hn, Ha, Hm, Hs, Hi.
    rewrite (proj2 (is_emptysvec_true _) Hp).
    rewrite String.eqb_refl, !Bool.eqb_reflx, !Z.eqb_refl. reflexivity.
Qed.





(** ** The body executor *)

Lemma to_ssize_range z : - 2 ^ 63 <= to_ssize z < 2 ^ 63.
Proof.
  unfold to_ssize.
  change (2 ^ 63) with 9223372036854775808.
  change (2 ^ 64) with 18446744073709551616.
  pose proof (Z.mod_pos_bound (z + 9223372036854775808) 18446744073709551616).
  lia.
Qed.

Lemma jl_unbox_long_range v z : jl_unbox_long v = Some z -> - 2 ^ 63 <= z < 2 ^ 63.
Proof. destruct v; try discriminate. intros H. inversion H. apply to_ssize_range. Qed.

Lemma to_size_small z : 0 <= z < 2 ^ 64 -> to_size z = z.
Proof. intros H. unfold to_size. apply Z.mod_small. exact H. Qed.


Lemma fetch_in_bounds (stmts : list jl_value) i stmt :
  0 <= i -> stmts !! Z.to_nat i = Some stmt ->
  (Z.of_nat (length stmts) <=? i) = false.
Proof.
  intros Hi H. apply lookup_lt_Some in H. apply Z.leb_gt. lia.
Qed.

(** One turn of the loop on a statement that is not [enter]. *)
Lemma eval_body_loop_stmt fuel stmts s i toplevel w stmt :
  0 <= i -> stmts !! Z.to_nat i = Some stmt -> enter_args stmt = None ->
  eval_body_loop C (S fuel) stmts s i toplevel w =
  match exec_stmt C stmt s toplevel w with
  | (Ok (Next, s1), w1, t1) =>
      after t1 (eval_body_loop C fuel stmts s1 (to_size (i + 1)) toplevel w1)
  | (Ok (Jump j, s1), w1, t1) =>
      after t1 (eval_body_loop C fuel stmts s1 j toplevel w1)
  | (Ok (Return v, s1), w1, t1) => Some (Ok v, s1, w1, t1)
  | (Throw e, w1, t1) => Some (Throw e, s, w1, t1)
  | (Crash c, w1, t1) => Some (Crash c, s, w1, t1)
  end.
Proof.
  intros Hi Hf He. cbn [eval_body_loop].
  rewrite (fetch_in_bounds _ _ _ Hi Hf), Hf, He. reflexivity.
Qed.



Lemma exec_stmt_goto_ifnot args s toplevel w :
  exec_stmt C (Expr goto_ifnot_sym args) s toplevel w =
  bind (exec_goto_ifnot C args s) (fun c => ret (c, s)) w.
Proof. reflexivity. Qed.

Lemma is_jl_false_other cond : cond <> jl_false -> is_jl_false cond = false.
Proof.
  intros H.
  destruct cond as [| |[|]| | | | | | | | | | | | | | | | | | | | | |];
    try reflexivity. contradiction H. reflexivity.
Qed.

Lemma is_jl_true_other cond : cond <> jl_true -> is_jl_true cond = false.
Proof.
  intros H.
  destruct cond as [| |[|]| | | | | | | | | | | | | | | | | | | | | |];
    try reflexivity. contradiction H. reflexivity.
Qed.

Lemma exec_stmt_goto_ifnot_false cond_e label_e rest s toplevel w w1 t1 label :
  eval C cond_e s w = (Ok jl_false, w1, t1) ->
  jl_unbox_long label_e = Some label ->
  exec_stmt C (Expr goto_ifnot_sym (cond_e :: label_e :: rest)) s toplevel w =
  (Ok (Jump (to_size (label - 1)), s), w1, t1).
Proof.
  intros He Hl. rewrite exec_stmt_goto_ifnot.
  unfold exec_goto_ifnot, bind, exprarg, unbox_long, ret.
  cbn [lookup list_lookup]. rewrite He. cbn [is_jl_false jl_false]. rewrite Hl.
  cbn [app]. rewrite ?app_nil_r. reflexivity.
Qed.

Lemma exec_stmt_goto_ifnot_true cond_e rest s toplevel w w1 t1 :
  eval C cond_e s w = (Ok jl_true, w1, t1) ->
  exec_stmt C (Expr goto_ifnot_sym (cond_e :: rest)) s toplevel w =
  (Ok (Next, s), w1, t1).
Proof.
  intros He. rewrite exec_stmt_goto_ifnot.
  unfold exec_goto_ifnot, bind, exprarg, ret.
  cbn [lookup list_lookup]. rewrite He. cbn. rewrite ?app_nil_r. reflexivity.
Qed.

Lemma exec_stmt_goto_ifnot_other cond_e rest s toplevel w cond w1 t1 :
  eval C cond_e s w = (Ok cond, w1, t1) ->
  cond <> jl_false -> cond <> jl_true ->
  exec_stmt C (Expr goto_ifnot_sym (cond_e :: rest)) s toplevel w =
  (Throw (TypeError "toplevel" "if" (DataType (jl_bool_type C)) cond),
   set_exception (TypeError "toplevel" "if" (DataType (jl_bool_type C)) cond) w1, t1).
Proof.
  intros He Hf Ht. rewrite exec_stmt_goto_ifnot.
  unfold exec_goto_ifnot, bind, exprarg, ret.
  cbn [lookup list_lookup]. rewrite He.
  rewrite (is_jl_false_other _ Hf), (is_jl_true_other _ Ht). cbn.
  rewrite ?app_nil_r. reflexivity.
Qed.


(** C4: a goto_ifnot statement whose condition evaluates to the false
    constant moves the instruction pointer to label - 1; one whose
    condition evaluates to the true constant falls through to the next
    statement; any other value of the condition raises a type error that
    asks for a boolean. *)
Theorem goto_ifnot_branches fuel stmts s i toplevel w cond_e label_e rest cond w1 t1 :
  0 <= i ->
  Z.of_nat (length stmts) < 2 ^ 64 ->
  stmts !! Z.to_nat i = Some (Expr goto_ifnot_sym (cond_e :: label_e :: rest)) ->
  eval C cond_e s w = (Ok cond, w1, t1) ->
  (cond = jl_false ->
   forall label, jl_unbox_long label_e = Some label ->
     eval_body_loop C (S fuel) stmts s i toplevel w =
     after t1 (eval_body_loop C fuel stmts s (to_size (label - 1)) toplevel w1) /\
     (1 <= label -> to_size (label - 1) = label - 1)) /\
  (cond = jl_true ->
   eval_body_loop C (S fuel) stmts s i toplevel w =
   after t1 (eval_body_loop C fuel stmts s (i + 1) toplevel w1)) /\
  (cond <> jl_false -> cond <> jl_true ->
   eval_body_loop C (S fuel) stmts s i toplevel w =
   Some (Throw (TypeError "toplevel" "if" (DataType (jl_bool_type C)) cond), s,
         set_exception (TypeError "toplevel" "if" (DataType (jl_bool_type C)) cond) w1,
         t1)).
Proof.
  intros Hi Hlen Hf He.
  rewrite (eval_body_loop_stmt _ _ _ _ _ _ _ Hi Hf eq_refl).
  repeat apply conj.
  - intros -> label Hl.
    rewrite (exec_stmt_goto_ifnot_false _ _ _ _ _ _ _ _ _ He Hl).
    split; [reflexivity |].
    intros H1. apply to_size_small.
    pose proof (jl_unbox_long_range _ _ Hl).
    change (2 ^ 63) with 9223372036854775808 in *.
    change (2 ^ 64) with 18446744073709551616. lia.
  - intros ->. rewrite (exec_stmt_goto_ifnot_true _ _ _ _ _ _ _ He).
    rewrite to_size_small; [reflexivity |].
    apply lookup_lt_Some in Hf. lia.
  - intros Hnf Hnt.
    rewrite (exec_stmt_goto_ifnot_other _ _ _ _ _ _ _ _ He Hnf Hnt). reflexivity.
Qed.

Lemma exec_stmt_goto label s toplevel (w : world host) :
  exec_stmt C (GotoNode label) s toplevel w =
  (Ok (Jump (to_size (to_ssize label - 1)), s), w, []).
Proof. reflexivity. Qed.







(** More fuel does not change a result. *)
Lemma after_some tr (r : body_result host) x :
  after tr r = Some x ->
  exists o s w t, r = Some (o, s, w, t) /\ x = (o, s, w, tr ++ t).
Proof.
  destruct r as [[[[o s] w] t] |]; [| discriminate].
  intros H. inversion H. eauto 6.
Qed.





(** ** References to SSA values and slots *)

Lemma jl_linfo_nssavalues_some li n (w : world host) :
  nssavalues li = Some n -> jl_linfo_nssavalues (Some li) w = (Ok n, w, []).
Proof.
  unfold nssavalues, jl_linfo_nssavalues.
  destruct (ssavaluetypes li); try discriminate; intros H; inversion H; reflexivity.
Qed.

Lemma index_some {A} (l : list A) i a (w : world host) :
  0 <= i -> l !! Z.to_nat i = Some a -> index l i w = (Ok a, w, []).
Proof.
  intros Hi H. unfold index. apply Z.ltb_ge in Hi. rewrite Hi, H. reflexivity.
Qed.

(** X27: with a frame that has a lambda info, references behave as the
    spec says: an SSA reference whose id is out of range or whose frame has no
    locals raises "access to invalid SSAValue" and otherwise reads
    [locals[nslots + id]]; a slot reference whose number is out of range
    or whose frame has no locals raises "access to invalid slot number",
    an absent entry raises the undefined-variable error that names
    [slotnames[n-1]], and otherwise [locals[n-1]] is returned. *)
Lemma references_with_lambda st li nssa w :
  lam st = Some li -> nssavalues li = Some nssa ->
  (forall id,
     (to_ssize id < 0 \/ nssa <= to_ssize id \/ locals st = None ->
      eval C (SSAValue id) (Some st) w =
      (Throw (ErrorException "access to invalid SSAValue"),
       set_exception (ErrorException "access to invalid SSAValue") w, [])) /\
     (forall l v,
        0 <= to_ssize id < nssa -> locals st = Some l -> 0 <= nslots li ->
        l !! Z.to_nat (nslots li + to_ssize id) = Some v ->
        eval C (SSAValue id) (Some st) w = (Ok v, w, []))) /\
  (forall n,
     (to_ssize n < 1 \/ nslots li < to_ssize n \/ locals st = None ->
      eval C (Slot n) (Some st) w =
      (Throw (ErrorException "access to invalid slot number"),
       set_exception (ErrorException "access to invalid slot number") w, [])) /\
     (forall l name,
        1 <= to_ssize n <= nslots li -> locals st = Some l ->
        l !! Z.to_nat (to_ssize n - 1) = Some NULL ->
        slotnames li !! Z.to_nat (to_ssize n - 1) = Some name ->
        eval C (Slot n) (Some st) w =
        (Throw (UndefVarError name), set_exception (UndefVarError name) w, [])) /\
     (forall l v,
        1 <= to_ssize n <= nslots li -> locals st = Some l ->
        l !! Z.to_nat (to_ssize n - 1) = Some v -> v <> NULL ->
        eval C (Slot n) (Some st) w = (Ok v, w, []))).
Proof.
  intros Hlam Hssa. split.
  - intros id. cbn [eval]. unfold eval_ssavalue. rewrite Hlam.
    rewrite (bind_ok _ _ _ _ _ _ (jl_linfo_nssavalues_some _ _ _ Hssa)).
    split.
    + intros H.
      destruct ((nssa <=? to_ssize id) || (to_ssize id <? 0)) eqn:E; [reflexivity |].
      apply orb_false_iff in E. destruct E as [E1 E2].
      apply Z.leb_gt in E1. apply Z.ltb_ge in E2.
      destruct H as [H | [H | H]]; try lia.
      cbn [s_locals]. rewrite bind_ret. rewrite H. reflexivity.
    + intros l v Hid Hl Hns Hv.
      assert ((nssa <=? to_ssize id) || (to_ssize id <? 0) = false) as ->.
      { apply orb_false_iff. split; [apply Z.leb_gt | apply Z.ltb_ge]; lia. }
      cbn [s_locals]. rewrite bind_ret. rewrite Hl.
      cbn [jl_linfo_nslots]. rewrite bind_ret. fold (nslots li).
      rewrite (index_some l _ v w); [reflexivity | lia | exact Hv].
  - intros n. cbn [eval]. unfold eval_slot. rewrite Hlam.
    cbn [jl_linfo_nslots]. rewrite bind_ret. fold (nslots li).
    repeat apply conj.
    + intros H.
      destruct ((nslots li <? to_ssize n) || (to_ssize n <? 1)) eqn:E; [reflexivity |].
      apply orb_false_iff in E. destruct E as [E1 E2].
      apply Z.ltb_ge in E1. apply Z.ltb_ge in E2.
      destruct H as [H | [H | H]]; try lia.
      cbn [s_locals]. rewrite bind_ret. rewrite H. reflexivity.
    + intros l name Hn Hl Hv Hname.
      assert ((nslots li <? to_ssize n) || (to_ssize n <? 1) = false) as ->.
      { apply orb_false_iff. split; apply Z.ltb_ge; lia. }
      cbn [s_locals]. rewrite bind_ret. rewrite Hl.
      assert (0 <= to_ssize n - 1) as Hge by lia.
      rewrite (bind_ok _ _ _ _ _ _ (index_some _ _ _ w Hge Hv)).
      cbn [is_null].
      rewrite (bind_ok _ _ _ _ _ _ (index_some _ _ _ w Hge Hname)).
      reflexivity.
    + intros l v Hn Hl Hv Hnn.
      assert ((nslots li <? to_ssize n) || (to_ssize n <? 1) = false) as ->.
      { apply orb_false_iff. split; apply Z.ltb_ge; lia. }
      cbn [s_locals]. rewrite bind_ret. rewrite Hl.
      assert (0 <= to_ssize n - 1) as Hge by lia.
      rewrite (bind_ok _ _ _ _ _ _ (index_some _ _ _ w Hge Hv)).
      destruct v; try contradiction; reflexivity.
Qed.

(** C3, where the code departs from it: with no frame, or with a frame
    that has no lambda info (the frame [jl_interpret_toplevel_expr_in]
    builds when it is given none), a reference to an SSA value or to a
    slot does not raise the error of the claim: [jl_linfo_nssavalues] and
    [jl_linfo_nslots] follow the null lambda pointer before any check. *)
Theorem reference_without_lambda id n m w :
  let frame := {| lam := None; locals := None; s_sparam_vals := None |} in
  eval C (SSAValue id) None w = (Crash NullDeref, w, []) /\
  eval C (SSAValue id) (Some frame) w = (Crash NullDeref, w, []) /\
  eval C (Slot n) None w = (Crash NullDeref, w, []) /\
  eval C (Slot n) (Some frame) w = (Crash NullDeref, w, []) /\
  jl_interpret_toplevel_expr C (SSAValue id) w = (Crash NullDeref, w, []) /\
  jl_interpret_toplevel_expr_in C m (SSAValue id) None w =
    (Crash NullDeref, set_modules m m w, []).
Proof. repeat split. Qed.

(** ** The frame of a call *)

Lemma to_int_small z : - 2 ^ 31 <= z < 2 ^ 31 -> to_int z = z.
Proof.
  intros H. unfold to_int.
  change (2 ^ 31) with 2147483648 in *. change (2 ^ 32) with 4294967296.
  rewrite Z.mod_small; lia.
Qed.

Lemma jl_f_tuple_rest (args : list jl_value) i (w : world host) :
  0 <= i <= Z.of_nat (length args) ->
  jl_f_tuple args i (Z.of_nat (length args) - i) w =
  (Ok (Tuple (drop (Z.to_nat i) args)), w, []).
Proof.
  intros Hi. unfold jl_f_tuple.
  assert ((Z.of_nat (length args) <? i + (Z.of_nat (length args) - i)) = false) as ->
    by (apply Z.ltb_ge; lia).
  rewrite take_ge; [reflexivity |]. rewrite length_drop. lia.
Qed.

Lemma copy_args_formals li args na (w : world host) :
  0 <= nargs li < 2 ^ 31 ->
  na = Z.of_nat (length args) -> na < 2 ^ 32 ->
  (if isva li then nargs li - 1 <= na else nargs li <= na) ->
  forall n i locals,
    0 <= i -> i + Z.of_nat n = nargs li ->
    nargs li <= Z.of_nat (length locals) ->
    exists locals',
      copy_args n i li args na locals w = (Ok locals', w, []) /\
      length locals' = length locals /\
      (forall k, i <= k < nargs li ->
         locals' !! Z.to_nat k = Some (formal_value li args k)) /\
      (forall k : nat, (Z.of_nat k < i \/ nargs li <= Z.of_nat k) ->
         locals' !! k = locals !! k).
Proof.
  intros Hn Hna Hna32 Hva.
  induction n as [| n IH]; intros i locals Hi Hsum Hlen.
  - exists locals. cbn [copy_args]. split; [reflexivity |].
    split; [reflexivity |]. split; [intros k Hk; lia | reflexivity].
  - cbn [copy_args].
    assert (lam_nargs li = nargs li) as Hln.
    { unfold lam_nargs. apply to_int_small.
      change (2 ^ 31) with 2147483648 in *. lia. }
    assert (to_size (to_int (lam_nargs li - 1)) = nargs li - 1) as Hlast.
    { rewrite Hln. rewrite to_int_small.
      - apply to_size_small. change (2 ^ 31) with 2147483648 in *.
        change (2 ^ 64) with 18446744073709551616. lia.
      - change (2 ^ 31) with 2147483648 in *. lia. }
    rewrite Hlast.
    assert (exists v, (if isva li && (i =? nargs li - 1)
                       then jl_f_tuple args i (to_size (na - i) mod 2 ^ 32)
                       else index args i) w = (Ok v, w, []) /\
                      v = formal_value li args i) as (v & Hv & Hfv).
    { unfold formal_value.
      destruct (isva li && (i =? nargs li - 1)) eqn:E.
      - apply andb_true_iff in E. destruct E as [E1 E2]. rewrite E1 in Hva.
        apply Z.eqb_eq in E2.
        assert (to_size (na - i) mod 2 ^ 32 = Z.of_nat (length args) - i) as ->.
        { subst na. rewrite to_size_small.
          - apply Z.mod_small. lia.
          - change (2 ^ 32) with 4294967296 in *.
            change (2 ^ 64) with 18446744073709551616. lia. }
        eexists. split; [apply jl_f_tuple_rest; lia | reflexivity].
      - assert (i < na) as Hlt.
        { destruct (isva li); cbn in E.
          - apply Z.eqb_neq in E. lia.
          - lia. }
        destruct (args !! Z.to_nat i) as [a |] eqn:Ha.
        + exists a. split; [apply index_some; [lia | exact Ha] | reflexivity].
        + apply lookup_ge_None in Ha. lia. }
    rewrite (bind_ok _ _ _ _ _ _ Hv). cbv beta iota.
    assert ((Z.of_nat (length locals) <=? i) = false) as -> by (apply Z.leb_gt; lia).
    destruct (IH (i + 1) (<[Z.to_nat i := v]> locals)) as (locals' & Hc & Hl & Hin & Hout).
    + lia.
    + lia.
    + rewrite length_insert. exact Hlen.
    + exists locals'. rewrite Hc. rewrite length_insert in Hl.
      repeat split; [exact Hl | |].
      * intros k Hk. destruct (Z.eq_dec k i) as [-> | Hne].
        -- rewrite Hout by lia. rewrite list_lookup_insert_eq by lia.
           rewrite Hfv. reflexivity.
        -- apply Hin. lia.
      * intros k Hk. rewrite Hout by lia.
        apply list_lookup_insert_ne. lia.
Qed.

(** C2, amended: for a call that supplies the arguments the lambda
    expects, the locals vector has length nslots + nssavalues and starts
    absent; [args[i]] is copied into [locals[i]] for the formals
    [i < lam.nargs] (the arity of the lambda, not the number of actuals);
    if the lambda is variadic its last formal slot receives instead the
    tuple of the actuals from that position on; and the body is executed
    with [toplevel = (lam.nargs == 0)]. *)
Theorem interpret_call_frame fuel li args na sparams w stmts nssa :
  code li = ArrayAny stmts ->
  nssavalues li = Some nssa ->
  0 <= nslots li + nssa < 2 ^ 31 ->
  0 <= nargs li <= nslots li + nssa ->
  na = Z.of_nat (length args) -> na < 2 ^ 32 ->
  (if isva li then nargs li - 1 <= na else nargs li <= na) ->
  exists locals,
    Z.of_nat (length locals) = nslots li + nssa /\
    (forall k, 0 <= k < nargs li -> ~ (isva li = true /\ k = nargs li - 1) ->
       locals !! Z.to_nat k = args !! Z.to_nat k) /\
    (isva li = true -> 1 <= nargs li ->
       locals !! Z.to_nat (nargs li - 1) =
       Some (Tuple (drop (Z.to_nat (nargs li - 1)) args))) /\
    (forall k, nargs li <= k < nslots li + nssa -> locals !! Z.to_nat k = Some NULL) /\
    jl_interpret_call C fuel li args na sparams w =
    match eval_body C fuel stmts
            (Some {| lam := Some li; locals := Some locals; s_sparam_vals := sparams |})
            0 (nargs li =? 0) w with
    | None => None
    | Some (r, _, w2, t2) => Some (r, w2, t2)
    end.
Proof.
  intros Hcode Hssa Hsum Hnargs Hna Hna32 Hva.
  assert (0 <= nargs li < 2 ^ 31) as Hn31 by lia.
  assert (lam_nargs li = nargs li) as Hln.
  { unfold lam_nargs. apply to_int_small.
    change (2 ^ 31) with 2147483648 in *. lia. }
  pose (locals0 := replicate (Z.to_nat (nslots li + nssa)) NULL).
  assert (length locals0 = Z.to_nat (nslots li + nssa)) as Hlen0
    by apply length_replicate.
  destruct (copy_args_formals li args na w Hn31 Hna Hna32 Hva
              (Z.to_nat (nargs li)) 0 locals0) as (locals & Hc & Hl & Hin & Hout).
  { lia. } { lia. } { lia. }
  exists locals. repeat apply conj.
  - lia.
  - intros k Hk Hnot. rewrite (Hin k Hk). unfold formal_value.
    assert (isva li && (k =? nargs li - 1) = false) as ->.
    { destruct (isva li); [| reflexivity]. cbn. apply Z.eqb_neq. intros ->.
      apply Hnot. auto. }
    destruct (args !! Z.to_nat k) as [a |] eqn:Ha; [reflexivity |].
    apply lookup_ge_None in Ha.
    assert (k < na).
    { destruct (isva li) eqn:Eva.
      - assert (k <> nargs li - 1) by (intros ->; apply Hnot; auto). lia.
      - lia. }
    lia.
  - intros Hisva H1. rewrite (Hin (nargs li - 1)) by lia. unfold formal_value.
    rewrite Hisva, Z.eqb_refl. reflexivity.
  - intros k Hk. replace (locals !! Z.to_nat k) with (locals0 !! Z.to_nat k).
    + apply lookup_replicate_2. lia.
    + symmetry. apply Hout. lia.
  - unfold jl_interpret_call. rewrite Hcode.
    cbn [jl_linfo_nslots]. rewrite bind_ret. fold (nslots li).
    rewrite (bind_ok _ _ _ _ _ _ (jl_linfo_nssavalues_some _ _ _ Hssa)).
    cbv beta iota. unfold JL_GC_PUSHARGS.
    rewrite (to_int_small (nslots li + nssa))
      by (change (2 ^ 31) with 2147483648 in *; lia).
    assert ((nslots li + nssa <? 0) = false) as -> by (apply Z.ltb_ge; lia).
    rewrite bind_ret. fold locals0.
    rewrite Hln.
    rewrite (to_size_small (nargs li))
      by (change (2 ^ 31) with 2147483648 in *;
          change (2 ^ 64) with 18446744073709551616; lia).
    rewrite (Z.mod_small na) by lia.
    rewrite (bind_ok _ _ _ _ _ _ Hc). cbv beta iota delta [ret].
    destruct (eval_body C fuel stmts _ 0 (nargs li =? 0) w) as [[[[r s2] w2] t2] |];
      reflexivity.
Qed.


(** * More properties of the code *)

(** ** Heads *)

Lemma not_in_cons_eqb (head c : sym) (l : list sym) :
  ~ List.In head (c :: l) -> String.eqb head c = false /\ ~ List.In head l.
Proof.
  intros H. split.
  - apply String.eqb_neq. intros ->. apply H. left. reflexivity.
  - intros Hin. apply H. right. exact Hin.
Qed.

(** X1: [eval] of an expression whose head is none of the heads it
    recognises raises "unsupported or misplaced expression <head>",
    without evaluating an argument or calling anything.  The heads of
    statements (return, =, goto_ifnot, line, enter, leave) are among
    them: they mean something to [eval_body] only. *)
Theorem unrecognised_head_is_an_error head args s w :
  ~ List.In head eval_heads ->
  eval C (Expr head args) s w =
  (Throw (ErrorException (String.append "unsupported or misplaced expression " head)),
   set_exception
     (ErrorException (String.append "unsupported or misplaced expression " head)) w,
   []).
Proof.
  intros H. rewrite eval_Expr. unfold eval_expr, eval_heads in *.
  repeat match goal with
         | Hn : ~ List.In head (?c :: _) |- _ =>
             apply not_in_cons_eqb in Hn; destruct Hn as [-> Hn]
         end.
  reflexivity.
Qed.

Lemma c_string_prefix str :
  exists q,
    str = String.append (c_string str) q /\
    ~ List.In Ascii.zero (list_ascii_of_string (c_string str)) /\
    (q = EmptyString \/ exists q', q = String Ascii.zero q').
Proof.
  induction str as [| c rest IH]; cbn [c_string].
  - exists EmptyString. split; [reflexivity |]. split; [intros [] | left; reflexivity].
  - destruct (Ascii.eqb c Ascii.zero) eqn:E.
    + apply Ascii.eqb_eq in E. subst c. exists (String Ascii.zero rest).
      split; [reflexivity |]. split; [intros [] | right; eauto].
    + destruct IH as (q & Hq & Hnz & Hend). exists q. repeat apply conj.
      * change (String c rest = String c (String.append (c_string rest) q)).
        rewrite <- Hq. reflexivity.
      * cbn [list_ascii_of_string]. intros [H | H]; [| exact (Hnz H)].
        subst c. rewrite Ascii.eqb_refl in E. discriminate E.
      * exact Hend.
Qed.

(** X2: an error or incomplete expression never returns: with no argument
    it raises the error [malformed "error" expression]; with a string as
    first argument it raises the error "syntax: " followed by the bytes of
    the string before its first NUL byte (the whole string when it has
    none), as the conversion %s prints them; with a null first argument it
    reads the type tag of the null pointer; and with any other first
    argument it throws that argument itself, unevaluated. *)
Theorem error_forms_never_return head args s w :
  head = error_sym \/ head = jl_incomplete_sym ->
  (forall v w' tr, eval C (Expr head args) s w <> (Ok v, w', tr)) /\
  (args = [] ->
   let msg := String.append "malformed "
                (String (Ascii.ascii_of_nat 34)
                   (String.append "error"
                      (String (Ascii.ascii_of_nat 34) " expression"))) in
   eval C (Expr head args) s w =
   (Throw (ErrorException msg), set_exception (ErrorException msg) w, [])) /\
  (forall str rest, args = JString str :: rest ->
     exists p q,
       str = String.append p q /\
       ~ List.In Ascii.zero (list_ascii_of_string p) /\
       (q = EmptyString \/ exists q', q = String Ascii.zero q') /\
       eval C (Expr head args) s w =
       (Throw (ErrorException (String.append "syntax: " p)),
        set_exception (ErrorException (String.append "syntax: " p)) w, [])) /\
  (forall rest, args = NULL :: rest ->
     eval C (Expr head args) s w = (Crash NullDeref, w, [])) /\
  (forall a rest, args = a :: rest -> a <> NULL -> jl_is_string a = false ->
     eval C (Expr head args) s w = (Throw a, set_exception a w, [])).
Proof.
  intros Hh. rewrite eval_Expr.
  assert (eval_expr C args (List.map (fun a => eval C a s) args)
            (current_module_of (match s with None => None | Some st => lam st end) w)
            head s = eval_error args) as ->.
  { destruct Hh as [-> | ->]; reflexivity. }
  unfold eval_error, expr_nargs, arg. repeat apply conj.
  - intros v w' tr. destruct args as [| a rest]; [discriminate |].
    cbn [length lookup list_lookup].
    replace (Z.of_nat (S (length rest)) =? 0) with false
      by (symmetry; apply Z.eqb_neq; lia).
    rewrite bind_ret. destruct a; discriminate.
  - intros ->. reflexivity.
  - intros str rest ->.
    destruct (c_string_prefix str) as (q & Hq & Hnz & Hend).
    exists (c_string str), q. repeat apply conj; try assumption. reflexivity.
  - intros rest ->. reflexivity.
  - intros a rest -> Hn Hs. cbn [length lookup list_lookup].
    replace (Z.of_nat (S (length rest)) =? 0) with false
      by (symmetry; apply Z.eqb_neq; lia).
    rewrite bind_ret. destruct a; try reflexivity; try contradiction; discriminate.
Qed.

Lemma typedef_dispatch head args evs modu s :
  typedef_head head ->
  forall w, inside_typedef w = true ->
  eval_expr C args evs modu head s w =
  (Throw (ErrorException (typedef_in_progress head)),
   set_exception (ErrorException (typedef_in_progress head)) w, []).
Proof.
  intros [-> | [-> | ->]] w Hw.
  - change (eval_expr C args evs modu abstracttype_sym s)
      with (eval_abstracttype C args evs modu).
    unfold eval_abstracttype, abstracttype_prelude.
    rewrite bind_assoc, bind_get_world, Hw. reflexivity.
  - change (eval_expr C args evs modu bitstype_sym s)
      with (eval_bitstype C args evs modu).
    unfold eval_bitstype, bitstype_prelude, bitstype_nbits.
    rewrite !bind_assoc, bind_get_world, Hw. reflexivity.
  - change (eval_expr C args evs modu compositetype_sym s)
      with (eval_compositetype C args evs modu).
    unfold eval_compositetype, compositetype_prelude.
    rewrite bind_assoc, bind_get_world, Hw. reflexivity.
Qed.

(** X3: while a type definition is in progress ([inside_typedef] set),
    an abstract_type, bits_type or composite_type expression is refused
    before anything else happens: no argument is evaluated, no type is
    made and no binding is looked up. *)
Theorem typedef_refused_while_defining head args s w :
  typedef_head head ->
  inside_typedef w = true ->
  eval C (Expr head args) s w =
  (Throw (ErrorException (typedef_in_progress head)),
   set_exception (ErrorException (typedef_in_progress head)) w, []).
Proof.
  intros Hh Hw. rewrite eval_Expr. apply typedef_dispatch; assumption.
Qed.

(** ** Declarations and lookups *)

Lemma declare_globals_declared modu args :
  forall w, exists r w' tr,
    declared C modu args w r w' tr /\
    declare_globals C modu args w = (r, w', tr).
Proof.
  induction args as [| a args IH]; intros w.
  - exists (Ok tt), w, []. split; [constructor | reflexivity].
  - cbn [declare_globals]. unfold assert_tag.
    destruct (is_null a) eqn:Hnull.
    { destruct a; try discriminate Hnull.
      exists (Crash NullDeref), w, []. split; [constructor | reflexivity]. }
    destruct (jl_is_symbol a) eqn:Ha.
    + destruct a; try discriminate Ha. cbn [assert]. rewrite bind_ret.
      destruct (jl_get_binding_wr C modu (Symbol name) w) as [[b | e | c] w1] eqn:Hb.
      * destruct (IH w1) as (r & w2 & t & Hd & Hr).
        exists r, w2, (EvGetBindingWr modu (Symbol name) :: t).
        split; [econstructor; eassumption |].
        unfold bind at 1, call. rewrite Hb, Hr. reflexivity.
      * exists (Throw e), (set_exception e w1), [EvGetBindingWr modu (Symbol name)].
        split; [constructor; assumption |].
        unfold bind, call. rewrite Hb. reflexivity.
      * exists (Crash c), w1, [EvGetBindingWr modu (Symbol name)].
        split; [constructor; assumption |].
        unfold bind, call. rewrite Hb. reflexivity.
    + exists (Crash AssertionFailed), w, [].
      split; [| reflexivity].
      constructor; [intros -> ; discriminate Hnull | exact Ha].
Qed.

(** X4: a global expression evaluates nothing and calls nothing but
    [jl_get_binding_wr]: it takes its arguments in order, each must be a
    symbol and gets its call in the module of unqualified names, in the
    world the call before it left; it stops at the first argument that is
    not a symbol and at the first call that fails, with no call after
    that, and returns [jl_nothing] when every argument got its call. *)
Theorem global_declares_in_order args s w :
  exists r w' tr,
    declared C
      (current_module_of (match s with None => None | Some st => lam st end) w)
      args w r w' tr /\
    eval C (Expr global_sym args) s w = (then_nothing r, w', tr).
Proof.
  rewrite eval_Expr.
  set (modu := current_module_of _ w).
  change (eval_expr C args _ modu global_sym s) with (eval_global C args modu).
  unfold eval_global.
  destruct (declare_globals_declared modu args w) as (r & w' & tr & Hd & Hr).
  exists r, w', tr. split; [exact Hd |].
  unfold bind. rewrite Hr. destruct r as [[] | e | c]; cbn [then_nothing ret].
  - rewrite app_nil_r. reflexivity.
  - reflexivity.
  - reflexivity.
Qed.

Lemma jl_eval_global_var_found m name w v w' tr :
  jl_eval_global_var C m name w = (Ok v, w', tr) ->
  v <> NULL /\ jl_get_global C m name w = (Ok v, w') /\ tr = [EvGetGlobal m name].
Proof.
  unfold jl_eval_global_var, bind, call.
  destruct (jl_get_global C m name w) as [[x | e | c] w1]; try discriminate.
  destruct x; cbn; intros H; inversion H; subst; repeat split; discriminate.
Qed.

Lemma jl_eval_global_var_missing m name w w1 :
  jl_get_global C m name w = (Ok NULL, w1) ->
  jl_eval_global_var C m name w =
  (Throw (UndefVarError name), set_exception (UndefVarError name) w1,
   [EvGetGlobal m name]).
Proof.
  intros H. unfold jl_eval_global_var, bind, call. rewrite H. reflexivity.
Qed.

(** X5: a global reference and a bare symbol are looked up with one call
    of [jl_get_global], in the module of the reference, resp. the module
    of unqualified names; a lookup that finds nothing raises the
    undefined-variable error that names the symbol, so that the value of
    such a node is never the null pointer. *)
Theorem global_lookup s w :
  let modu := current_module_of (match s with None => None | Some st => lam st end) w in
  (forall m name v w' tr,
     eval C (GlobalRef m name) s w = (Ok v, w', tr) ->
     v <> NULL /\ jl_get_global C m (Symbol name) w = (Ok v, w') /\
     tr = [EvGetGlobal m (Symbol name)]) /\
  (forall name v w' tr,
     eval C (Symbol name) s w = (Ok v, w', tr) ->
     v <> NULL /\ jl_get_global C modu (Symbol name) w = (Ok v, w') /\
     tr = [EvGetGlobal modu (Symbol name)]) /\
  (forall m name w1,
     jl_get_global C m (Symbol name) w = (Ok NULL, w1) ->
     eval C (GlobalRef m name) s w =
     (Throw (UndefVarError (Symbol name)),
      set_exception (UndefVarError (Symbol name)) w1,
      [EvGetGlobal m (Symbol name)])) /\
  (forall name w1,
     jl_get_global C modu (Symbol name) w = (Ok NULL, w1) ->
     eval C (Symbol name) s w =
     (Throw (UndefVarError (Symbol name)),
      set_exception (UndefVarError (Symbol name)) w1,
      [EvGetGlobal modu (Symbol name)])).
Proof.
  intros modu. repeat apply conj.
  - intros m name v w' tr. cbn [eval]. apply jl_eval_global_var_found.
  - intros name v w' tr. cbn [eval]. rewrite bind_get_world.
    apply jl_eval_global_var_found.
  - intros m name w1. cbn [eval]. apply jl_eval_global_var_missing.
  - intros name w1. cbn [eval]. rewrite bind_get_world.
    apply jl_eval_global_var_missing.
Qed.

(** X6: [jl_interpret_toplevel_expr_in(m, x, lam)] on a bare symbol [x]
    looks [x] up in [m], whatever the current module was, unless the
    lambda has a defining method, whose module is used instead; it does so
    in a world where both current modules are [m]. *)
Theorem toplevel_expr_in_looks_up_in_module m name lm w :
  let modu := match lm with
              | Some li => match def li with
                           | Some d => meth_module d
                           | None => m
                           end
              | None => m
              end in
  exists r w',
    jl_interpret_toplevel_expr_in C m (Symbol name) lm w =
    (r, w', [EvGetGlobal modu (Symbol name)]) /\
    (forall v, r = Ok v ->
       fst (jl_get_global C modu (Symbol name) (set_modules m m w)) = Ok v /\
       v <> NULL).
Proof.
  intros modu. unfold jl_interpret_toplevel_expr_in.
  rewrite bind_get_world. unfold bind at 1, JL_TRY. rewrite bind_modify.
  cbn [eval lam]. rewrite bind_get_world.
  assert (current_module_of lm (set_modules m m w) = modu) as ->.
  { unfold current_module_of, modu. destruct lm as [li |]; [| reflexivity].
    destruct (def li); reflexivity. }
  unfold jl_eval_global_var, bind at 1, call.
  destruct (jl_get_global C modu (Symbol name) (set_modules m m w))
    as [[v | e | c] w1] eqn:Hg.
  - destruct (is_null v) eqn:Hv.
    + cbn. eexists _, _. split; [reflexivity |]. discriminate.
    + unfold ret at 1. rewrite bind_modify. rewrite Hv. cbn [negb assert].
      rewrite bind_ret. cbn. eexists _, _. split; [reflexivity |].
      intros v0 Hv0. inversion Hv0; subst. split; [reflexivity |].
      intros ->. discriminate Hv.
  - cbn. eexists _, _. split; [reflexivity |]. discriminate.
  - cbn. eexists _, _. split; [reflexivity |]. discriminate.
Qed.

(** ** Static parameters, invoke and new *)

Lemma index_inv {A} (l : list A) i (w : world host) a w' tr :
  index l i w = (Ok a, w', tr) ->
  0 <= i /\ l !! Z.to_nat i = Some a /\ w' = w /\ tr = [].
Proof.
  unfold index. destruct (i <? 0) eqn:E; [discriminate |].
  apply Z.ltb_ge in E. destruct (l !! Z.to_nat i); [| discriminate].
  intros H. inversion H. auto.
Qed.

(** X7: a static_parameter expression with index [n]: when the frame
    brings its own static parameters the entry [n-1] of those is returned
    as it is; otherwise the entry [n-1] of the lambda's is returned, and
    only if it is not a type variable: without an override the value is
    never a type variable, and an index past the end or a type variable
    there raises "could not determine static parameter value". *)
Theorem static_parameter_value st n rest w :
  0 < to_ssize n ->
  (forall sv v,
     s_sparam_vals st = Some sv -> sv !! Z.to_nat (to_ssize n - 1) = Some v ->
     eval C (Expr static_parameter_sym (Long n :: rest)) (Some st) w = (Ok v, w, [])) /\
  (forall li v w' tr,
     s_sparam_vals st = None -> lam st = Some li ->
     eval C (Expr static_parameter_sym (Long n :: rest)) (Some st) w = (Ok v, w', tr) ->
     jl_is_typevar v = false /\
     sparam_vals li !! Z.to_nat (to_ssize n - 1) = Some v /\ w' = w /\ tr = []) /\
  (forall li,
     s_sparam_vals st = None -> lam st = Some li ->
     (Z.of_nat (length (sparam_vals li)) < to_ssize n \/
      exists v, sparam_vals li !! Z.to_nat (to_ssize n - 1) = Some v /\
                jl_is_typevar v = true) ->
     eval C (Expr static_parameter_sym (Long n :: rest)) (Some st) w =
     (Throw (ErrorException "could not determine static parameter value"),
      set_exception (ErrorException "could not determine static parameter value") w,
      [])).
Proof.
  intros Hn. rewrite eval_Expr.
  change (eval_expr C (Long n :: rest) _ _ static_parameter_sym (Some st))
    with (eval_static_parameter (host := host) (Long n :: rest) (Some st)).
  unfold eval_static_parameter, arg. cbn [lookup list_lookup].
  rewrite bind_ret. cbn [unbox_long jl_unbox_long]. rewrite bind_ret.
  assert ((0 <? to_ssize n) = true) as -> by (apply Z.ltb_lt; exact Hn).
  cbn [assert]. rewrite bind_ret.
  repeat apply conj.
  - intros sv v Hsv Hv. rewrite Hsv. apply index_some; [lia | exact Hv].
  - intros li v w' tr Hsv Hlam. rewrite Hsv, Hlam.
    destruct (to_ssize n <=? Z.of_nat (length (sparam_vals li))); [| discriminate].
    intros H. apply bind_inv_ok in H.
    destruct H as (sp & w1 & t1 & t2 & Hi & H & ->).
    apply index_inv in Hi. destruct Hi as (_ & Hsp & -> & ->).
    destruct (is_null sp); [discriminate H |].
    destruct (jl_is_typevar sp) eqn:Htv; cbn [negb] in H; [discriminate |].
    inversion H; subst. auto.
  - intros li Hsv Hlam Hbad. rewrite Hsv, Hlam.
    destruct (to_ssize n <=? Z.of_nat (length (sparam_vals li))) eqn:E;
      [| reflexivity].
    apply Z.leb_le in E. destruct Hbad as [Hbad | (v & Hv & Htv)]; [lia |].
    assert (0 <= to_ssize n - 1) as Hge by lia.
    rewrite (bind_ok _ _ _ _ _ _ (index_some _ _ _ w Hge Hv)).
    assert (is_null v = false) as ->
      by (destruct v; try discriminate Htv; reflexivity).
    rewrite Htv. reflexivity.
Qed.

(** X8: an invoke expression evaluates its arguments after the first
    from left to right, does not evaluate the first (the method), and then
    calls the method directly on the values; with no argument at all the
    size of the argument vector wraps around; a first argument that is not
    a lambda info fails the assertion after the arguments were
    evaluated, and a null one has its type tag read there. *)
Theorem invoke_arguments_left_to_right meth args s w :
  (forall vs w1 t1,
     left_to_right C s args w (Ok vs) w1 t1 ->
     jl_is_lambda_info meth = true -> lambda_inInference C w1 meth = false ->
     exists w2,
       eval C (Expr invoke_sym (meth :: args)) s w =
       (fst (jl_call_method_internal C meth vs w1), w2,
        t1 ++ [EvCallMethodInternal meth vs])) /\
  (forall e w1 t1,
     left_to_right C s args w (Throw e) w1 t1 ->
     eval C (Expr invoke_sym (meth :: args)) s w = (Throw e, w1, t1)) /\
  (forall vs w1 t1,
     left_to_right C s args w (Ok vs) w1 t1 ->
     jl_is_lambda_info meth = false ->
     eval C (Expr invoke_sym (meth :: args)) s w =
     (Crash (if is_null meth then NullDeref else AssertionFailed), w1, t1)) /\
  eval C (Expr invoke_sym []) s w = (Crash OutOfBounds, w, []).
Proof.
  repeat apply conj.
  - intros vs w1 t1 H Hl Hi. apply sequenceM_left_to_right in H.
    rewrite eval_Expr.
    change (eval_expr C (meth :: args) ?evs _ invoke_sym s)
      with (do_invoke C (meth :: args) evs).
    unfold do_invoke. cbn [List.map tail]. rewrite (bind_ok _ _ _ _ _ _ H).
    rewrite bind_get_world. unfold assert_tag.
    assert (is_null meth = false) as -> by (destruct meth; try discriminate Hl; reflexivity).
    rewrite Hl, Hi. cbn [andb negb assert].
    rewrite bind_ret.
    destruct (call_result (EvCallMethodInternal meth vs)
                (jl_call_method_internal C meth vs) w1) as [w2 Hc].
    rewrite Hc. exists w2. reflexivity.
  - intros e w1 t1 H. apply sequenceM_left_to_right in H.
    rewrite eval_Expr.
    change (eval_expr C (meth :: args) ?evs _ invoke_sym s)
      with (do_invoke C (meth :: args) evs).
    unfold do_invoke. cbn [List.map tail]. apply bind_throw. exact H.
  - intros vs w1 t1 H Hl. apply sequenceM_left_to_right in H.
    rewrite eval_Expr.
    change (eval_expr C (meth :: args) ?evs _ invoke_sym s)
      with (do_invoke C (meth :: args) evs).
    unfold do_invoke. cbn [List.map tail]. rewrite (bind_ok _ _ _ _ _ _ H).
    rewrite bind_get_world. unfold assert_tag. rewrite Hl. cbn [andb assert].
    rewrite (bind_crash _ _ _ (if is_null meth then NullDeref else AssertionFailed)
               w1 []) by (destruct (is_null meth); reflexivity).
    rewrite app_nil_r. reflexivity.
  - reflexivity.
Qed.



(** ** More on type definitions *)

Lemma map_lookup {A B} (f : A -> B) (l : list A) k a :
  l !! k = Some a -> List.map f l !! k = Some (f a).
Proof.
  revert k. induction l as [| x l IH]; intros [| k] H; try discriminate.
  - inversion H. reflexivity.
  - cbn. apply IH. exact H.
Qed.

Lemma supertype_refused h inner args s k (w0 : world host)
    (rest : jl_value -> M host unit) :
  typedef_head h ->
  args !! k = Some (Expr h inner) ->
  bind (modify (set_inside_typedef true))
    (fun _ => bind (eval_arg (List.map (fun a => eval C a s) args) k) rest) w0 =
  (Throw (ErrorException (typedef_in_progress h)),
   set_exception (ErrorException (typedef_in_progress h)) (set_inside_typedef true w0),
   []).
Proof.
  intros Hh Hk. rewrite bind_modify. unfold eval_arg.
  rewrite (map_lookup _ _ _ _ Hk). apply bind_throw.
  rewrite eval_Expr. apply typedef_dispatch; [exact Hh | reflexivity].
Qed.

(** X10: a type definition written where the supertype of another type
    definition is expected is always refused: the outer definition has set
    [inside_typedef] before it evaluates its supertype, so the inner one
    raises its "while defining another type" error at once, and the outer
    one resets the type in progress, puts back the old value of the
    binding and throws that error on. *)
Theorem typedef_in_supertype_is_refused args s w h inner :
  typedef_head h ->
  let evs := List.map (fun a => eval C a s) args in
  let modu := current_module_of (match s with None => None | Some st => lam st end) w in
  let err := ErrorException (typedef_in_progress h) in
  (forall dt b temp w0 t0,
     args !! 2%nat = Some (Expr h inner) ->
     abstracttype_prelude C args evs modu w = (Ok (dt, b, temp), w0, t0) ->
     eval C (Expr abstracttype_sym args) s w =
       (Throw err, rolled_back C dt b temp err
                     (set_exception err (set_inside_typedef true w0)),
        t0 ++ [EvResetInstantiateInnerTypes dt]) /\
     b_value (bindings (rolled_back C dt b temp err
                     (set_exception err (set_inside_typedef true w0))) b)
       = temp) /\
  (forall dt b temp w0 t0,
     args !! 3%nat = Some (Expr h inner) ->
     bitstype_prelude C args evs modu w = (Ok (dt, b, temp), w0, t0) ->
     eval C (Expr bitstype_sym args) s w =
       (Throw err, rolled_back C dt b temp err
                     (set_exception err (set_inside_typedef true w0)),
        t0 ++ [EvResetInstantiateInnerTypes dt]) /\
     b_value (bindings (rolled_back C dt b temp err
                     (set_exception err (set_inside_typedef true w0))) b)
       = temp) /\
  (forall dt b temp para w0 t0,
     args !! 3%nat = Some (Expr h inner) ->
     compositetype_prelude C args evs modu w = (Ok (dt, b, temp, para), w0, t0) ->
     eval C (Expr compositetype_sym args) s w =
       (Throw err, rolled_back C dt b temp err
                     (set_exception err (set_inside_typedef true w0)),
        t0 ++ [EvResetInstantiateInnerTypes dt]) /\
     b_value (bindings (rolled_back C dt b temp err
                     (set_exception err (set_inside_typedef true w0))) b)
       = temp).
Proof.
  intros Hh evs modu err. repeat apply conj.
  - intros dt b temp w0 t0 Hk Hp. split; [| apply rolled_back_binding].
    rewrite eval_Expr.
    change (eval_expr C args _ _ abstracttype_sym s)
      with (eval_abstracttype C args evs modu).
    unfold eval_abstracttype. rewrite (bind_ok _ _ _ _ _ _ Hp). cbv beta iota.
    assert (abstracttype_protected C evs dt w0 =
            (Throw err, set_exception err (set_inside_typedef true w0), [])) as Hb.
    { unfold abstracttype_protected. eapply supertype_refused; eassumption. }
    rewrite (bind_throw _ _ _ _ _ _ (JL_TRY_rollback _ dt b temp _ _ _ _ Hb)).
    cbn [app]. reflexivity.
  - intros dt b temp w0 t0 Hk Hp. split; [| apply rolled_back_binding].
    rewrite eval_Expr.
    change (eval_expr C args _ _ bitstype_sym s)
      with (eval_bitstype C args evs modu).
    unfold eval_bitstype. rewrite (bind_ok _ _ _ _ _ _ Hp). cbv beta iota.
    assert (bitstype_protected C evs dt w0 =
            (Throw err, set_exception err (set_inside_typedef true w0), [])) as Hb.
    { unfold bitstype_protected. eapply supertype_refused; eassumption. }
    rewrite (bind_throw _ _ _ _ _ _ (JL_TRY_rollback _ dt b temp _ _ _ _ Hb)).
    cbn [app]. reflexivity.
  - intros dt b temp para w0 t0 Hk Hp. split; [| apply rolled_back_binding].
    rewrite eval_Expr.
    change (eval_expr C args _ _ compositetype_sym s)
      with (eval_compositetype C args evs modu).
    unfold eval_compositetype. rewrite (bind_ok _ _ _ _ _ _ Hp). cbv beta iota.
    assert (compositetype_protected C evs dt w0 =
            (Throw err, set_exception err (set_inside_typedef true w0), [])) as Hb.
    { unfold compositetype_protected. eapply supertype_refused; eassumption. }
    rewrite (bind_throw _ _ _ _ _ _ (JL_TRY_rollback _ dt b temp _ _ _ _ Hb)).
    cbn [app]. reflexivity.
Qed.

(** X11: the step that saves the old value of the binding and points the
    binding at the type in progress refuses a constant that holds a value
    other than a datatype, with "invalid redefinition of constant <name>",
    and then leaves the binding as it was; a binding that is not constant,
    is unbound or holds a datatype is pointed at the new type, its old
    value is what the step returns, and no other binding changes. *)
Theorem typedef_bind_guards_constants dt b (wb : world host) :
  let bd := bindings wb b in
  (b_constp bd = true -> b_value bd <> NULL -> jl_is_datatype (b_value bd) = false ->
   typedef_bind dt b wb =
   (Throw (ErrorException (String.append "invalid redefinition of constant " (b_name bd))),
    set_exception
      (ErrorException (String.append "invalid redefinition of constant " (b_name bd)))
      wb, [])) /\
  (b_constp bd = false \/ b_value bd = NULL \/ jl_is_datatype (b_value bd) = true ->
   exists w0,
     typedef_bind dt b wb = (Ok (b_value bd), w0, []) /\
     b_value (bindings w0 b) = DataType dt /\
     (forall b', b' <> b -> bindings w0 b' = bindings wb b') /\
     datatypes w0 = datatypes wb /\ inside_typedef w0 = inside_typedef wb).
Proof.
  intros bd. unfold typedef_bind, check_can_assign_type. split.
  - intros Hc Hn Hd. rewrite bind_get_world, bind_assoc, bind_get_world.
    fold bd. rewrite Hc, Hd.
    destruct (b_value bd) eqn:Hv; try contradiction; reflexivity.
  - intros H. rewrite bind_get_world, bind_assoc, bind_get_world. fold bd.
    assert (b_constp bd && negb (is_null (b_value bd)) &&
            negb (jl_is_datatype (b_value bd)) = false) as ->.
    { destruct H as [-> | [-> | ->]]; [reflexivity | |].
      - apply andb_false_intro1. apply andb_false_intro2. reflexivity.
      - apply andb_false_intro2. reflexivity. }
    rewrite bind_ret, bind_modify. unfold ret.
    eexists. split; [reflexivity |]. split; [apply store_binding_value_same |].
    split; [| split; reflexivity].
    intros b' Hb'. cbn. apply Nat.eqb_neq in Hb'. rewrite Hb'. reflexivity.
Qed.

(** X12: [jl_set_datatype_super(tt, super)] succeeds only for a datatype
    that is abstract, has another type name than [tt] (so never for [tt]
    itself), is not the type of builtins, and is not a subtype of Vararg
    or of Type nor a tuple type; then [tt->super] is [super] and nothing
    else changes: no other field of [tt], no other datatype, no binding,
    no type name and no cell of the process.  Any other non-null [super]
    raises "invalid subtyping in definition of <name of tt>" and changes
    nothing but the exception in transit. *)
Theorem set_datatype_super_accepts tt super w :
  (forall u w' tr,
     jl_set_datatype_super C tt super w = (Ok u, w', tr) ->
     exists sa,
       super = DataType sa /\
       dt_abstract (datatypes w sa) = true /\
       dt_name (datatypes w tt) <> dt_name (datatypes w sa) /\
       sa <> tt /\ sa <> jl_builtin_type C /\
       dt_name (datatypes w sa) <> jl_tuple_typename C /\
       jl_subtype C w super (DataType (jl_vararg_type C)) = false /\
       jl_subtype C w super (DataType (jl_type_type C)) = false /\
       dt_super (datatypes w' tt) = super /\
       dt_name (datatypes w' tt) = dt_name (datatypes w tt) /\
       dt_parameters (datatypes w' tt) = dt_parameters (datatypes w tt) /\
       dt_types (datatypes w' tt) = dt_types (datatypes w tt) /\
       dt_instance (datatypes w' tt) = dt_instance (datatypes w tt) /\
       dt_size (datatypes w' tt) = dt_size (datatypes w tt) /\
       dt_abstract (datatypes w' tt) = dt_abstract (datatypes w tt) /\
       dt_mutabl (datatypes w' tt) = dt_mutabl (datatypes w tt) /\
       dt_ninitialized (datatypes w' tt) = dt_ninitialized (datatypes w tt) /\
       (forall a, a <> tt -> datatypes w' a = datatypes w a) /\
       bindings w' = bindings w /\ typenames w' = typenames w /\
       jl_current_module w' = jl_current_module w /\
       task_current_module w' = task_current_module w /\
       inside_typedef w' = inside_typedef w /\ jl_lineno w' = jl_lineno w /\
       jl_exception_in_transit w' = jl_exception_in_transit w /\
       eh_depth w' = eh_depth w /\ host_state w' = host_state w /\ tr = []) /\
  (forall e w' tr,
     jl_set_datatype_super C tt super w = (Throw e, w', tr) ->
     e = ErrorException
           (String.append "invalid subtyping in definition of " (datatype_name w tt)) /\
     jl_exception_in_transit w' = e /\
     datatypes w' = datatypes w /\ bindings w' = bindings w /\
     typenames w' = typenames w /\
     jl_current_module w' = jl_current_module w /\
     task_current_module w' = task_current_module w /\
     inside_typedef w' = inside_typedef w /\ jl_lineno w' = jl_lineno w /\
     eh_depth w' = eh_depth w /\ host_state w' = host_state w /\ tr = []) /\
  jl_set_datatype_super C tt (DataType tt) w =
  (Throw (ErrorException
            (String.append "invalid subtyping in definition of " (datatype_name w tt))),
   set_exception
     (ErrorException
        (String.append "invalid subtyping in definition of " (datatype_name w tt))) w,
   []).
Proof.
  unfold jl_set_datatype_super. rewrite !bind_get_world. repeat apply conj.
  - intros u w' tr. destruct super; try discriminate.
    cbn [is_null].
    destruct (negb (dt_abstract (datatypes w addr))) eqn:E1; [discriminate |].
    destruct (Nat.eqb (dt_name (datatypes w tt)) (dt_name (datatypes w addr))) eqn:E2;
      [discriminate |].
    destruct (jl_subtype C w (DataType addr) (DataType (jl_vararg_type C))) eqn:E3;
      [discriminate |].
    destruct (Nat.eqb (dt_name (datatypes w addr)) (jl_tuple_typename C)) eqn:E4;
      [discriminate |].
    destruct (jl_subtype C w (DataType addr) (DataType (jl_type_type C))) eqn:E5;
      [discriminate |].
    destruct (Nat.eqb addr (jl_builtin_type C)) eqn:E6; [discriminate |].
    cbn [orb]. intros H. inversion H; subst. exists addr.
    apply negb_false_iff in E1. apply Nat.eqb_neq in E2, E4, E6.
    repeat split; try assumption;
      try (cbn; rewrite Nat.eqb_refl; reflexivity).
    + intros ->. apply E2. reflexivity.
    + intros a Ha. cbn. apply Nat.eqb_neq in Ha. rewrite Ha. reflexivity.
  - intros e w' tr. destruct (is_null super); [discriminate |].
    match goal with
    | |- context [if ?c then _ else _] => destruct c
    end; [| discriminate].
    intros H. inversion H; subst. repeat split.
  - cbn [is_null]. rewrite Nat.eqb_refl, orb_true_r. cbn [orb]. reflexivity.
Qed.

(** X13: the check of the field types of a composite type passes exactly
    when every element is a type or a type variable; otherwise it raises a
    type error for the first element that is neither, and looks at none
    after it. *)
Theorem field_types_are_checked_in_order dt (w : world host) :
  (forall elts,
     Forall (fun e => jl_is_type e = true \/ jl_is_typevar e = true) elts ->
     check_field_types C dt elts w = (Ok tt, w, [])) /\
  (forall good bad rest,
     Forall (fun e => jl_is_type e = true \/ jl_is_typevar e = true) good ->
     bad <> NULL -> jl_is_type bad = false -> jl_is_typevar bad = false ->
     check_field_types C dt (good ++ bad :: rest) w =
     (Throw (TypeError (datatype_name w dt) "type definition"
               (DataType (jl_type_type C)) bad),
      set_exception
        (TypeError (datatype_name w dt) "type definition"
           (DataType (jl_type_type C)) bad) w, [])) /\
  (forall elts u w' tr,
     check_field_types C dt elts w = (Ok u, w', tr) ->
     Forall (fun e => jl_is_type e = true \/ jl_is_typevar e = true) elts).
Proof.
  assert (forall elt elts,
            jl_is_type elt = true \/ jl_is_typevar elt = true ->
            check_field_types C dt (elt :: elts) w = check_field_types C dt elts w)
    as Hstep.
  { intros elt elts H. cbn [check_field_types].
    destruct elt; cbn in H |- *; try reflexivity;
      destruct H as [H | H]; discriminate H. }
  repeat apply conj.
  - intros elts H. induction H as [| elt elts He _ IH]; [reflexivity |].
    rewrite (Hstep _ _ He). exact IH.
  - intros good bad rest H Hn Ht Hv.
    induction H as [| elt elts He _ IH].
    + destruct bad; try contradiction; try discriminate Ht; try discriminate Hv;
        cbn [app check_field_types jl_is_type jl_is_typevar negb andb];
        rewrite bind_get_world; reflexivity.
    + cbn [app]. rewrite (Hstep _ _ He). exact IH.
  - intros elts. induction elts as [| elt elts IH]; intros u w' tr H.
    + constructor.
    + destruct elt;
        cbn [check_field_types jl_is_type jl_is_typevar negb andb] in H;
        try discriminate H;
        try (rewrite bind_get_world in H; discriminate H);
        (constructor; [cbn; auto | eapply IH; exact H]).
Qed.


(** ** Locals: assignment, read and reset *)

Lemma exec_assign_rhs dest rhs_e rest s w rhs w1 t1
    (k : M host (option interpreter_state)) :
  eval C rhs_e s w = (Ok rhs, w1, t1) ->
  (forall w0,
     match dest with
     | NULL => crash NullDeref
     | SSAValue id =>
         bind (s_lam s) (fun li =>
         bind (jl_linfo_nssavalues li) (fun nssa =>
         if (nssa <=? to_ssize id) || (to_ssize id <? 0)
         then jl_error "assignment to invalid GenSym location"
         else bind (jl_linfo_nslots li) (fun nsl =>
              store_local s (nsl + to_ssize id) rhs)))
     | Slot n0 =>
         bind (s_lam s) (fun li =>
         bind (jl_linfo_nslots li) (fun nsl =>
         bind (assert ((to_ssize n0 <=? nsl) && (0 <? to_ssize n0))) (fun _ =>
         store_local s (to_ssize n0 - 1) rhs)))
     | _ =>
         bind get_world (fun w =>
         let '(m, name) :=
           match dest with
           | GlobalRef gm gname => (gm, Symbol gname)
           | _ => (current_module_of
                     (match s with None => None | Some st => lam st end) w, dest)
           end in
         bind (assert (jl_is_symbol name)) (fun _ =>
         bind (call (EvGetBindingWr m name) (jl_get_binding_wr C m name)) (fun b =>
         bind (call (EvCheckedAssignment b rhs) (jl_checked_assignment C b rhs))
              (fun _ => ret s))))
     end w0 = k w0) ->
  exec_assign C (dest :: rhs_e :: rest) s w =
  (let '(r, w2, t2) := k w1 in (r, w2, t1 ++ t2)).
Proof.
  intros He Hk. unfold exec_assign, exprarg. cbn [lookup list_lookup].
  rewrite !bind_ret. rewrite (bind_ok _ _ _ _ _ _ He). rewrite <- Hk.
  destruct dest; reflexivity.
Qed.

Lemma store_local_ok st l i v (w : world host) :
  locals st = Some l -> 0 <= i < Z.of_nat (length l) ->
  store_local (Some st) i v w =
  (Ok (Some {| lam := lam st; locals := Some (<[Z.to_nat i := v]> l);
               s_sparam_vals := s_sparam_vals st |}), w, []).
Proof.
  intros Hl Hi. unfold store_local. rewrite Hl.
  assert ((i <? 0) || (Z.of_nat (length l) <=? i) = false) as ->.
  { apply orb_false_iff. split; [apply Z.ltb_ge | apply Z.leb_gt]; lia. }
  reflexivity.
Qed.

Lemma index_insert_ne {A} (l : list A) k0 v k (w : world host) :
  (0 <= k -> Z.to_nat k <> k0) -> index (<[k0 := v]> l) k w = index l k w.
Proof.
  intros H. unfold index. destruct (k <? 0) eqn:E; [reflexivity |].
  apply Z.ltb_ge in E. rewrite list_lookup_insert_ne; [reflexivity |].
  intros Heq. apply (H E). symmetry. exact Heq.
Qed.

Lemma jl_linfo_nssavalues_none li (w : world host) :
  nssavalues li = None ->
  exists c, jl_linfo_nssavalues (Some li) w = (Crash c, w, []).
Proof.
  unfold nssavalues, jl_linfo_nssavalues.
  destruct (ssavaluetypes li); try discriminate; intros _; eexists; reflexivity.
Qed.

(** Reads of a frame after one entry of its locals was replaced. *)
Lemma eval_ssavalue_after_store st li l k0 v id w :
  lam st = Some li -> locals st = Some l ->
  (0 <= to_ssize id -> Z.to_nat (to_int (Z.of_nat (length (slotflags li))) + to_ssize id)
                       <> k0) ->
  eval C (SSAValue id)
    (Some {| lam := lam st; locals := Some (<[k0 := v]> l);
             s_sparam_vals := s_sparam_vals st |}) w =
  eval C (SSAValue id) (Some st) w.
Proof.
  intros Hlam Hl Hne. cbn [eval]. unfold eval_ssavalue. cbn [lam locals].
  rewrite Hlam.
  destruct (nssavalues li) as [nssa |] eqn:Hssa.
  2: { destruct (jl_linfo_nssavalues_none li w Hssa) as [c Hc].
       rewrite !(bind_crash _ _ _ _ _ _ Hc). reflexivity. }
  rewrite !(bind_ok _ _ _ _ _ _ (jl_linfo_nssavalues_some _ _ _ Hssa)).
  destruct ((nssa <=? to_ssize id) || (to_ssize id <? 0)) eqn:E; [reflexivity |].
  apply orb_false_iff in E. destruct E as [_ E]. apply Z.ltb_ge in E.
  cbn [s_locals]. rewrite !bind_ret. cbn [locals]. rewrite Hl.
  cbn [jl_linfo_nslots]. rewrite !bind_ret.
  destruct (Z_le_gt_dec 0 (to_int (Z.of_nat (length (slotflags li))) + to_ssize id))
    as [Hge | Hlt].
  - rewrite index_insert_ne; [reflexivity |]. intros _. apply Hne. exact E.
  - unfold index. assert ((to_int (Z.of_nat (length (slotflags li))) + to_ssize id <? 0)
                          = true) as -> by (apply Z.ltb_lt; lia).
    reflexivity.
Qed.

Lemma eval_slot_after_store st li l k0 v n w :
  lam st = Some li -> locals st = Some l ->
  (1 <= to_ssize n <= to_int (Z.of_nat (length (slotflags li))) ->
   Z.to_nat (to_ssize n - 1) <> k0) ->
  eval C (Slot n)
    (Some {| lam := lam st; locals := Some (<[k0 := v]> l);
             s_sparam_vals := s_sparam_vals st |}) w =
  eval C (Slot n) (Some st) w.
Proof.
  intros Hlam Hl Hne. cbn [eval]. unfold eval_slot. cbn [lam locals].
  rewrite Hlam. cbn [jl_linfo_nslots]. rewrite !bind_ret.
  destruct ((to_int (Z.of_nat (length (slotflags li))) <? to_ssize n)
            || (to_ssize n <? 1)) eqn:E; [reflexivity |].
  apply orb_false_iff in E. destruct E as [E1 E]. apply Z.ltb_ge in E, E1.
  cbn [s_locals]. rewrite !bind_ret. cbn [locals]. rewrite Hl.
  unfold bind. rewrite index_insert_ne; [reflexivity |].
  intros _. apply Hne. split; assumption.
Qed.

Lemma eval_ssavalue_read st li nssa l id v w :
  lam st = Some li -> nssavalues li = Some nssa -> locals st = Some l ->
  0 <= to_ssize id < nssa -> 0 <= nslots li ->
  l !! Z.to_nat (nslots li + to_ssize id) = Some v ->
  eval C (SSAValue id) (Some st) w = (Ok v, w, []).
Proof.
  intros Hlam Hssa Hl Hid Hns Hv. cbn [eval]. unfold eval_ssavalue. rewrite Hlam.
  rewrite (bind_ok _ _ _ _ _ _ (jl_linfo_nssavalues_some _ _ _ Hssa)).
  assert ((nssa <=? to_ssize id) || (to_ssize id <? 0) = false) as ->.
  { apply orb_false_iff. split; [apply Z.leb_gt | apply Z.ltb_ge]; lia. }
  cbn [s_locals]. rewrite bind_ret. rewrite Hl.
  cbn [jl_linfo_nslots]. rewrite bind_ret. fold (nslots li).
  rewrite (index_some l _ v w); [reflexivity | lia | exact Hv].
Qed.

Lemma eval_slot_read st li l n v w :
  lam st = Some li -> locals st = Some l ->
  1 <= to_ssize n <= nslots li ->
  l !! Z.to_nat (to_ssize n - 1) = Some v ->
  eval C (Slot n) (Some st) w =
  (if is_null v
   then bind (index (slotnames li) (to_ssize n - 1))
             (fun name => jl_undefined_var_error name) w
   else (Ok v, w, [])).
Proof.
  intros Hlam Hl Hn Hv. cbn [eval]. unfold eval_slot. rewrite Hlam.
  cbn [jl_linfo_nslots]. rewrite bind_ret. fold (nslots li).
  assert ((nslots li <? to_ssize n) || (to_ssize n <? 1) = false) as ->.
  { apply orb_false_iff. split; apply Z.ltb_ge; lia. }
  cbn [s_locals]. rewrite bind_ret. rewrite Hl.
  assert (0 <= to_ssize n - 1) as Hge by lia.
  rewrite (bind_ok _ _ _ _ _ _ (index_some _ _ _ w Hge Hv)).
  destruct (is_null v); cbv beta iota.
  - destruct (bind (index (slotnames li) (to_ssize n - 1))
                (fun name => jl_undefined_var_error name) w) as [[r w2] t2].
    reflexivity.
  - reflexivity.
Qed.

(** X15: an assignment to an SSA value whose id is in range stores the
    value of the right-hand side in [locals[nslots + id]]; a later read of
    that SSA value gives the value back, and every other SSA value and
    every slot reads as before. *)
Theorem ssa_assignment_round_trip st li nssa l id rhs_e rest w rhs w1 t1 :
  lam st = Some li -> nssavalues li = Some nssa -> locals st = Some l ->
  0 <= to_ssize id < nssa -> 0 <= nslots li ->
  nslots li + to_ssize id < Z.of_nat (length l) ->
  eval C rhs_e (Some st) w = (Ok rhs, w1, t1) ->
  let st' := {| lam := lam st;
                locals := Some (<[Z.to_nat (nslots li + to_ssize id) := rhs]> l);
                s_sparam_vals := s_sparam_vals st |} in
  exec_assign C (SSAValue id :: rhs_e :: rest) (Some st) w = (Ok (Some st'), w1, t1) /\
  (forall w2, eval C (SSAValue id) (Some st') w2 = (Ok rhs, w2, [])) /\
  (forall id' w2, to_ssize id' <> to_ssize id ->
     eval C (SSAValue id') (Some st') w2 = eval C (SSAValue id') (Some st) w2) /\
  (forall n w2, eval C (Slot n) (Some st') w2 = eval C (Slot n) (Some st) w2).
Proof.
  intros Hlam Hssa Hl Hid Hns Hlen He st'. repeat apply conj.
  - erewrite (exec_assign_rhs (SSAValue id)); [| exact He | intros w0; reflexivity].
    cbn [s_lam]. rewrite bind_ret, Hlam.
    rewrite (bind_ok _ _ _ _ _ _ (jl_linfo_nssavalues_some _ _ _ Hssa)).
    assert ((nssa <=? to_ssize id) || (to_ssize id <? 0) = false) as ->.
    { apply orb_false_iff. split; [apply Z.leb_gt | apply Z.ltb_ge]; lia. }
    cbn [jl_linfo_nslots]. rewrite bind_ret. fold (nslots li).
    rewrite (store_local_ok st l _ rhs w1 Hl) by lia.
    rewrite app_nil_r. reflexivity.
  - intros w2.
    apply (eval_ssavalue_read st' li nssa
             (<[Z.to_nat (nslots li + to_ssize id) := rhs]> l));
      [exact Hlam | exact Hssa | reflexivity | exact Hid | exact Hns |].
    apply list_lookup_insert_eq. lia.
  - intros id' w2 Hne. apply (eval_ssavalue_after_store st li l); [exact Hlam | exact Hl |].
    intros Hge. fold (nslots li). lia.
  - intros n w2. apply (eval_slot_after_store st li l); [exact Hlam | exact Hl |].
    fold (nslots li). lia.
Qed.

(** X16: an assignment to a slot whose number is in range stores the
    value of the right-hand side in [locals[n-1]]; a later read of the slot
    gives the value back (a null value reads as an unassigned slot), and
    every other slot and every SSA value reads as before. *)
Theorem slot_assignment_round_trip st li l n rhs_e rest w rhs w1 t1 :
  lam st = Some li -> locals st = Some l ->
  1 <= to_ssize n <= nslots li -> to_ssize n - 1 < Z.of_nat (length l) ->
  eval C rhs_e (Some st) w = (Ok rhs, w1, t1) ->
  let st' := {| lam := lam st;
                locals := Some (<[Z.to_nat (to_ssize n - 1) := rhs]> l);
                s_sparam_vals := s_sparam_vals st |} in
  exec_assign C (Slot n :: rhs_e :: rest) (Some st) w = (Ok (Some st'), w1, t1) /\
  (rhs <> NULL -> forall w2, eval C (Slot n) (Some st') w2 = (Ok rhs, w2, [])) /\
  (forall m w2, to_ssize m <> to_ssize n ->
     eval C (Slot m) (Some st') w2 = eval C (Slot m) (Some st) w2) /\
  (forall id w2, eval C (SSAValue id) (Some st') w2 = eval C (SSAValue id) (Some st) w2).
Proof.
  intros Hlam Hl Hn Hlen He st'. repeat apply conj.
  - erewrite (exec_assign_rhs (Slot n)); [| exact He | intros w0; reflexivity].
    cbn [s_lam]. rewrite bind_ret, Hlam.
    cbn [jl_linfo_nslots]. rewrite bind_ret. fold (nslots li).
    assert ((to_ssize n <=? nslots li) && (0 <? to_ssize n) = true) as ->.
    { apply andb_true_iff. split; [apply Z.leb_le | apply Z.ltb_lt]; lia. }
    cbn [assert]. rewrite bind_ret.
    rewrite (store_local_ok st l _ rhs w1 Hl) by lia.
    rewrite app_nil_r. reflexivity.
  - intros Hnn w2.
    rewrite (eval_slot_read st' li (<[Z.to_nat (to_ssize n - 1) := rhs]> l) n rhs);
      [| exact Hlam | reflexivity | exact Hn | apply list_lookup_insert_eq; lia].
    destruct rhs; try contradiction; reflexivity.
  - intros m w2 Hne. apply (eval_slot_after_store st li l); [exact Hlam | exact Hl |].
    intros Hm. lia.
  - intros id w2. apply (eval_ssavalue_after_store st li l); [exact Hlam | exact Hl |].
    intros Hid. fold (nslots li). lia.
Qed.

(** X17: a new-var statement for a slot in range makes the slot unassigned
    again: a later read raises the undefined-variable error that names
    [slotnames[n-1]], and the other slots and the SSA values read as
    before; nothing else happens. *)
Theorem newvar_resets_slot st li l n toplevel w :
  lam st = Some li -> locals st = Some l ->
  1 <= to_ssize n <= nslots li -> to_ssize n - 1 < Z.of_nat (length l) ->
  let st' := {| lam := lam st;
                locals := Some (<[Z.to_nat (to_ssize n - 1) := NULL]> l);
                s_sparam_vals := s_sparam_vals st |} in
  exec_stmt C (NewvarNode (Slot n)) (Some st) toplevel w = (Ok (Next, Some st'), w, []) /\
  (forall name w2,
     slotnames li !! Z.to_nat (to_ssize n - 1) = Some name ->
     eval C (Slot n) (Some st') w2 =
     (Throw (UndefVarError name), set_exception (UndefVarError name) w2, [])) /\
  (forall m w2, to_ssize m <> to_ssize n ->
     eval C (Slot m) (Some st') w2 = eval C (Slot m) (Some st) w2) /\
  (forall id w2, eval C (SSAValue id) (Some st') w2 = eval C (SSAValue id) (Some st) w2).
Proof.
  intros Hlam Hl Hn Hlen st'. repeat apply conj.
  - cbn [exec_stmt s_lam]. rewrite bind_ret, Hlam.
    cbn [jl_linfo_nslots]. rewrite bind_ret. fold (nslots li).
    assert ((to_ssize n <=? nslots li) && (0 <? to_ssize n) = true) as ->.
    { apply andb_true_iff. split; [apply Z.leb_le | apply Z.ltb_lt]; lia. }
    cbn [assert]. rewrite bind_ret.
    assert (0 <= to_ssize n - 1 < Z.of_nat (length l)) as Hi by lia.
    rewrite (bind_ok _ _ _ _ _ _ (store_local_ok st l _ NULL w Hl Hi)).
    reflexivity.
  - intros name w2 Hname.
    rewrite (eval_slot_read st' li (<[Z.to_nat (to_ssize n - 1) := NULL]> l) n NULL);
      [| exact Hlam | reflexivity | exact Hn | apply list_lookup_insert_eq; lia].
    cbn [is_null].
    assert (0 <= to_ssize n - 1) as Hge by lia.
    rewrite (bind_ok _ _ _ _ _ _ (index_some _ _ _ w2 Hge Hname)). reflexivity.
  - intros m w2 Hne. apply (eval_slot_after_store st li l); [exact Hlam | exact Hl |].
    intros Hm. lia.
  - intros id w2. apply (eval_ssavalue_after_store st li l); [exact Hlam | exact Hl |].
    intros Hid. fold (nslots li). lia.
Qed.

(** X18: the destination of an assignment is checked after the right-hand
    side was evaluated, so its effects stand when the destination is bad:
    an SSA id out of range raises "assignment to invalid GenSym location",
    a slot number out of range fails an assertion, and with no frame at
    all either destination follows the null frame pointer. *)
Theorem assignment_destination_checked_last dest rhs_e rest s w rhs w1 t1 :
  eval C rhs_e s w = (Ok rhs, w1, t1) ->
  (forall st li nssa id,
     s = Some st -> lam st = Some li -> nssavalues li = Some nssa ->
     dest = SSAValue id -> to_ssize id < 0 \/ nssa <= to_ssize id ->
     exec_assign C (dest :: rhs_e :: rest) s w =
     (Throw (ErrorException "assignment to invalid GenSym location"),
      set_exception (ErrorException "assignment to invalid GenSym location") w1, t1)) /\
  (forall st li n,
     s = Some st -> lam st = Some li ->
     dest = Slot n -> to_ssize n < 1 \/ nslots li < to_ssize n ->
     exec_assign C (dest :: rhs_e :: rest) s w = (Crash AssertionFailed, w1, t1)) /\
  (s = None -> jl_is_slot dest = true \/ (exists id, dest = SSAValue id) ->
   exec_assign C (dest :: rhs_e :: rest) s w = (Crash NullDeref, w1, t1)).
Proof.
  intros He. repeat apply conj.
  - intros st li nssa id -> Hlam Hssa -> Hbad.
    erewrite (exec_assign_rhs (SSAValue id)); [| exact He | intros w0; reflexivity].
    cbn [s_lam]. rewrite bind_ret, Hlam.
    rewrite (bind_ok _ _ _ _ _ _ (jl_linfo_nssavalues_some _ _ _ Hssa)).
    assert ((nssa <=? to_ssize id) || (to_ssize id <? 0) = true) as ->.
    { apply orb_true_iff. destruct Hbad; [right; apply Z.ltb_lt | left; apply Z.leb_le]; lia. }
    cbn. rewrite app_nil_r. reflexivity.
  - intros st li n -> Hlam -> Hbad.
    erewrite (exec_assign_rhs (Slot n)); [| exact He | intros w0; reflexivity].
    cbn [s_lam]. rewrite bind_ret, Hlam.
    cbn [jl_linfo_nslots]. rewrite bind_ret. fold (nslots li).
    assert ((to_ssize n <=? nslots li) && (0 <? to_ssize n) = false) as ->.
    { apply andb_false_iff.
      destruct Hbad; [right; apply Z.ltb_ge | left; apply Z.leb_gt]; lia. }
    cbn. rewrite app_nil_r. reflexivity.
  - intros -> [Hs | [id ->]].
    + destruct dest; try discriminate Hs.
      erewrite (exec_assign_rhs (Slot n)); [| exact He | intros w0; reflexivity].
      cbn. rewrite app_nil_r. reflexivity.
    + erewrite (exec_assign_rhs (SSAValue id)); [| exact He | intros w0; reflexivity].
      cbn. rewrite app_nil_r. reflexivity.
Qed.

(** X19: an assignment to a global reference or to a bare symbol keeps the
    locals as they are, asks [jl_get_binding_wr] for the binding and then
    makes the checked assignment of the value of the right-hand side; the
    module is the module of the reference, resp. the module of unqualified
    names read once the right-hand side has been evaluated. *)
Theorem global_assignment s w rhs_e rest rhs w1 t1 :
  eval C rhs_e s w = (Ok rhs, w1, t1) ->
  forall dest m name,
    (dest = GlobalRef m name \/
     (dest = Symbol name /\
      m = current_module_of (match s with None => None | Some st => lam st end) w1)) ->
    forall b w2,
      jl_get_binding_wr C m (Symbol name) w1 = (Ok b, w2) ->
      exists w3,
        exec_assign C (dest :: rhs_e :: rest) s w =
        (match fst (jl_checked_assignment C b rhs w2) with
         | Ok _ => Ok s
         | Throw e => Throw e
         | Crash c => Crash c
         end, w3,
         t1 ++ [EvGetBindingWr m (Symbol name); EvCheckedAssignment b rhs]).
Proof.
  intros He dest m name Hd b w2 Hb.
  assert (exists w3,
            bind (call (EvGetBindingWr m (Symbol name))
                       (jl_get_binding_wr C m (Symbol name)))
                 (fun b => bind (call (EvCheckedAssignment b rhs)
                                      (jl_checked_assignment C b rhs))
                                (fun _ => ret s)) w1 =
            (match fst (jl_checked_assignment C b rhs w2) with
             | Ok _ => Ok s
             | Throw e => Throw e
             | Crash c => Crash c
             end, w3, [EvGetBindingWr m (Symbol name); EvCheckedAssignment b rhs]))
    as [w3 Hk].
  { unfold bind, call. rewrite Hb.
    destruct (jl_checked_assignment C b rhs w2) as [[u | e | c] w3];
      eexists; reflexivity. }
  exists w3. destruct Hd as [-> | [-> ->]].
  - erewrite (exec_assign_rhs (GlobalRef m name));
      [| exact He | intros w0; reflexivity].
    rewrite bind_get_world. cbn [jl_is_symbol assert]. rewrite bind_ret.
    rewrite Hk. reflexivity.
  - erewrite (exec_assign_rhs (Symbol name));
      [| exact He | intros w0; reflexivity].
    rewrite bind_get_world. cbn [jl_is_symbol assert]. rewrite bind_ret.
    rewrite Hk. reflexivity.
Qed.

(** ** Throws and the exception in transit *)

Lemma rt_ret {A} (a : A) : records_throw (host := host) (ret a).
Proof. intros w e w' t H. discriminate H. Qed.

Lemma rt_crash {A} f : records_throw (host := host) (A := A) (crash f).
Proof. intros w e w' t H. discriminate H. Qed.

Lemma rt_get_world : records_throw (host := host) get_world.
Proof. intros w e w' t H. discriminate H. Qed.

Lemma rt_modify g : records_throw (host := host) (modify g).
Proof. intros w e w' t H. discriminate H. Qed.

Lemma rt_assert b : records_throw (host := host) (assert b).
Proof. destruct b; [apply rt_ret | apply rt_crash]. Qed.

Lemma rt_throw {A} e : records_throw (host := host) (A := A) (jl_throw e).
Proof. intros w x w' t H. inversion H. reflexivity. Qed.

Lemma rt_call {A} ev (f : world host -> outcome A * world host) :
  records_throw (call ev f).
Proof.
  intros w x w' t. unfold call.
  destruct (f w) as [[a | e | c] w1]; intros H; inversion H; reflexivity.
Qed.

Lemma rt_bind {A B} (m : M host A) (k : A -> M host B) :
  records_throw m -> (forall a, records_throw (k a)) -> records_throw (bind m k).
Proof.
  intros Hm Hk w e w' t. unfold bind.
  destruct (m w) as [[[a | x | c] w1] t1] eqn:E.
  - destruct (k a w1) as [[r w2] t2] eqn:E2. intros H. inversion H; subst.
    exact (Hk _ _ _ _ _ E2).
  - intros H. inversion H; subst. exact (Hm _ _ _ _ E).
  - discriminate.
Qed.

Lemma rt_JL_TRY {A} (body : M host A) handler :
  (forall e, records_throw (handler e)) -> records_throw (JL_TRY body handler).
Proof.
  intros Hh w e w' t. unfold JL_TRY.
  destruct (body w) as [[[a | x | c] w1] t1]; try discriminate.
  destruct (handler x w1) as [[r w2] t2] eqn:E2. intros H. inversion H; subst.
  exact (Hh _ _ _ _ _ E2).
Qed.

Ltac rt_step :=
  first
    [ assumption
    | apply rt_ret | apply rt_crash | apply rt_get_world | apply rt_modify
    | apply rt_assert | apply rt_throw | apply rt_call
    | apply rt_bind; [| intros ?]
    | apply rt_JL_TRY; intros ?
    | match goal with
      | |- records_throw (match ?x with _ => _ end) => destruct x
      end ].

Ltac rt_with unfolding := repeat first [rt_step | progress unfolding].

Ltac rt_prims :=
  unfold jl_error, jl_undefined_var_error, jl_type_error_rt, jl_rethrow,
    assert_tag, index, unbox_long, symbol_name, exprarg, s_lam, s_locals, read_local,
    jl_linfo_nslots, jl_linfo_nssavalues, store_local, jl_pop_handler,
    check_can_assign_type, jl_set_datatype_super, jl_eval_global_var,
    typedef_rollback, typedef_commit, typedef_bind, eval_ssavalue, eval_slot.

Ltac rt := rt_with rt_prims.

Lemma rt_sequenceM {A} (ms : list (M host A)) :
  Forall records_throw ms -> records_throw (sequenceM ms).
Proof. induction 1; cbn [sequenceM]; rt. Qed.

Lemma rt_set_fields v ms :
  Forall records_throw ms -> forall i, records_throw (set_fields C v i ms).
Proof. induction 1; intros i; cbn [set_fields]; rt. apply IHForall. Qed.

Lemma rt_declare_globals modu args : records_throw (declare_globals C modu args).
Proof. induction args; cbn [declare_globals]; rt. Qed.

Lemma rt_check_unbound para : records_throw (host := host) (check_unbound para).
Proof. induction para as [| a para IH]; cbn [check_unbound]; [rt | destruct a; rt]. Qed.

Lemma rt_check_field_types dt elts : records_throw (check_field_types C dt elts).
Proof.
  induction elts as [| a elts IH]; cbn [check_field_types]; [rt | destruct a; rt].
Qed.

Lemma rt_eval_arg (evs : list (M host jl_value)) k :
  Forall records_throw evs -> records_throw (eval_arg evs k).
Proof.
  intros H. unfold eval_arg. destruct (evs !! k) eqn:E; [| apply rt_crash].
  exact (Forall_lookup_1 _ _ _ _ H E).
Qed.

Lemma rt_eval_expr args evs modu head s :
  Forall records_throw evs -> records_throw (eval_expr C args evs modu head s).
Proof.
  intros H.
  assert (Forall records_throw (tail evs)) as Ht.
  { destruct H; [constructor | assumption]. }
  unfold eval_expr.
  repeat first
    [ rt_step
    | apply rt_eval_arg; exact H
    | apply rt_sequenceM
    | apply rt_set_fields
    | apply rt_declare_globals
    | apply rt_check_unbound
    | apply rt_check_field_types
    | progress rt_prims
    | progress unfold do_call, do_invoke, eval_new, eval_static_parameter, arg,
        eval_method, eval_const, eval_global, eval_abstracttype,
        abstracttype_prelude, abstracttype_protected, eval_bitstype,
        bitstype_prelude, bitstype_nbits, bitstype_define, bitstype_protected,
        eval_compositetype, compositetype_prelude, compositetype_protected,
        compositetype_layout, eval_error ].
Qed.

(** Whatever [eval] throws is the exception in transit afterwards. *)
Lemma eval_records_throw : forall e s, records_throw (eval C e s).
Proof.
  fix IH 1. intros e s. destruct e; try (cbn [eval]; rt; fail).
  cbn [eval]. apply rt_bind; [apply rt_get_world | intros w].
  apply rt_eval_expr.
  refine ((fix aux (l : list jl_value)
             : Forall records_throw (List.map (fun a => eval C a s) l) :=
             match l with
             | [] => List.Forall_nil _
             | a :: l' => List.Forall_cons _ _ _ (IH a s) (aux l')
             end) args).
Qed.

Lemma exec_stmt_records_throw stmt s toplevel :
  records_throw (exec_stmt C stmt s toplevel).
Proof.
  unfold exec_stmt.
  destruct stmt;
    repeat first
      [ apply eval_records_throw | rt_step | progress rt_prims
      | progress unfold exec_assign, exec_goto_ifnot ].
Qed.

Lemma catch_throw_records_throw resume ns args depth :
  (forall s j (w : world host) x s' w' t,
     resume s j w = Some (Throw x, s', w', t) -> jl_exception_in_transit w' = x) ->
  forall n fresh r x s' w' t,
    (forall x0 s0 w0 t0,
       r = Some (Throw x0, s0, w0, t0) -> jl_exception_in_transit w0 = x0) ->
    catch_throw resume ns args depth n fresh r = Some (Throw x, s', w', t) ->
    jl_exception_in_transit w' = x.
Proof.
  intros Hres.
  assert (records_throw (host := host)
            (bind (exprarg args 0) (fun a0 => unbox_long a0))) as Hlabel by rt.
  induction n as [| n IH]; intros fresh r x s' w' t Hr H;
    (destruct r as [[[[[v | e | c] s1] w1] t1] |]; cbn [catch_throw] in H;
     [discriminate H | | discriminate H | discriminate H]);
    (destruct (Nat.ltb depth (eh_depth w1)); [discriminate H |]);
    (destruct (Nat.ltb (eh_depth w1) depth);
     [inversion H; subst; exact (Hr _ _ _ _ eq_refl) |]);
    (destruct (negb fresh); [discriminate H |]);
    destruct (bind (exprarg args 0) (fun a0 => unbox_long a0) w1)
      as [[[label | e2 | c2] w2] t2] eqn:E2;
    try discriminate H;
    try (inversion H; subst; exact (Hlabel _ _ _ _ E2)).
  cbv zeta in H. apply after_some in H.
  destruct H as (o & s2 & w3 & t3 & H & Hx). inversion Hx; subst.
  refine (IH _ _ _ _ _ _ _ H).
  intros x0 s0 w0 t0 H0. exact (Hres _ _ _ _ _ _ _ H0).
Qed.

Lemma eval_body_loop_records_throw fuel :
  forall stmts s i toplevel w x s' w' t,
    eval_body_loop C fuel stmts s i toplevel w = Some (Throw x, s', w', t) ->
    jl_exception_in_transit w' = x.
Proof.
  induction fuel as [| fuel IH]; intros stmts s i toplevel w x s' w' t H;
    cbn [eval_body_loop] in H; [discriminate H |].
  destruct (Z.of_nat (length stmts) <=? i).
  { inversion H. reflexivity. }
  destruct (stmts !! Z.to_nat i) as [stmt |]; [| discriminate H].
  destruct (enter_args stmt) as [args |].
  - cbv zeta in H. refine (catch_throw_records_throw _ _ _ _ _ _ _ _ _ _ _ _ _ H).
    + intros s1 j w1 x1 s2 w2 t2 H1. exact (IH _ _ _ _ _ _ _ _ _ H1).
    + intros x0 s0 w0 t0 H0. exact (IH _ _ _ _ _ _ _ _ _ H0).
  - destruct (exec_stmt C stmt s toplevel w) as [[[[c s1] | e | c] w1] t1] eqn:E.
    + destruct c as [| j | v].
      * destruct (eval_body_loop C fuel stmts s1 (to_size (i + 1)) toplevel w1)
          as [[[[o s2] w3] t3] |] eqn:E3; cbn [after] in H; [| discriminate H].
        inversion H; subst. exact (IH _ _ _ _ _ _ _ _ _ E3).
      * destruct (eval_body_loop C fuel stmts s1 j toplevel w1)
          as [[[[o s2] w3] t3] |] eqn:E3; cbn [after] in H; [| discriminate H].
        inversion H; subst. exact (IH _ _ _ _ _ _ _ _ _ E3).
      * discriminate H.
    + inversion H; subst. exact (exec_stmt_records_throw _ _ _ _ _ _ _ E).
    + discriminate H.
Qed.

Lemma rt_copy_args n :
  forall i li args na locals,
    records_throw (host := host) (copy_args n i li args na locals).
Proof.
  induction n as [| n IH]; intros i li args na locals; cbn [copy_args];
    [apply rt_ret |].
  apply rt_bind; [unfold jl_f_tuple; rt | intros v].
  destruct (Z.of_nat (length locals) <=? i); [apply rt_crash | apply IH].
Qed.

(** X20: whatever the interpreter throws is the exception in transit when
    the throw leaves it, so a handler that evaluates [the_exception] gets
    the thrown value: this holds for [eval], for
    [jl_interpret_toplevel_expr_in] (whose handler restores the modules and
    throws again), for a run of a body and for [jl_interpret_call], with
    every behaviour of the runtime functions they call. *)
Theorem thrown_exception_is_in_transit :
  (forall e s w x w' t,
     eval C e s w = (Throw x, w', t) ->
     jl_exception_in_transit w' = x /\
     forall s', eval C (Expr exc_sym []) s' w' = (Ok x, w', [])) /\
  (forall m e lm w x w' t,
     jl_interpret_toplevel_expr_in C m e lm w = (Throw x, w', t) ->
     jl_exception_in_transit w' = x) /\
  (forall fuel stmts s i toplevel w x s' w' t,
     eval_body_loop C fuel stmts s i toplevel w = Some (Throw x, s', w', t) ->
     jl_exception_in_transit w' = x) /\
  (forall fuel li args nargs sparams w x w' t,
     jl_interpret_call C fuel li args nargs sparams w = Some (Throw x, w', t) ->
     jl_exception_in_transit w' = x).
Proof.
  repeat apply conj.
  - intros e s w x w' t H. pose proof (eval_records_throw _ _ _ _ _ _ H) as Hx.
    split; [exact Hx |]. intros s'. rewrite eval_Expr.
    change (eval_expr C [] _ _ exc_sym s' w')
      with (bind get_world (fun w => ret (jl_exception_in_transit w)) w').
    rewrite bind_get_world, Hx. reflexivity.
  - intros m e lm.
    assert (records_throw (jl_interpret_toplevel_expr_in C m e lm)) as Hr.
    { unfold jl_interpret_toplevel_expr_in.
      repeat first [apply eval_records_throw | rt_step | progress rt_prims]. }
    exact Hr.
  - intros fuel. apply eval_body_loop_records_throw.
  - intros fuel li args na sparams w x w' t. unfold jl_interpret_call.
    match goal with
    | |- context [match ?p w with _ => _ end] =>
        assert (records_throw p) as Hp; [| destruct (p w) as [[[[st ls] | e | c] w1] t1] eqn:E]
    end.
    + destruct (code li);
        repeat first [ apply rt_copy_args | rt_step | progress rt_prims
                     | progress unfold JL_GC_PUSHARGS ].
    + unfold eval_body.
      destruct (eval_body_loop C fuel st _ (to_size 0) (lam_nargs li =? 0) w1)
        as [[[[o s2] w2] t2] |] eqn:E2; [| discriminate].
      intros H. inversion H; subst.
      exact (eval_body_loop_records_throw _ _ _ _ _ _ _ _ _ _ E2).
    + intros H. inversion H; subst. exact (Hp _ _ _ _ E).
    + discriminate.
Qed.


(** ** The frame of a body *)

Lemma en_ret {A} (Q : A -> Prop) a : Q a -> ensures (host := host) Q (ret a).
Proof. intros H w x w' t E. inversion E; subst. exact H. Qed.

Lemma en_crash {A} (Q : A -> Prop) f : ensures (host := host) Q (crash f).
Proof. intros w x w' t E. discriminate E. Qed.

Lemma en_throw {A} (Q : A -> Prop) e : ensures (host := host) Q (jl_throw e).
Proof. intros w x w' t E. discriminate E. Qed.

Lemma en_any {A} (m : M host A) : ensures (fun _ => True) m.
Proof. intros w x w' t E. exact I. Qed.

Lemma en_bind {A B} (Q1 : A -> Prop) (Q : B -> Prop) (m : M host A) k :
  ensures Q1 m -> (forall a, Q1 a -> ensures Q (k a)) -> ensures Q (bind m k).
Proof.
  intros Hm Hk w b w' t E. apply bind_inv_ok in E.
  destruct E as (a & w1 & t1 & t2 & Em & Ek & _).
  exact (Hk a (Hm _ _ _ _ Em) _ _ _ _ Ek).
Qed.

Lemma store_local_frame_shape s i v :
  ensures (host := host) (fun s' => frame_shape s' = frame_shape s) (store_local s i v).
Proof.
  unfold store_local. destruct s as [st |]; [| apply en_crash].
  destruct (locals st) as [l |] eqn:Hl; [| apply en_crash].
  destruct ((i <? 0) || (Z.of_nat (length l) <=? i)); [apply en_crash |].
  apply en_ret. cbn [frame_shape lam locals s_sparam_vals].
  rewrite Hl, length_insert. reflexivity.
Qed.

Ltac en_skip := apply (en_bind (fun _ => True)); [apply en_any | intros ? _].

Ltac en_step :=
  first
    [ apply en_crash | apply en_throw
    | apply store_local_frame_shape
    | apply en_ret; reflexivity
    | en_skip
    | match goal with
      | |- ensures _ (match ?x with _ => _ end) => destruct x
      end ].

Lemma exec_assign_frame_shape args s :
  ensures (fun s' => frame_shape s' = frame_shape s) (exec_assign C args s).
Proof.
  unfold exec_assign. do 3 en_skip.
  match goal with |- ensures _ (match ?x with _ => _ end) => destruct x end;
    repeat first [en_step | progress unfold jl_error].
Qed.

Lemma exec_stmt_frame_shape stmt s toplevel :
  ensures (fun r : control * option interpreter_state =>
               frame_shape (snd r) = frame_shape s) (exec_stmt C stmt s toplevel).
Proof.
  unfold exec_stmt.
  assert (forall A (m : M host A) c,
             ensures (fun r : control * option interpreter_state =>
               frame_shape (snd r) = frame_shape s)
                     (bind m (fun _ => ret (c, s)))) as Hsame.
  { intros A m c. en_skip. apply en_ret. reflexivity. }
  assert (forall (m : M host (option interpreter_state)) c,
             ensures (fun s' => frame_shape s' = frame_shape s) m ->
             ensures (fun r : control * option interpreter_state =>
               frame_shape (snd r) = frame_shape s)
                     (bind m (fun s' => ret (c, s')))) as Hstore.
  { intros m c Hm. apply (en_bind _ _ _ _ Hm). intros a Ha. apply en_ret. exact Ha. }
  destruct stmt; try apply Hsame.
  - apply en_ret. reflexivity.
  - match goal with |- ensures _ (match ?x with _ => _ end) => destruct x end;
      try apply en_crash.
    do 3 en_skip. apply Hstore. apply store_local_frame_shape.
  - destruct (String.eqb head return_sym).
    { do 2 en_skip. apply en_ret. reflexivity. }
    destruct (String.eqb head assign_sym).
    { apply Hstore. apply exec_assign_frame_shape. }
    destruct (String.eqb head goto_ifnot_sym).
    { en_skip. apply en_ret. reflexivity. }
    destruct (String.eqb head line_sym); [apply Hsame |].
    destruct (String.eqb head leave_sym).
    { do 3 en_skip. apply en_ret. reflexivity. }
    destruct (toplevel && jl_is_toplevel_only_expr C (Expr head args)); apply Hsame.
Qed.

Lemma catch_throw_frame_shape resume ns args depth s :
  (forall s1 j (w : world host) o s2 w2 t,
     resume s1 j w = Some (o, s2, w2, t) -> frame_shape s2 = frame_shape s1) ->
  forall n fresh r o s' w' t,
    (forall o0 s0 w0 t0, r = Some (o0, s0, w0, t0) -> frame_shape s0 = frame_shape s) ->
    catch_throw resume ns args depth n fresh r = Some (o, s', w', t) ->
    frame_shape s' = frame_shape s.
Proof.
  intros Hres.
  induction n as [| n IH]; intros fresh r o s' w' t Hr H;
    (destruct r as [[[[[v | e | c] s1] w1] t1] |]; cbn [catch_throw] in H;
     [ inversion H; subst; exact (Hr _ _ _ _ eq_refl)
     |
     | inversion H; subst; exact (Hr _ _ _ _ eq_refl)
     | discriminate H ]);
    pose proof (Hr _ _ _ _ eq_refl) as H1;
    (destruct (Nat.ltb depth (eh_depth w1)); [inversion H; subst; exact H1 |]);
    (destruct (Nat.ltb (eh_depth w1) depth); [inversion H; subst; exact H1 |]);
    (destruct (negb fresh); [inversion H; subst; exact H1 |]);
    destruct (bind (exprarg args 0) (fun a0 => unbox_long a0) w1)
      as [[[label | e2 | c2] w2] t2];
    try discriminate H; try (inversion H; subst; exact H1).
  cbv zeta in H. apply after_some in H.
  destruct H as (o2 & s2 & w3 & t3 & H & Hx). inversion Hx; subst.
  refine (IH _ _ _ _ _ _ _ H).
  intros o0 s0 w0 t0 H0. rewrite (Hres _ _ _ _ _ _ _ H0). exact H1.
Qed.

(** X22: a run of a body keeps the frame it was given: the lambda info,
    the static parameters and the number of locals of the frame it ends
    with are those it started with, whatever the statements do and however
    the run ends; so a body run by [jl_toplevel_eval_body], which has no
    frame, ends with none. *)
Theorem body_keeps_its_frame fuel :
  (forall stmts s i toplevel w o s1 w1 t,
     eval_body_loop C fuel stmts s i toplevel w = Some (o, s1, w1, t) ->
     frame_shape s1 = frame_shape s) /\
  (forall stmts w o s1 w1 t,
     jl_toplevel_eval_body C fuel stmts w = Some (o, s1, w1, t) -> s1 = None).
Proof.
  assert (forall stmts s i toplevel w o s1 w1 t,
             eval_body_loop C fuel stmts s i toplevel w = Some (o, s1, w1, t) ->
             frame_shape s1 = frame_shape s) as Hloop.
  { induction fuel as [| fuel IH]; intros stmts s i toplevel w o s' w' t H;
      cbn [eval_body_loop] in H; [discriminate H |].
    destruct (Z.of_nat (length stmts) <=? i).
    { inversion H. reflexivity. }
    destruct (stmts !! Z.to_nat i) as [stmt |]; [| inversion H; reflexivity].
    destruct (enter_args stmt) as [args |].
    - cbv zeta in H. refine (catch_throw_frame_shape _ _ _ _ _ _ _ _ _ _ _ _ _ _ H).
      + intros s1 j w1 o1 s2 w2 t2 H1. exact (IH _ _ _ _ _ _ _ _ _ H1).
      + intros o0 s0 w0 t0 H0. exact (IH _ _ _ _ _ _ _ _ _ H0).
    - destruct (exec_stmt C stmt s toplevel w) as [[[[c s1] | e | c] w1] t1] eqn:E.
      + pose proof (exec_stmt_frame_shape _ _ _ _ _ _ _ E) as H1. cbn [snd] in H1.
        destruct c as [| j | v].
        * destruct (eval_body_loop C fuel stmts s1 (to_size (i + 1)) toplevel w1)
            as [[[[o2 s2] w3] t3] |] eqn:E3; cbn [after] in H; [| discriminate H].
          inversion H; subst. rewrite (IH _ _ _ _ _ _ _ _ _ E3). exact H1.
        * destruct (eval_body_loop C fuel stmts s1 j toplevel w1)
            as [[[[o2 s2] w3] t3] |] eqn:E3; cbn [after] in H; [| discriminate H].
          inversion H; subst. rewrite (IH _ _ _ _ _ _ _ _ _ E3). exact H1.
        * inversion H; subst. exact H1.
      + inversion H; subst. reflexivity.
      + inversion H; subst. reflexivity. }
  split; [exact Hloop |].
  intros stmts w o s1 w1 t H. unfold jl_toplevel_eval_body, eval_body in H.
  apply Hloop in H. destruct s1; [discriminate H | reflexivity].
Qed.

(** X23: the loop of [eval_body] has no bound of its own: a goto whose
    label is its own statement (counted from 1) never ends, whatever the
    fuel. *)
Theorem goto_to_itself_never_returns stmts s i toplevel w label :
  0 <= i -> stmts !! Z.to_nat i = Some (GotoNode label) ->
  to_ssize label = i + 1 ->
  forall fuel, eval_body_loop C fuel stmts s i toplevel w = None.
Proof.
  intros Hi Hf Hl fuel. induction fuel as [| fuel IH]; [reflexivity |].
  rewrite (eval_body_loop_stmt _ _ _ _ _ _ _ Hi Hf eq_refl).
  rewrite exec_stmt_goto, Hl.
  replace (i + 1 - 1) with i by lia.
  rewrite to_size_small.
  - rewrite IH. reflexivity.
  - pose proof (to_ssize_range label) as Hr.
    change (2 ^ 63) with 9223372036854775808 in Hr.
    change (2 ^ 64) with 18446744073709551616. lia.
Qed.

(** ** Method definitions, thunks, and the equivalence of types *)

Lemma call_ok {A} ev (f : world host -> outcome A * world host) w a w1 :
  f w = (Ok a, w1) -> call ev f w = (Ok a, w1, [ev]).
Proof. intros H. unfold call. rewrite H. reflexivity. Qed.

(** X24: a [method] expression whose only argument is a symbol declares the
    generic function of that name in the module of unqualified names and
    returns it, evaluating nothing; with a single argument that is not a
    symbol the assertion of line 232 fails, and it reads the type tag of a
    null one; with a null first argument and three more the test of line
    234 reads the type tag of the null pointer; and with a first argument
    that is neither null nor a symbol and three more, no generic function
    is looked up: the signature and the method are evaluated, in that
    order, and handed to [jl_method_def]. *)
Theorem method_declares_generic_function s w :
  let m := current_module_of (match s with None => None | Some st => lam st end) w in
  (forall name b w1 gf w2,
     jl_get_binding_for_method_def C m (Symbol name) w = (Ok b, w1) ->
     jl_generic_function_def C (Symbol name) b m w1 = (Ok gf, w2) ->
     eval C (Expr method_sym [Symbol name]) s w =
     (Ok gf, w2,
      [EvGetBindingForMethodDef m (Symbol name); EvGenericFunctionDef (Symbol name) b])) /\
  (forall f, jl_is_symbol f = false ->
     eval C (Expr method_sym [f]) s w =
     (Crash (if is_null f then NullDeref else AssertionFailed), w, [])) /\
  (forall a mth x rest,
     eval C (Expr method_sym (NULL :: a :: mth :: x :: rest)) s w =
     (Crash NullDeref, w, [])) /\
  (forall f a mth x rest, f <> NULL -> jl_is_symbol f = false ->
     eval C (Expr method_sym (f :: a :: mth :: x :: rest)) s w =
     bind (eval C a s)
          (fun atypes =>
             bind (eval C mth s)
                  (fun meth =>
                     bind (call (EvMethodDef atypes meth x) (jl_method_def C atypes meth x))
                          (fun _ => ret jl_nothing))) w).
Proof.
  intros m.
  assert (forall (f a mth x : jl_value) rest,
             (Z.of_nat (length (f :: a :: mth :: x :: rest)) =? 1) = false) as Hfour.
  { intros f a mth x rest. apply Z.eqb_neq. cbn [length]. lia. }
  repeat apply conj.
  - intros name b w1 gf w2 Hb Hg. rewrite eval_Expr. fold m.
    change (eval_expr C ?a ?e m method_sym s w) with (eval_method C a e m w).
    unfold eval_method, arg, expr_nargs, assert_tag.
    cbn [lookup list_lookup length]. rewrite bind_ret.
    change (Z.of_nat 1 =? 1) with true. cbv iota.
    unfold is_null, jl_is_symbol. cbv iota. cbn [assert]. rewrite !bind_ret.
    rewrite bind_assoc, (bind_ok _ _ _ _ _ _ (call_ok _ _ _ _ _ Hb)).
    rewrite bind_assoc, (bind_ok _ _ _ _ _ _ (call_ok _ _ _ _ _ Hg)).
    rewrite !bind_ret. reflexivity.
  - intros f Hf. rewrite eval_Expr. fold m.
    change (eval_expr C ?a ?e m method_sym s w) with (eval_method C a e m w).
    unfold eval_method, arg, expr_nargs, assert_tag.
    cbn [lookup list_lookup length].
    change (Z.of_nat 1 =? 1) with true.
    rewrite bind_ret, Hf. destruct (is_null f); reflexivity.
  - intros a mth x rest. rewrite eval_Expr. fold m.
    change (eval_expr C ?a ?e m method_sym s w) with (eval_method C a e m w).
    unfold eval_method, arg, expr_nargs.
    cbn [lookup list_lookup]. rewrite bind_ret, Hfour. rewrite bind_ret.
    reflexivity.
  - intros f a mth x rest Hnull Hf. rewrite eval_Expr. fold m.
    change (eval_expr C ?a ?e m method_sym s w) with (eval_method C a e m w).
    unfold eval_method, arg, expr_nargs, eval_arg.
    cbn [lookup list_lookup List.map].
    rewrite bind_ret, Hfour, Hf.
    assert (is_null f = false) as -> by (destruct f; try reflexivity; contradiction).
    rewrite !bind_ret.
    unfold bind, ret. cbv beta iota. destruct (eval C a s w)
      as [[[atypes | e | c] w1] t1]; try reflexivity.
    destruct (eval C mth s w1) as [[[meth | e | c] w2] t2]; try reflexivity.
    destruct (call (EvMethodDef atypes meth x) (jl_method_def C atypes meth x) w2)
      as [[[u | e | c] w3] t3]; reflexivity.
Qed.

(** X25: [jl_interpret_toplevel_thunk] runs the body of a lambda without
    formals at top level, in a frame of its own whose slots and SSA values
    are all unassigned and which has no static parameters; a lambda that
    has a formal to fill reads an argument where there is none. *)
Theorem toplevel_thunk_frame fuel li stmts nssa w :
  code li = ArrayAny stmts -> nssavalues li = Some nssa ->
  0 <= nslots li + nssa < 2 ^ 31 ->
  (nargs li = 0 ->
   jl_interpret_toplevel_thunk C fuel li w =
   match eval_body C fuel stmts
           (Some {| lam := Some li;
                    locals := Some (replicate (Z.to_nat (nslots li + nssa)) NULL);
                    s_sparam_vals := None |}) 0 true w with
   | None => None
   | Some (r, _, w2, t2) => Some (r, w2, t2)
   end) /\
  (0 < nargs li < 2 ^ 31 -> isva li = false \/ 1 < nargs li ->
   jl_interpret_toplevel_thunk C fuel li w = Some (Crash OutOfBounds, w, [])).
Proof.
  intros Hcode Hssa Hsum.
  assert (forall k : list jl_value -> M host (list jl_value * list jl_value),
             bind (jl_linfo_nslots (Some li))
                  (fun nsl => bind (jl_linfo_nssavalues (Some li))
                     (fun nssa => bind (JL_GC_PUSHARGS (to_int (nsl + nssa))) k)) w =
             k (replicate (Z.to_nat (nslots li + nssa)) NULL) w) as Hprep.
  { intros k. cbn [jl_linfo_nslots]. rewrite bind_ret. fold (nslots li).
    rewrite (bind_ok _ _ _ _ _ _ (jl_linfo_nssavalues_some _ _ _ Hssa)).
    cbv beta iota. unfold JL_GC_PUSHARGS.
    rewrite (to_int_small (nslots li + nssa))
      by (change (2 ^ 31) with 2147483648 in *; lia).
    assert ((nslots li + nssa <? 0) = false) as -> by (apply Z.ltb_ge; lia).
    rewrite bind_ret. destruct (k _ w) as [[r w2] t2]. reflexivity. }
  split.
  - intros Hn. unfold jl_interpret_toplevel_thunk, jl_interpret_call.
    rewrite Hcode, Hprep. unfold lam_nargs. rewrite Hn.
    change (Z.to_nat (to_size (to_int 0))) with O. cbn [copy_args].
    rewrite bind_ret. reflexivity.
  - intros Hn Hva. unfold jl_interpret_toplevel_thunk, jl_interpret_call.
    rewrite Hcode, Hprep.
    assert (lam_nargs li = nargs li) as Hln.
    { unfold lam_nargs. apply to_int_small.
      change (2 ^ 31) with 2147483648 in *. lia. }
    rewrite Hln.
    assert (to_size (nargs li) = nargs li) as Hsz.
    { apply to_size_small. change (2 ^ 31) with 2147483648 in *.
      change (2 ^ 64) with 18446744073709551616. lia. }
    rewrite Hsz.
    destruct (Z.to_nat (nargs li)) as [| n] eqn:En; [lia |].
    cbn [copy_args]. rewrite Hln.
    assert (isva li && (0 =? to_size (to_int (nargs li - 1))) = false) as ->.
    { destruct Hva as [-> | H1]; [reflexivity |].
      apply andb_false_iff. right. apply Z.eqb_neq.
      rewrite to_int_small by (change (2 ^ 31) with 2147483648 in *; lia).
      rewrite to_size_small; [lia |].
      change (2 ^ 31) with 2147483648 in *.
      change (2 ^ 64) with 18446744073709551616. lia. }
    reflexivity.
Qed.

(** X26: the test [equiv_type] that lets a type be defined again is
    symmetric and transitive between datatypes as soon as [jl_egal] is and
    the empty vector is equal to itself only, although it looks at the
    parameters of its first argument alone; and it holds of a datatype and
    itself only when the datatype has no parameters. *)
Theorem equiv_type_partial_equivalence w :
  (forall x y, jl_egal C w x y = true -> jl_egal C w y x = true) ->
  (forall x y z, jl_egal C w x y = true -> jl_egal C w y z = true ->
                 jl_egal C w x z = true) ->
  (forall p, jl_egal C w jl_emptysvec p = true -> p = jl_emptysvec) ->
  (forall a b, equiv_type C w a (DataType b) = true ->
               equiv_type C w b (DataType a) = true) /\
  (forall a b c, equiv_type C w a (DataType b) = true ->
                 equiv_type C w b (DataType c) = true ->
                 equiv_type C w a (DataType c) = true) /\
  (forall a, equiv_type C w a (DataType a) = true ->
             dt_parameters (datatypes w a) = jl_emptysvec).
Proof.
  intros Hsym Htrans Hempty. repeat apply conj.
  - intros a b H. apply equiv_type_equivalent in H.
    destruct H as (b' & Hb & Hp & Hn & Ht & Ha & Hm & Hs & Hi & Hsu & Hna & Hpa).
    inversion Hb; subst b'. apply equiv_type_equivalent. exists a.
    repeat apply conj;
      first [ reflexivity | congruence | apply Hsym; assumption
            | apply Hempty; rewrite <- Hp; exact Hpa ].
  - intros a b c H1 H2. apply equiv_type_equivalent in H1, H2.
    destruct H1 as (b' & Hb & Hp & Hn & Ht & Ha & Hm & Hs & Hi & Hsu & Hna & Hpa).
    inversion Hb; subst b'.
    destruct H2 as (c' & Hc & Hp2 & Hn2 & Ht2 & Ha2 & Hm2 & Hs2 & Hi2 & Hsu2 & Hna2 & Hpa2).
    inversion Hc; subst c'. apply equiv_type_equivalent. exists c.
    repeat apply conj;
      first [ reflexivity | assumption | congruence | eapply Htrans; eassumption ].
  - intros a H. apply equiv_type_equivalent in H.
    destruct H as (b' & Hb & Hp & _). exact Hp.
Qed.

(** X28: a static_parameter expression needs a lambda: evaluated with no
    frame, as [jl_interpret_toplevel_expr] does, it follows the null frame
    pointer, and evaluated in the frame of
    [jl_interpret_toplevel_expr_in] without a lambda info it follows the
    null lambda pointer, after the current modules were switched; neither
    raises "could not determine static parameter value". *)
Theorem static_parameter_needs_a_lambda n rest w :
  0 < to_ssize n ->
  let e := Expr static_parameter_sym (Long n :: rest) in
  jl_interpret_toplevel_expr C e w = (Crash NullDeref, w, []) /\
  (forall st, s_sparam_vals st = None -> lam st = None ->
     eval C e (Some st) w = (Crash NullDeref, w, [])) /\
  (forall m,
     jl_interpret_toplevel_expr_in C m e None w =
     (Crash NullDeref, set_modules m m w, [])).
Proof.
  intros Hn e.
  assert (forall s w0,
             eval C e s w0 =
             match s with
             | None => crash NullDeref
             | Some st =>
                 match s_sparam_vals st with
                 | Some sv => index sv (to_ssize n - 1)
                 | None =>
                     match lam st with
                     | None => crash NullDeref
                     | Some li =>
                         if to_ssize n <=? Z.of_nat (length (sparam_vals li))
                         then
                           bind (index (sparam_vals li) (to_ssize n - 1))
                                (fun sp =>
                                   if is_null sp then crash NullDeref
                                   else if negb (jl_is_typevar sp) then ret sp
                                   else jl_error
                                          "could not determine static parameter value")
                         else jl_error "could not determine static parameter value"
                     end
                 end
             end w0) as He.
  { intros s w0. unfold e. rewrite eval_Expr.
    change (eval_expr C (Long n :: rest) _ _ static_parameter_sym s)
      with (eval_static_parameter (host := host) (Long n :: rest) s).
    unfold eval_static_parameter, arg. cbn [lookup list_lookup].
    rewrite bind_ret. cbn [unbox_long jl_unbox_long]. rewrite bind_ret.
    assert ((0 <? to_ssize n) = true) as -> by (apply Z.ltb_lt; exact Hn).
    cbn [assert]. rewrite bind_ret. reflexivity. }
  repeat apply conj.
  - unfold jl_interpret_toplevel_expr. rewrite He. reflexivity.
  - intros st Hsv Hlam. rewrite He, Hsv, Hlam. reflexivity.
  - intros m. unfold jl_interpret_toplevel_expr_in.
    rewrite bind_get_world. unfold bind at 1, JL_TRY. rewrite bind_modify.
    rewrite He. reflexivity.
Qed.

End Properties.

(** * The properties at work on the small host *)

Import SmallHost.

(** The scenarios of the spec: a straight-line body returns 7, the loop
    with gotos returns 3, an unassigned slot raises the undefined-variable
    error, and the handler of an enter resumes at its label with the
    exception in transit. *)
Example scenario_straight_line :
  eval_body C0 3 straight_line (a_frame straight_line [] 1) 0 false w0 =
  Some (Ok (Long 7),
        Some {| lam := Some (a_lambda straight_line [] 1 0 false);
                locals := Some [Long 7]; s_sparam_vals := None |},
        w0, []).
Proof. reflexivity. Qed.

Example scenario_goto_loop :
  match eval_body C0 14 goto_loop (a_frame goto_loop [Symbol "x"] 0) 0 false w0 with
  | Some (r, _, _, _) => r = Ok (Long 3)
  | None => False
  end.
Proof. vm_compute. reflexivity. Qed.

Example scenario_undefined_slot :
  match eval_body C0 1 [Expr "return" [Slot 1]]
          (a_frame [Expr "return" [Slot 1]] [Symbol "x"] 0) 0 false w0 with
  | Some (r, _, _, _) => r = Throw (UndefVarError (Symbol "x"))
  | None => False
  end.
Proof. vm_compute. reflexivity. Qed.

Example scenario_try_catch :
  match eval_body C0 5 try_catch (a_frame try_catch [] 0) 0 false w0 with
  | Some (r, _, w, _) => r = Ok (Long 42) /\ eh_depth w = O
  | None => False
  end.
Proof. vm_compute. split; reflexivity. Qed.

(** The message of a syntax error ends where the string has a NUL byte. *)
Example scenario_error_message :
  eval C0 (Expr "error" [JString (String.append "a" (String Ascii.zero "b"))]) None w0 =
  (Throw (ErrorException "syntax: a"), set_exception (ErrorException "syntax: a") w0, []).
Proof. reflexivity. Qed.

(** A composite type whose field types throw, and an abstract type whose
    supertype is not a type: the binding holds its old value again. *)
Lemma typedef_failure_rolls_back_witness :
  (exists w',
     eval C0 (Expr compositetype_sym (composite_foo (Expr "error" [JString "boom"])))
       None (w_bound (DataType 7)) =
     (Throw (ErrorException "syntax: boom"), w',
      [EvNewDataType (Symbol "Foo") (SimpleVector []) (SimpleVector []) false 0;
       EvGetBindingWr O (Symbol "Foo"); EvResetInstantiateInnerTypes 5]) /\
     b_value (bindings w' 3) = DataType 7) /\
  (exists w',
     eval C0 (Expr abstracttype_sym
                [Symbol "Foo"; QuoteNode (SimpleVector []); QuoteNode (Long 3)])
       None (w_bound (DataType 7)) =
     (Throw (ErrorException "invalid subtyping in definition of Foo"), w',
      [EvNewAbstractType (Symbol "Foo") (SimpleVector []);
       EvGetBindingWr O (Symbol "Foo"); EvResetInstantiateInnerTypes 5]) /\
     b_value (bindings w' 3) = DataType 7).
Proof.
  split.
  - destruct (typedef_failure_rolls_back C0
                (composite_foo (Expr "error" [JString "boom"])) None
                (w_bound (DataType 7))) as (_ & _ & H).
    edestruct (H 5%nat 3%nat (DataType 7) (SimpleVector [])) as (_ & He & Hb).
    + vm_compute. reflexivity.
    + vm_compute. reflexivity.
    + eexists. split; [exact He | exact Hb].
  - destruct (typedef_failure_rolls_back C0
                [Symbol "Foo"; QuoteNode (SimpleVector []); QuoteNode (Long 3)] None
                (w_bound (DataType 7))) as (H & _ & _).
    edestruct (H 5%nat 3%nat (DataType 7)) as (_ & He & Hb).
    + vm_compute. reflexivity.
    + vm_compute. reflexivity.
    + eexists. split; [exact He | exact Hb].
Defined.

(** A call of a variadic lambda of one formal with two actuals: the formal
    slot holds the tuple of both and the body does not run at top level. *)
Lemma interpret_call_frame_witness :
  exists locals,
    Z.of_nat (length locals) = 1 /\
    locals !! O = Some (Tuple [Long 1; Long 2]) /\
    jl_interpret_call C0 5 variadic [Long 1; Long 2] 2 None w0 =
    match eval_body C0 5 [Expr "line" [Long 7]; Expr "return" [Slot 1]]
            (Some {| lam := Some variadic; locals := Some locals;
                     s_sparam_vals := None |}) 0 false w0 with
    | None => None
    | Some (r, _, w2, t2) => Some (r, w2, t2)
    end.
Proof.
  destruct (interpret_call_frame C0 5 variadic [Long 1; Long 2] 2 None w0
              [Expr "line" [Long 7]; Expr "return" [Slot 1]] 0)
    as (locals & Hlen & _ & Hva & _ & Hrun).
  - reflexivity.
  - reflexivity.
  - vm_compute. split; [discriminate | reflexivity].
  - vm_compute. split; discriminate.
  - reflexivity.
  - reflexivity.
  - vm_compute. discriminate.
  - exists locals. split; [exact Hlen |]. split; [| exact Hrun].
    apply Hva; [reflexivity | vm_compute; discriminate].
Defined.

(** Two calls where the code and the claim part.  A variadic lambda of
    two formals and a third slot, called with three actuals: the code
    copies the two formals and leaves the third slot absent, so reading it
    raises the undefined-variable error, where the claim copies [args[2]]
    into [locals[2]] and the body returns it.  A variadic lambda of one
    formal called with no actual: the code runs the body with [toplevel]
    false (the lambda has a formal) and leaves the line counter alone,
    where the claim has [toplevel = (nargs == 0)] true and the line
    statement sets the counter to 7. *)
Lemma interpret_call_counterexample :
  jl_interpret_call C0 5 variadic_local [Opaque 7; Long 1; Long 2] 3 None w0 <>
  interpret_call_as_claimed C0 5 variadic_local [Opaque 7; Long 1; Long 2] 3 None w0 /\
  jl_interpret_call C0 5 variadic [] 0 None w0 <>
  interpret_call_as_claimed C0 5 variadic [] 0 None w0.
Proof.
  split; intros H.
  - apply (f_equal (fun r : option (outcome jl_value * world unit * list event) =>
                      match r with
                      | Some (o, _, _) => Some o
                      | None => None
                      end)) in H.
    vm_compute in H. discriminate H.
  - apply (f_equal (fun r : option (outcome jl_value * world unit * list event) =>
                      match r with
                      | Some (_, w, _) => jl_lineno w
                      | None => 0
                      end)) in H.
    vm_compute in H. discriminate H.
Qed.

(** What the code and the claim give on those two calls. *)
Example interpret_call_on_extra_actuals :
  match jl_interpret_call C0 5 variadic_local [Opaque 7; Long 1; Long 2] 3 None w0,
        interpret_call_as_claimed C0 5 variadic_local [Opaque 7; Long 1; Long 2] 3
          None w0 with
  | Some (code, _, _), Some (claimed, _, _) =>
      code = Throw (UndefVarError (Symbol "y")) /\ claimed = Ok (Long 2)
  | _, _ => False
  end.
Proof. vm_compute. split; reflexivity. Qed.

Example interpret_call_on_no_actual :
  match jl_interpret_call C0 5 variadic [] 0 None w0,
        interpret_call_as_claimed C0 5 variadic [] 0 None w0 with
  | Some (code, w, _), Some (claimed, w', _) =>
      code = Ok (Tuple []) /\ jl_lineno w = 0 /\
      claimed = Ok (Tuple []) /\ jl_lineno w' = 7
  | _, _ => False
  end.
Proof. vm_compute. repeat split; reflexivity. Qed.

(** [goto_ifnot false 3] at statement 0 continues at statement 2. *)
Lemma goto_ifnot_branches_witness :
  eval_body_loop C0 2
    [Expr "goto_ifnot" [Bool false; Long 3]; Expr "return" [Long 1];
     Expr "return" [Long 2]] None 0 false w0 =
  Some (Ok (Long 2), None, w0, []).
Proof.
  destruct (goto_ifnot_branches C0 1
              [Expr "goto_ifnot" [Bool false; Long 3]; Expr "return" [Long 1];
               Expr "return" [Long 2]] None 0 false w0
              (Bool false) (Long 3) [] (Bool false) w0 [])
    as (H & _ & _).
  - discriminate.
  - reflexivity.
  - reflexivity.
  - reflexivity.
  - destruct (H eq_refl 3 eq_refl) as [H1 _]. rewrite H1. reflexivity.
Defined.

(** At top level in module 0, evaluating an unbound symbol in module 4
    throws and leaves both current modules at 0. *)
Lemma toplevel_expr_in_restores_modules_witness :
  exists r w' tr,
    jl_interpret_toplevel_expr_in C0 4%nat (Symbol "x") None w0 = (r, w', tr) /\
    r = Throw (UndefVarError (Symbol "x")) /\
    jl_current_module w' = O /\ task_current_module w' = O.
Proof.
  destruct (jl_interpret_toplevel_expr_in C0 4%nat (Symbol "x") None w0)
    as [[r w'] tr] eqn:E.
  exists r, w', tr. split; [reflexivity |].
  assert (r = Throw (UndefVarError (Symbol "x"))) as Hr.
  { pose proof E as E'. vm_compute in E'. inversion E'. reflexivity. }
  split; [exact Hr |].
  destruct (toplevel_expr_in_restores_modules C0 _ _ _ _ _ _ _ E) as (H1 & H2 & _).
  - intros c Hc. rewrite Hr in Hc. discriminate Hc.
  - split; [exact H1 | exact H2].
Defined.



(** [bits_type Foo 12] fails on its number of bits; [bits_type Foo 8]
    goes on to the constructor. *)
Lemma bitstype_number_of_bits_witness :
  eval C0 (Expr bitstype_sym (bits_foo 12)) None w0 =
  (Throw (ErrorException "invalid number of bits in type Foo"),
   set_exception (ErrorException "invalid number of bits in type Foo") w0, []) /\
  exists r w' t',
    eval C0 (Expr bitstype_sym (bits_foo 8)) None w0 =
    (r, w', EvNewBitsType (Symbol "Foo") (SimpleVector []) 8 :: t').
Proof.
  split.
  - destruct (bitstype_number_of_bits C0 (bits_foo 12) None w0
                (Symbol "Foo") (SimpleVector []) 12 w0 [] eq_refl)
      as (n & Hn & Hiff & _).
    inversion Hn; subst n. apply Hiff. right; right. vm_compute. discriminate.
  - destruct (bitstype_number_of_bits C0 (bits_foo 8) None w0
                (Symbol "Foo") (SimpleVector []) 8 w0 [] eq_refl)
      as (n & Hn & _ & Hgo).
    apply Hgo.
    intros [H | [H | H]];
      [vm_compute in H; discriminate H | apply H; reflexivity | apply H; reflexivity].
Defined.

(** [call 1 nothing]: the literal, then the global, then dispatch. *)
Lemma call_arguments_left_to_right_witness :
  exists w2,
    eval C0 (Expr call_sym [Long 1; Symbol "nothing"]) None w0 =
    (Ok (Tuple [Long 1; Nothing]), w2,
     [EvGetGlobal O (Symbol "nothing"); EvApplyGeneric [Long 1; Nothing]]).
Proof.
  destruct (call_arguments_left_to_right C0 [Long 1; Symbol "nothing"] None w0)
    as [H _].
  destruct (H [Long 1; Nothing] w0 ([] ++ [EvGetGlobal O (Symbol "nothing")] ++ []))
    as [w2 Hw2].
  - eapply ltr_value; [reflexivity |].
    eapply ltr_value; [reflexivity |]. apply ltr_done.
  - exists w2. exact Hw2.
Defined.

(** [global x] evaluates to nothing. *)
Lemma definition_forms_return_nothing_witness :
  exists v w' tr,
    eval C0 (Expr global_sym [Symbol "x"]) None w0 = (Ok v, w', tr) /\
    v = jl_nothing.
Proof.
  destruct (eval C0 (Expr global_sym [Symbol "x"]) None w0) as [[r w'] tr] eqn:E.
  assert (exists v, r = Ok v) as [v ->].
  { pose proof E as E'. vm_compute in E'. inversion E'. eexists. reflexivity. }
  exists v, w', tr. split; [reflexivity |].
  apply (definition_forms_return_nothing C0 global_sym [Symbol "x"] None w0 v w' tr).
  - right. left. reflexivity.
  - exact E.
Defined.

(** * More properties at work on the small host *)

Ltac by_computation :=
  vm_compute; repeat split;
  first [reflexivity | discriminate | intros H; discriminate H].

Lemma unrecognised_head_is_an_error_witness :
  eval C0 (Expr "return" [Long 1]) None w0 =
  (Throw (ErrorException "unsupported or misplaced expression return"),
   set_exception (ErrorException "unsupported or misplaced expression return") w0, []).
Proof.
  apply (unrecognised_head_is_an_error C0 "return" [Long 1] None w0).
  intros H. repeat (destruct H as [H | H]; [discriminate H |]). exact H.
Defined.

Lemma error_forms_never_return_witness :
  exists p q,
    String.append "a" (String Ascii.zero "b") = String.append p q /\
    ~ List.In Ascii.zero (list_ascii_of_string p) /\
    (q = EmptyString \/ exists q', q = String Ascii.zero q') /\
    eval C0 (Expr "error" [JString (String.append "a" (String Ascii.zero "b"))]) None w0 =
    (Throw (ErrorException (String.append "syntax: " p)),
     set_exception (ErrorException (String.append "syntax: " p)) w0, []).
Proof.
  destruct (error_forms_never_return C0 "error"
              [JString (String.append "a" (String Ascii.zero "b"))] None w0)
    as (_ & _ & H & _).
  - left. reflexivity.
  - exact (H (String.append "a" (String Ascii.zero "b")) [] eq_refl).
Defined.

Lemma typedef_refused_while_defining_witness :
  eval C0 (Expr "bits_type" (bits_foo 8)) None (set_inside_typedef true w0) =
  (Throw (ErrorException
            "cannot eval a new bits type definition while defining another type"),
   set_exception
     (ErrorException
        "cannot eval a new bits type definition while defining another type")
     (set_inside_typedef true w0), []).
Proof.
  apply (typedef_refused_while_defining C0 "bits_type" (bits_foo 8) None
           (set_inside_typedef true w0)).
  - right. left. reflexivity.
  - reflexivity.
Defined.

Lemma global_declares_in_order_witness :
  exists r w' tr,
    declared C0 O [Symbol "x"; Long 1; Symbol "y"] w0 r w' tr /\
    eval C0 (Expr "global" [Symbol "x"; Long 1; Symbol "y"]) None w0 =
    (then_nothing r, w', tr).
Proof.
  exact (global_declares_in_order C0 [Symbol "x"; Long 1; Symbol "y"] None w0).
Defined.

Lemma global_lookup_witness :
  eval C0 (Symbol "x") None w0 =
  (Throw (UndefVarError (Symbol "x")), set_exception (UndefVarError (Symbol "x")) w0,
   [EvGetGlobal O (Symbol "x")]).
Proof.
  destruct (global_lookup C0 None w0) as (_ & _ & _ & H).
  apply (H "x" w0). reflexivity.
Defined.

Lemma toplevel_expr_in_looks_up_in_module_witness :
  exists r w',
    jl_interpret_toplevel_expr_in C0 4%nat (Symbol "+") None w0 =
    (r, w', [EvGetGlobal 4%nat (Symbol "+")]) /\
    (forall v, r = Ok v ->
       fst (jl_get_global C0 4%nat (Symbol "+") (set_modules 4%nat 4%nat w0)) = Ok v /\
       v <> NULL).
Proof. exact (toplevel_expr_in_looks_up_in_module C0 4%nat "+" None w0). Defined.

Lemma static_parameter_value_witness :
  eval C0 (Expr "static_parameter" [Long 1])
    (Some {| lam := None; locals := None; s_sparam_vals := Some [Long 5] |}) w0 =
  (Ok (Long 5), w0, []).
Proof.
  destruct (static_parameter_value C0
              {| lam := None; locals := None; s_sparam_vals := Some [Long 5] |}
              1 [] w0) as (H & _).
  - by_computation.
  - apply (H [Long 5] (Long 5)); reflexivity.
Defined.

Lemma invoke_arguments_left_to_right_witness :
  exists w2,
    eval C0 (Expr "invoke" [LambdaInfo 0; Long 1; Long 2]) None w0 =
    (Ok (Tuple [Long 1; Long 2]), w2,
     [EvCallMethodInternal (LambdaInfo 0) [Long 1; Long 2]]).
Proof.
  destruct (invoke_arguments_left_to_right C0 (LambdaInfo 0) [Long 1; Long 2] None w0)
    as (H & _).
  apply (H [Long 1; Long 2] w0 []).
  - apply (ltr_value C0 None (Long 1) [Long 2] w0 (Long 1) w0 [] [Long 2] w0 []);
      [reflexivity |].
    apply (ltr_value C0 None (Long 2) [] w0 (Long 2) w0 [] [] w0 []);
      [reflexivity | apply ltr_done].
  - reflexivity.
  - reflexivity.
Defined.


Lemma typedef_in_supertype_is_refused_witness :
  b_value
    (bindings
       (rolled_back C0 5 3 NULL
          (ErrorException (typedef_in_progress "abstract_type"))
          (set_exception (ErrorException (typedef_in_progress "abstract_type"))
             (set_inside_typedef true (store_binding_value 3 (DataType 5) w0)))) 3)
  = NULL.
Proof.
  destruct (typedef_in_supertype_is_refused C0
              [Symbol "Foo"; QuoteNode (SimpleVector []);
               Expr "abstract_type" abstract_foo]
              None w0 "abstract_type" abstract_foo) as (H & _).
  - left. reflexivity.
  - destruct (H 5%nat 3%nat NULL (store_binding_value 3 (DataType 5) w0)
                [EvNewAbstractType (Symbol "Foo") (SimpleVector []);
                 EvGetBindingWr O (Symbol "Foo")]) as [_ Hb].
    + reflexivity.
    + vm_compute. reflexivity.
    + exact Hb.
Defined.

Lemma typedef_bind_guards_constants_witness :
  exists w1,
    typedef_bind 5 3 (w_bound (DataType 7)) = (Ok (DataType 7), w1, []) /\
    b_value (bindings w1 3) = DataType 5.
Proof.
  destruct (typedef_bind_guards_constants (host := unit) 5 3 (w_bound (DataType 7)))
    as (_ & H).
  destruct H as (w1 & H1 & H2 & _).
  - left. reflexivity.
  - exists w1. split; [exact H1 | exact H2].
Defined.

Lemma set_datatype_super_accepts_witness :
  dt_super (datatypes (store_dt_super 5 (DataType 1) w0) 5) = DataType 1.
Proof.
  destruct (set_datatype_super_accepts C0 5 (DataType 1) w0) as (H & _).
  destruct (H tt (store_dt_super 5 (DataType 1) w0) [])
    as (sa & _ & _ & _ & _ & _ & _ & _ & _ & Hs & _).
  - reflexivity.
  - exact Hs.
Defined.

Lemma field_types_are_checked_in_order_witness :
  check_field_types C0 5 [DataType 1; Long 3; DataType 2] w0 =
  (Throw (TypeError "Foo" "type definition" (DataType 11) (Long 3)),
   set_exception (TypeError "Foo" "type definition" (DataType 11) (Long 3)) w0, []).
Proof.
  destruct (field_types_are_checked_in_order C0 5 w0) as (_ & H & _).
  apply (H [DataType 1] (Long 3) [DataType 2]).
  - constructor; [left; reflexivity | constructor].
  - discriminate.
  - reflexivity.
  - reflexivity.
Defined.


Lemma ssa_assignment_round_trip_witness :
  exec_assign C0 [SSAValue 0; Long 7] (Some one_ssa) w0 =
  (Ok (Some {| lam := lam one_ssa; locals := Some [Long 7];
               s_sparam_vals := None |}), w0, []) /\
  eval C0 (SSAValue 0)
    (Some {| lam := lam one_ssa; locals := Some [Long 7]; s_sparam_vals := None |}) w0 =
  (Ok (Long 7), w0, []).
Proof.
  destruct (ssa_assignment_round_trip C0 one_ssa (a_lambda [] [] 1 0 false) 1 [NULL]
              0 (Long 7) [] w0 (Long 7) w0 []) as (H1 & H2 & _).
  - reflexivity.
  - reflexivity.
  - reflexivity.
  - by_computation.
  - by_computation.
  - by_computation.
  - reflexivity.
  - split; [exact H1 | exact (H2 w0)].
Defined.

Lemma slot_assignment_round_trip_witness :
  exec_assign C0 [Slot 1; Long 7] (Some one_slot) w0 =
  (Ok (Some {| lam := lam one_slot; locals := Some [Long 7];
               s_sparam_vals := None |}), w0, []) /\
  eval C0 (Slot 1)
    (Some {| lam := lam one_slot; locals := Some [Long 7]; s_sparam_vals := None |}) w0 =
  (Ok (Long 7), w0, []).
Proof.
  destruct (slot_assignment_round_trip C0 one_slot (a_lambda [] [Symbol "x"] 0 0 false)
              [NULL] 1 (Long 7) [] w0 (Long 7) w0 []) as (H1 & H2 & _).
  - reflexivity.
  - reflexivity.
  - by_computation.
  - by_computation.
  - reflexivity.
  - split; [exact H1 | apply (H2 ltac:(discriminate) w0)].
Defined.

Lemma newvar_resets_slot_witness :
  eval C0 (Slot 1)
    (Some {| lam := lam one_slot; locals := Some [NULL]; s_sparam_vals := None |}) w0 =
  (Throw (UndefVarError (Symbol "x")), set_exception (UndefVarError (Symbol "x")) w0, []).
Proof.
  destruct (newvar_resets_slot C0
              {| lam := lam one_slot; locals := Some [Long 7]; s_sparam_vals := None |}
              (a_lambda [] [Symbol "x"] 0 0 false) [Long 7] 1 false w0)
    as (_ & H & _).
  - reflexivity.
  - reflexivity.
  - by_computation.
  - by_computation.
  - apply (H (Symbol "x") w0). reflexivity.
Defined.

Lemma assignment_destination_checked_last_witness :
  exec_assign C0 [SSAValue 5; Expr "call" [Symbol "+"; Long 1; Long 2]]
    (Some one_ssa) w0 =
  (Throw (ErrorException "assignment to invalid GenSym location"),
   set_exception (ErrorException "assignment to invalid GenSym location") w0,
   [EvGetGlobal O (Symbol "+"); EvApplyGeneric [Opaque 100; Long 1; Long 2]]).
Proof.
  destruct (assignment_destination_checked_last C0 (SSAValue 5)
              (Expr "call" [Symbol "+"; Long 1; Long 2]) [] (Some one_ssa) w0
              (Long 3) w0
              [EvGetGlobal O (Symbol "+"); EvApplyGeneric [Opaque 100; Long 1; Long 2]])
    as (H & _).
  - vm_compute. reflexivity.
  - apply (H one_ssa (a_lambda [] [] 1 0 false) 1 5); try reflexivity.
    right. by_computation.
Defined.

Lemma global_assignment_witness :
  exists w3,
    exec_assign C0 [Symbol "x"; Long 7] None w0 =
    (Ok None, w3, [EvGetBindingWr O (Symbol "x"); EvCheckedAssignment 3 (Long 7)]).
Proof.
  destruct (global_assignment C0 None w0 (Long 7) [] (Long 7) w0 [] eq_refl
              (Symbol "x") O "x" (or_intror (conj eq_refl eq_refl)) 3%nat w0 eq_refl)
    as [w3 H].
  exists w3. exact H.
Defined.

Lemma thrown_exception_is_in_transit_witness :
  eval C0 (Expr "the_exception" []) None (set_exception (Long 42) w0) =
  (Ok (Long 42), set_exception (Long 42) w0, []).
Proof.
  destruct (thrown_exception_is_in_transit C0) as (H & _).
  destruct (H (Expr "call" [Symbol "throw"; Long 42]) None w0 (Long 42)
              (set_exception (Long 42) w0)
              [EvGetGlobal O (Symbol "throw"); EvApplyGeneric [Opaque 102; Long 42]])
    as [_ Hx].
  - vm_compute. reflexivity.
  - exact (Hx None).
Defined.


Lemma body_keeps_its_frame_witness :
  frame_shape (Some {| lam := Some (a_lambda straight_line [] 1 0 false);
                       locals := Some [Long 7]; s_sparam_vals := None |}) =
  frame_shape (a_frame straight_line [] 1).
Proof.
  destruct (body_keeps_its_frame C0 3) as (H & _).
  apply (H straight_line (a_frame straight_line [] 1) 0 false w0 (Ok (Long 7)) _ w0 []).
  reflexivity.
Defined.

Lemma goto_to_itself_never_returns_witness :
  eval_body_loop C0 1000 [GotoNode 1] None 0 true w0 = None.
Proof.
  apply (goto_to_itself_never_returns C0 [GotoNode 1] None 0 true w0 1).
  - by_computation.
  - reflexivity.
  - reflexivity.
Defined.

Lemma method_declares_generic_function_witness :
  eval C0 (Expr "method" [Symbol "f"]) None w0 =
  (Ok (Opaque 1), w0,
   [EvGetBindingForMethodDef O (Symbol "f"); EvGenericFunctionDef (Symbol "f") 2]).
Proof.
  destruct (method_declares_generic_function C0 None w0) as (H & _).
  apply (H "f" 2%nat w0 (Opaque 1) w0); reflexivity.
Defined.

Lemma toplevel_thunk_frame_witness :
  jl_interpret_toplevel_thunk C0 2
    (a_lambda [Expr "line" [Long 3]; Expr "return" [Slot 1]] [Symbol "x"] 0 0 false) w0 =
  Some (Throw (UndefVarError (Symbol "x")),
        set_exception (UndefVarError (Symbol "x")) (set_lineno 3 w0), []).
Proof.
  destruct (toplevel_thunk_frame C0 2
              (a_lambda [Expr "line" [Long 3]; Expr "return" [Slot 1]]
                 [Symbol "x"] 0 0 false)
              [Expr "line" [Long 3]; Expr "return" [Slot 1]] 0 w0) as (H & _).
  - reflexivity.
  - reflexivity.
  - by_computation.
  - rewrite (H eq_refl). reflexivity.
Defined.

Lemma equiv_type_partial_equivalence_witness :
  equiv_type C0 w0 7 (DataType 5) = true.
Proof.
  destruct (equiv_type_partial_equivalence C0 w0) as (H & _).
  - intros x y Hxy. destruct x; try discriminate Hxy.
    + destruct elts; [| discriminate Hxy]. destruct y; try discriminate Hxy.
      destruct elts; [| discriminate Hxy]. reflexivity.
    + destruct y; try discriminate Hxy. cbn in *. rewrite Nat.eqb_sym. exact Hxy.
  - intros x y z Hxy Hyz. destruct x; try discriminate Hxy.
    + destruct elts; [| discriminate Hxy]. destruct y; try discriminate Hxy.
      destruct elts; [| discriminate Hxy]. exact Hyz.
    + destruct y; try discriminate Hxy. cbn in Hxy. apply Nat.eqb_eq in Hxy.
      rewrite Hxy. exact Hyz.
  - intros p Hp. destruct p; try discriminate Hp.
    destruct elts; [reflexivity | discriminate Hp].
  - apply (H 5%nat 7%nat). reflexivity.
Defined.

Lemma references_with_lambda_witness :
  eval C0 (SSAValue 3) (Some one_ssa) w0 =
  (Throw (ErrorException "access to invalid SSAValue"),
   set_exception (ErrorException "access to invalid SSAValue") w0, []).
Proof.
  destruct (references_with_lambda C0 one_ssa (a_lambda [] [] 1 0 false) 1 w0)
    as (H & _).
  - reflexivity.
  - reflexivity.
  - destruct (H 3) as (Hbad & _). apply Hbad. right. left. by_computation.
Defined.

Lemma static_parameter_needs_a_lambda_witness :
  jl_interpret_toplevel_expr C0 (Expr "static_parameter" [Long 1]) w0 =
  (Crash NullDeref, w0, []).
Proof.
  destruct (static_parameter_needs_a_lambda C0 1 [] w0) as (H & _).
  - by_computation.
  - exact H.
Defined.
